(** * openapi-ts-client: the document-to-source compiler

    A shallow embedding of [src/utils.js] and [src/generate.js]: the
    identifier registry, the reference table, the schema compiler
    ([createType] and its helpers), the endpoint assembler
    ([createEndpoints]) and the emitter ([generate]).

    The JavaScript module state ([createdTypeNames], [refMap],
    [shownWarnings]) and the console are threaded explicitly through a
    state-and-exception monad; a thrown [Error] aborts the computation but
    keeps the state reached so far, as the module-level variables do.

    Conventions. A JavaScript object the code enumerates is the list of its
    entries, in the order [Object.entries] gives them. Strings are strings
    of ASCII characters. The functions [generate] is handed, the formatter
    and [lodash.camelcase] are parameters: functions of their arguments. *)

From Stdlib Require Import String Ascii ZArith List Bool Lia.
From stdpp Require Import base option list gmap strings pretty.

Import ListNotations.
Local Open Scope string_scope.
Local Open Scope list_scope.
#[local] Set Warnings "-clear-no-such-hyp".

(** ** JavaScript values and strings *)

(** The double quote character, as a one-character string. *)
Definition dq : string := String "034"%char EmptyString.

(** [Array.prototype.join] on an array of strings. *)
Definition join (sep : string) (l : list string) : string := String.concat sep l.

(** [String.prototype.startsWith]. *)
Definition startsWith (s p : string) : bool := String.prefix p s.

(** Scalars that occur as [enum] members. Numbers are the integer-valued
    ones, which JavaScript prints in decimal. *)
Inductive Literal :=
| LNull
| LBool (b : bool)
| LNum (n : Z)
| LStr (s : string).

(** Any JSON value, as far as the code looks at it: only the truthiness of
    [default] is ever tested. *)
Inductive JsValue :=
| VLit (l : Literal)
| VCompound.

(** [String(v)], the conversion used by template literals. *)
Definition toString (l : Literal) : string :=
  match l with
  | LNull => "null"
  | LBool true => "true"
  | LBool false => "false"
  | LNum n => pretty n
  | LStr s => s
  end.

(** The conversion [Array.prototype.join] applies to each element: [null]
    becomes the empty string. *)
Definition joinString (l : Literal) : string :=
  match l with
  | LNull => ""
  | _ => toString l
  end.

(** Truthiness of the values the code tests with [if (x)] or [x ? a : b]. *)
Definition truthyBool (o : option bool) : bool :=
  match o with Some true => true | _ => false end.

Definition truthyString (o : option string) : bool :=
  match o with Some EmptyString | None => false | Some _ => true end.

Definition truthyValue (o : option JsValue) : bool :=
  match o with
  | None => false
  | Some VCompound => true
  | Some (VLit LNull) => false
  | Some (VLit (LBool b)) => b
  | Some (VLit (LNum n)) => negb (n =? 0)%Z
  | Some (VLit (LStr s)) => truthyString (Some s)
  end.

(** ** The OpenAPI document *)

(** Induction over a schema reaches the schemas nested in its lists,
    options, sums and pairs. *)
Scheme All for list.
Scheme All for option.
Scheme All for sum.
Scheme All for prod.

(** A Schema Object, with the keys the compiler reads. [ref] is the [$ref]
    key; [otherKeys] are the names of the remaining keys of the object
    (title, description, minimum, ...), which only [Object.keys] sees. A
    property whose value is [null] or [undefined] is [None]. *)
Inductive Schema : Type := mkSchema {
  ref : option string;
  allOf : option (list Schema);
  anyOf : option (list Schema);
  not_ : option Schema;
  oneOf : option (list Schema);
  discriminator : option string;
  deprecated : option bool;
  default_ : option JsValue;
  type : option string;
  enum_ : option (list Literal);
  nullable : option bool;
  format : option string;
  items : option Schema;
  properties : option (list (string * option Schema));
  required : option (list string);
  additionalProperties : option (bool + Schema);
  readOnly : option bool;
  writeOnly : option bool;
  xml : option unit;
  otherKeys : list string;
}.

(** The schema [{}]. *)
Definition emptySchema : Schema :=
  mkSchema None None None None None None None None None None
           None None None None None None None None None [].

(** ** Module state and the monad of the generator *)

Inductive Error :=
| UnknownRef (r : string)
| DuplicateTypeName (typeName source : string)
| NotImplemented (what : string)
| UnknownScalarType (t : option string)
| UnknownEnumType (t : option string)
| UnsupportedDocument
| TypeError
| HookError (message : string).

Record State := mkState {
  createdTypeNames : gset string;
  refMap : gmap string string;
  shownWarnings : gset string;
  console : list string;
}.

Definition M (A : Type) : Type := State → (Error + A) * State.

Definition ret {A} (a : A) : M A := λ st, (inr a, st).

Definition throw {A} (e : Error) : M A := λ st, (inl e, st).

Definition bind {A B} (m : M A) (k : A → M B) : M B :=
  λ st, match m st with
        | (inr a, st') => k a st'
        | (inl e, st') => (inl e, st')
        end.

Notation "'let*' x ':=' m 'in' k" := (bind m (λ x, k))
  (at level 10, x name, m at level 100, k at level 200, only parsing).
Notation "'do' m 'then' k" := (bind m (λ _, k))
  (at level 10, m at level 100, k at level 200, only parsing).

(** [Array.prototype.map] with a callback that may throw: elements are
    visited in order and the first exception aborts the traversal. *)
Definition mapM {A B} (f : A → M B) : list A → M (list B) :=
  fix go l :=
    match l with
    | [] => ret []
    | x :: l' => let* y := f x in let* ys := go l' in ret (y :: ys)
    end.

Definition when (b : bool) (m : M unit) : M unit := if b then m else ret tt.

(** ** generate.js: warnings *)

Definition warningMessage (key : string) : string :=
  dq +:+ key +:+ dq +:+ " keyword not yet implemented.".

Definition warn (key : string) : M unit := λ st,
  if decide (key ∈ shownWarnings st) then (inr tt, st)
  else (inr tt,
        mkState (createdTypeNames st) (refMap st)
                ({[key]} ∪ shownWarnings st)
                (console st ++ [warningMessage key])).

(** ** utils.js: references *)

Definition isRef (schema : Schema) : bool := truthyString (ref schema).

Definition getTypeNameFromRef (schema : Schema) : M string := λ st,
  let r := ref schema in
  match r with
  | Some r =>
      match refMap st !! r with
      | Some typeName => (inr typeName, st)
      | None => (inl (UnknownRef r), st)
      end
  | None => (inl TypeError, st)
  end.

(** ** generate.js: the schema compiler *)

Definition createTypeUnion (types : list string) : string := join " | " types.

Definition createNullableType (type : string) : string :=
  createTypeUnion [type; "null"].

Definition nullableType (schema : Schema) (type : string) : string :=
  if truthyBool (nullable schema) then createNullableType type else type.

(** [schema.type === t], the test behind each [case] of a [switch]. *)
Definition typeIs (schema : Schema) (t : string) : bool :=
  bool_decide (type schema = Some t).

Definition createEnumType (schema : Schema) : M string :=
  let enum := default [] (enum_ schema) in
  if typeIs schema "boolean" || typeIs schema "integer" || typeIs schema "number" then
    let values := map joinString enum in
    let values := if truthyBool (nullable schema) then values ++ ["null"] else values in
    ret (createTypeUnion values)
  else if typeIs schema "string" then
    let wrapped := map (λ value, dq +:+ toString value +:+ dq) enum in
    let values := if truthyBool (nullable schema) then wrapped ++ ["null"] else wrapped in
    ret (createTypeUnion values)
  else throw (UnknownEnumType (type schema)).

Definition formatted (base : string) (schema : Schema) : string :=
  if truthyString (format schema)
  then base +:+ " /* " +:+ default "" (format schema) +:+ " */"
  else base.

Definition createScalarType (schema : Schema) : M string :=
  if bool_decide (is_Some (enum_ schema)) then createEnumType schema
  else if typeIs schema "boolean" then ret (nullableType schema "boolean")
  else if typeIs schema "integer" then ret (nullableType schema (formatted "number" schema))
  else if typeIs schema "number" then ret (nullableType schema (formatted "number" schema))
  else if typeIs schema "string" then ret (nullableType schema (formatted "string" schema))
  else throw (UnknownScalarType (type schema)).

(** [Object.keys(schema).length === 0] *)
Definition noKeys (s : Schema) : bool :=
  match s with
  | mkSchema None None None None None None None None None None
             None None None None None None None None None [] => true
  | _ => false
  end.

Section createType_body.
(** The recursive calls of [createArrayType], [createObjectTypeProperty]
    and [createObjectType] go back to [createType]. *)
Variable createType : Schema → M string.

Definition createArrayType_ (schema : Schema) : M string :=
  match items schema with
  | None => throw TypeError
  | Some i =>
      let* t := createType i in
      ret (nullableType schema ("Array<" +:+ t +:+ ">"))
  end.

Definition createObjectTypeProperty_ (name : string) (schema : option Schema)
    (required : bool) : M string :=
  match schema with
  | None => throw TypeError
  | Some schema =>
      do when (truthyBool (readOnly schema)) (warn "readOnly") then
      do when (truthyBool (writeOnly schema)) (warn "writeOnly") then
      do when (bool_decide (is_Some (xml schema))) (warn "xml") then
      let* t := createType schema in
      ret (dq +:+ name +:+ dq +:+ (if required then "" else "?") +:+ ": " +:+ t)
  end.

Definition createObjectType_ (schema : Schema) : M string :=
  let requiredProperties := default [] (required schema) in
  let* properties :=
    match properties schema with
    | None => ret []
    | Some ps =>
        mapM (λ p, createObjectTypeProperty_ (fst p) (snd p)
                     (bool_decide (fst p ∈ requiredProperties))) ps
    end in
  match additionalProperties schema with
  | None => ret (nullableType schema (join (String "010"%char "") ["{"; join "," properties; "}"]))
  | Some ap =>
      match properties with
      | [] =>
          match ap with
          | inl _ => ret (nullableType schema "Record<string, unknown>")
          | inr s =>
              if noKeys s then ret (nullableType schema "Record<string, unknown>")
              else
                let* t := createType s in
                ret (nullableType schema ("Record<string, " +:+ t +:+ ">"))
          end
      | _ :: _ =>
          let* index :=
            match ap with
            | inl true => ret "[key: string]: unknown"
            | inl false => throw (UnknownScalarType None)
            | inr s => let* t := createType s in ret ("[key: string]: " +:+ t)
            end in
          ret (nullableType schema
                 (join (String "010"%char "") ["{"; join "," (properties ++ [index]); "}"]))
      end
  end.
End createType_body.

Fixpoint createType (schema : Schema) : M string :=
  if isRef schema then getTypeNameFromRef schema
  else
    match allOf schema with
    | Some l => let* ts := mapM createType l in ret (join " & " ts)
    | None =>
    match anyOf schema with
    | Some l => let* ts := mapM createType l in ret (join " | " ts)
    | None =>
    match not_ schema with
    | Some _ => throw (NotImplemented "not")
    | None =>
    match oneOf schema with
    | Some l => let* ts := mapM createType l in ret (join " | " ts)
    | None =>
    match discriminator schema with
    | Some _ => throw (NotImplemented "discriminator")
    | None =>
        do when (truthyBool (deprecated schema)) (warn "deprecated") then
        do when (truthyValue (default_ schema)) (warn "default") then
        if typeIs schema "array" then createArrayType_ createType schema
        else if typeIs schema "object" then createObjectType_ createType schema
        else createScalarType schema
    end end end end end.

Definition createArrayType := createArrayType_ createType.
Definition createObjectTypeProperty := createObjectTypeProperty_ createType.
Definition createObjectType := createObjectType_ createType.

(** ** JavaScript objects used as dictionaries

    An object is the list of its own entries in the order [Object.entries]
    enumerates them: array-index keys first, in ascending numeric order, then
    the other keys in insertion order. *)

Definition isDigit (c : ascii) : bool :=
  let n := nat_of_ascii c in (48 <=? n)%nat && (n <=? 57)%nat.

Fixpoint digitsValue (acc : N) (s : string) : option N :=
  match s with
  | EmptyString => Some acc
  | String c s' =>
      if isDigit c
      then digitsValue (acc * 10 + (N_of_ascii c - 48))%N s'
      else None
  end.

(** The array index a key denotes, if it is a canonical numeric string
    below [2^32 - 1]. *)
Definition arrayIndex (k : string) : option N :=
  match k with
  | EmptyString => None
  | String c s' =>
      if (Ascii.eqb c "0" && negb (String.eqb s' ""))%bool then None
      else
        match digitsValue 0 k with
        | Some n => if (n <? 4294967295)%N then Some n else None
        | None => None
        end
  end.

Definition jsGet {A} (k : string) (o : list (string * A)) : option A :=
  snd <$> find (λ e, String.eqb (fst e) k) o.

Definition jsHas {A} (k : string) (o : list (string * A)) : bool :=
  bool_decide (is_Some (jsGet k o)).

(** Whether a new key [k] is enumerated before the existing key [k']. *)
Definition enumeratedBefore (k k' : string) : bool :=
  match arrayIndex k, arrayIndex k' with
  | Some n, Some n' => (n <? n')%N
  | Some _, None => true
  | None, _ => false
  end.

Fixpoint jsReplace {A} (k : string) (v : A) (o : list (string * A)) : list (string * A) :=
  match o with
  | [] => []
  | e :: o' => if String.eqb (fst e) k then (k, v) :: o' else e :: jsReplace k v o'
  end.

Fixpoint jsAdd {A} (k : string) (v : A) (o : list (string * A)) : list (string * A) :=
  match o with
  | [] => [(k, v)]
  | e :: o' => if enumeratedBefore k (fst e) then (k, v) :: e :: o' else e :: jsAdd k v o'
  end.

(** [o[k] = v] on an own data property. *)
Definition jsSet {A} (k : string) (v : A) (o : list (string * A)) : list (string * A) :=
  if jsHas k o then jsReplace k v o else jsAdd k v o.

(** The properties every object inherits from [Object.prototype]. *)
Definition objectPrototype : list string :=
  [ "constructor"; "__defineGetter__"; "__defineSetter__"; "hasOwnProperty";
    "__lookupGetter__"; "__lookupSetter__"; "isPrototypeOf";
    "propertyIsEnumerable"; "toString"; "valueOf"; "__proto__";
    "toLocaleString" ].

Definition inherited (k : string) : bool := bool_decide (k ∈ objectPrototype).

(** ** The rest of the document *)

(** A [content] map: media type to the [schema] of its Media Type Object
    ([None] when it has none). *)
Definition Content : Type := list (string * option Schema).

Record Response := mkResponse {
  content : option Content;
}.

(** A Request Body Object. Without [content] the code compiles the object
    itself as a schema (a Reference Object, typically). *)
Inductive RequestBody :=
| WithContent (content : Content)
| WithoutContent (self : Schema).

Record ParameterObject := mkParameter {
  p_name : string;
  p_in : string;
  p_required : option bool;
  p_schema : option Schema;
}.

Record Operation := mkOperation {
  summary : option string;
  description : option string;
  operationId : option string;
  parameters : option (list ParameterObject);
  requestBody : option RequestBody;
  responses : option (list (string * Response));
}.

(** A Path Item Object. [operations] are its entries other than [$ref],
    [summary], [description], [servers] and [parameters], in enumeration
    order: the operations, keyed by method. *)
Record PathItem := mkPathItem {
  pathRef : option string;
  pathSummary : option string;
  pathDescription : option string;
  pathServers : option (list string);
  sharedParameters : option (list ParameterObject);
  operations : list (string * Operation);
}.

Record Components := mkComponents {
  schemas : option (list (string * Schema));
  componentParameters : option (list (string * ParameterObject));
  requestBodies : option (list (string * RequestBody));
  componentResponses : option (list (string * Response));
}.

Record Contact := mkContact {
  contactName : option string;
  contactEmail : option string;
  contactUrl : option string;
}.

Record Info := mkInfo {
  title : option string;
  infoDescription : option string;
  termsOfService : option string;
  contact : option Contact;
  license : option (option string);
  version : option string;
}.

Record Document := mkDocument {
  openapi : option string;
  swagger : option string;
  info : Info;
  components : option Components;
  paths : list (string * PathItem);
}.

(** What the [createEndpoint] hook receives. *)
Record EndpointInfo := mkEndpointInfo {
  e_operationName : string;
  e_method : string;
  e_pathTemplate : string;
  e_parameters : list (string * list string);
  e_hasRequestBody : bool;
  e_headers : list (string * string);
  e_returnType : string;
  e_typeName : string;
}.

(** The functions [generate] is handed (or defaults to), and the external
    formatter. Each is a function of its arguments and may throw. *)
Record Hooks := mkHooks {
  preProcess : Document → Error + Document;
  validate : Document → Error + unit;
  createImports : Document → Error + string;
  createRequestFunction : Document → option string → Error + string;
  createEndpoint : EndpointInfo → Error + string;
  prettierFormat : string → Error + string;
}.

Definition lift {A} (r : Error + A) : M A := λ st, (r, st).

(** ** generate.js: the default hooks

    [convertObj] is the converter of [swagger2openapi]. *)

Definition defaultPreProcess (convertObj : Document → Error + Document)
    (openApiDocument : Document) : Error + Document :=
  if bool_decide (swagger openApiDocument = Some "2.0")
  then convertObj openApiDocument
  else inr openApiDocument.

Definition defaultValidate (openApiDocument : Document) : Error + unit :=
  match openapi openApiDocument with
  | Some v => if startsWith v "3" then inr tt else inl UnsupportedDocument
  | None => inl UnsupportedDocument
  end.

(** ** utils.js: identifiers *)

(** [String.prototype.toUpperCase] on one character of an ASCII string: the
    letters [a] to [z] have a capital, no other ASCII character has. *)
Definition toUpperCase (c : ascii) : ascii :=
  let n := nat_of_ascii c in
  if ((97 <=? n) && (n <=? 122))%nat then ascii_of_nat (n - 32) else c.

Definition capitalize (str : string) : string :=
  match str with
  | EmptyString => ""
  | String c rest => String (toUpperCase c) rest
  end.

Definition setCreatedTypeNames (names : gset string) (st : State) : State :=
  mkState names (refMap st) (shownWarnings st) (console st).

Definition setRefMap (m : gmap string string) (st : State) : State :=
  mkState (createdTypeNames st) m (shownWarnings st) (console st).

Section utils.
(** [lodash.camelcase], a dependency of the package. *)
Variable camelCase : string → string.

Definition toPascalCase (str : string) : string :=
  if String.eqb str "" then str
  else capitalize (camelCase str).

Definition createTypeIdentifier (str suffix : string) : string :=
  toPascalCase (str +:+ suffix).

Definition createTypeName (str suffix : string) : M string := λ st,
  let typeName := createTypeIdentifier str suffix in
  if decide (typeName ∈ createdTypeNames st)
  then (inl (DuplicateTypeName typeName str), st)
  else (inr typeName, setCreatedTypeNames ({[typeName]} ∪ createdTypeNames st) st).

Definition createOperationName (str : string) : string := camelCase str.

Definition refMapSet (key typeName : string) : M unit := λ st,
  (inr tt, setRefMap (<[key := typeName]> (refMap st)) st).

(** The keys of [components[key] || {}]. *)
Definition componentKeys (components : Components) : list (string * list string) :=
  [ ("schemas", default [] (map fst <$> schemas components));
    ("parameters", default [] (map fst <$> componentParameters components));
    ("requestBodies", default [] (map fst <$> requestBodies components));
    ("responses", default [] (map fst <$> componentResponses components)) ].

Definition buildRefMap (openApiDocument : Document) : M unit :=
  match components openApiDocument with
  | None => ret tt
  | Some components =>
      let* _ :=
        mapM (λ entry,
                mapM (λ refName,
                        let typeName := createTypeIdentifier refName "" in
                        refMapSet ("#/components/" +:+ fst entry +:+ "/" +:+ refName)
                                  typeName)
                     (snd entry))
             (componentKeys components) in
      ret tt
  end.
End utils.

(** ** generate.js: text fragments *)

Definition newline : string := String "010"%char "".

Definition isWhiteSpace (c : ascii) : bool :=
  let n := nat_of_ascii c in
  ((9 <=? n) && (n <=? 13) || (n =? 32))%nat.

Fixpoint trimStart (s : string) : string :=
  match s with
  | String c s' => if isWhiteSpace c then trimStart s' else s
  | EmptyString => ""
  end.

Definition reverse (s : string) : string :=
  string_of_list_ascii (rev (list_ascii_of_string s)).

(** [String.prototype.trim], on ASCII white space. *)
Definition trim (s : string) : string :=
  reverse (trimStart (reverse (trimStart s))).

(** The truthy strings of an array, [filter(Boolean)]. *)
Definition filterBoolean (l : list (option string)) : list string :=
  omap (λ o, if truthyString o then o else None) l.

(** A value interpolated in a template literal. *)
Definition interpolate (o : option string) : string := default "undefined" o.

(** [createComment], called with an array of lines. *)
Definition createComment (lines : list string) : string :=
  join newline ["/**"; join newline (map (λ s, " * " +:+ trim s) lines); " */"].

Definition createTypeAlias (name typeDefinition : string) : string :=
  "export type " +:+ name +:+ " = " +:+ typeDefinition.

Definition createNamespace (name : string) (children : list string) : string :=
  "export namespace " +:+ name +:+ " {" +:+ newline +:+ "    "
    +:+ join newline children +:+ newline +:+ "  }".

Definition createInfoHeader (openApiDocument : Document) : string :=
  let i := info openApiDocument in
  createComment
    (filterBoolean
       ([ title i; Some newline ]
        ++ (if truthyString (infoDescription i) then [infoDescription i; Some newline] else [])
        ++ [ if truthyString (termsOfService i)
             then Some ("Terms of service: " +:+ interpolate (termsOfService i))
             else None;
             (λ c, "Contact: " +:+
                     join ", " (filterBoolean [contactName c; contactEmail c; contactUrl c]))
               <$> contact i;
             (λ name, "License: " +:+ interpolate name) <$> license i;
             Some ("Version: " +:+ interpolate (version i)) ])).

(** [createType] applied to a value that may be [undefined]: reading
    [$ref] from it throws. *)
Definition createTypeOf (schema : option Schema) : M string :=
  match schema with
  | Some schema => createType schema
  | None => throw TypeError
  end.

Definition getRequestBodySchemas (maybeSchema : RequestBody) : list (option Schema) :=
  match maybeSchema with
  | WithoutContent self => [Some self]
  | WithContent content => map snd content
  end.

(** ** generate.js: the endpoint assembler *)

Definition HTTP_METHODS : list string := ["get"; "delete"; "patch"; "post"; "put"].

(** The object [{ type: 'object', required, properties }] a location's
    parameters are collected in. *)
Definition parameterGroup (required : list string)
    (properties : list (string * option Schema)) : Schema :=
  mkSchema None None None None None None None None (Some "object") None
           None None None (Some properties) (Some required) None None None None [].

(** One step of [allParameters.forEach]. *)
Definition addParameter (parametersByLocation : list (string * Schema))
    (parameter : ParameterObject) : Error + list (string * Schema) :=
  let location := p_in parameter in
  if inherited location then inl TypeError
  else
    let group := default (parameterGroup [] []) (jsGet location parametersByLocation) in
    let properties := default [] (properties group) in
    let properties :=
      if String.eqb (p_name parameter) "__proto__" then properties
      else jsSet (p_name parameter) (p_schema parameter) properties in
    let required := default [] (required group) in
    let required :=
      if bool_decide (p_required parameter = Some false) then required
      else required ++ [p_name parameter] in
    inr (jsSet location (parameterGroup required properties) parametersByLocation).

Fixpoint groupParameters (parametersByLocation : list (string * Schema))
    (allParameters : list ParameterObject) : Error + list (string * Schema) :=
  match allParameters with
  | [] => inr parametersByLocation
  | parameter :: rest =>
      match addParameter parametersByLocation parameter with
      | inl e => inl e
      | inr parametersByLocation => groupParameters parametersByLocation rest
      end
  end.

(** The types one response group is made of; [placeholder] is ['void'] or
    ['unknown']. *)
Definition createResponseGroup (selected : string → bool) (placeholder : string)
    (responses : list (string * Response)) : M (list string) :=
  let* types :=
    mapM (λ entry,
            match content (snd entry) with
            | None => ret [placeholder]
            | Some content => mapM (λ mediaType, createTypeOf (snd mediaType)) content
            end)
         (filter (λ entry, selected (fst entry)) responses) in
  ret (concat types).

Definition isSuccessCode (statusCode : string) : bool := startsWith statusCode "2".

Definition isErrorCode (statusCode : string) : bool :=
  String.eqb statusCode "default" || startsWith statusCode "4" || startsWith statusCode "5".

(** The body of [if (responses) { ... }]: the [Success] and [Error] type
    definitions. *)
Definition createResponseTypes (responses : list (string * Response)) : M (string * string) :=
  let* successResponses := createResponseGroup isSuccessCode "void" responses in
  let* errorResponses := createResponseGroup isErrorCode "unknown" responses in
  let successTypeDefinition :=
    createTypeUnion (if bool_decide (successResponses = []) then ["void"] else successResponses) in
  let errorTypeDefinition :=
    createTypeUnion (if bool_decide (errorResponses = []) then ["unknown"] else errorResponses) in
  ret (successTypeDefinition, errorTypeDefinition).

(** [operationId || `${method}${path}`] *)
Definition opNameOf (path method : string) (operation : Operation) : string :=
  if truthyString (operationId operation)
  then default "" (operationId operation)
  else method +:+ path.

Section generate.
Variable camelCase : string → string.
Variable hooks : Hooks.

Definition createTypesFromSchemas (openApiDocument : Document) : M (list string) :=
  match components openApiDocument ≫= schemas with
  | None => ret []
  | Some schemas =>
      mapM (λ entry,
              let* typeName := createTypeName camelCase (fst entry) "" in
              let* typeDefinition := createType (snd entry) in
              ret (createTypeAlias typeName typeDefinition))
           schemas
  end.

Definition createTypesFromParameters (openApiDocument : Document) : M (list string) :=
  match components openApiDocument ≫= componentParameters with
  | None => ret []
  | Some _ => throw (NotImplemented "components.parameters")
  end.

Definition createTypesFromRequestBodies (openApiDocument : Document) : M (list string) :=
  match components openApiDocument ≫= requestBodies with
  | None => ret []
  | Some requestBodies =>
      mapM (λ entry,
              let schema := mjoin (head (getRequestBodySchemas (snd entry))) in
              let* typeName := createTypeName camelCase (fst entry) "RequestBody" in
              let* typeDefinition := createTypeOf schema in
              ret (createTypeAlias typeName typeDefinition))
           requestBodies
  end.

Definition createTypesFromResponses (openApiDocument : Document) : M (list string) :=
  match components openApiDocument ≫= componentResponses with
  | None => ret []
  | Some _ => throw (NotImplemented "components.responses")
  end.

(** The callback of the inner [forEach] of [createEndpoints]: what one
    operation pushes to [endpoints]. *)
Definition createOperation (path : string) (sharedParameters : list ParameterObject)
    (method : string) (operation : Operation) : M (list string) :=
  let opName := opNameOf path method operation in
  let operationName := createOperationName camelCase opName in
  let* typeName := createTypeName camelCase opName "" in
  let comment :=
    if truthyString (description operation) || truthyString (summary operation)
    then [createComment (filterBoolean [description operation; summary operation])]
    else [] in
  let returnType := "json" in
  let allParameters := sharedParameters ++ default [] (parameters operation) in
  let* parametersByLocation := lift (groupParameters [] allParameters) in
  let* parameterTypes :=
    mapM (λ entry,
            let typeName := createTypeIdentifier camelCase (fst entry +:+ "Parameters") "" in
            let* typeDefinition := createType (snd entry) in
            ret (createTypeAlias typeName typeDefinition))
         parametersByLocation in
  let responseTypeName := createTypeIdentifier camelCase "Response" "" in
  let* responseTypes :=
    match responses operation with
    | None => ret []
    | Some responses =>
        let* definitions := createResponseTypes responses in
        ret [createNamespace responseTypeName
               [ createTypeAlias "Success" (fst definitions);
                 createTypeAlias "Error" (snd definitions) ]]
    end in
  let* requestBodyTypes :=
    match requestBody operation with
    | None => ret []
    | Some requestBody =>
        let schemas := getRequestBodySchemas requestBody in
        let* requestBodies := mapM createTypeOf schemas in
        let typeName := createTypeIdentifier camelCase "RequestBody" "" in
        let typeDefinition := createTypeUnion requestBodies in
        ret [createTypeAlias typeName typeDefinition]
    end in
  let headers :=
    match requestBody operation with
    | None => []
    | Some _ => jsSet "Content-Type" "application/json" []
    end in
  let namespace := parameterTypes ++ responseTypes ++ requestBodyTypes in
  let parameterNamesByLocation :=
    fold_left (λ acc entry, jsSet (fst entry) ["type"; "required"; "properties"] acc)
              parametersByLocation [] in
  let* endpoint :=
    lift (createEndpoint hooks
            (mkEndpointInfo operationName method path parameterNamesByLocation
               (bool_decide (is_Some (requestBody operation))) headers returnType
               typeName)) in
  ret (comment ++ [createNamespace typeName namespace; endpoint]).

(** The callback of the outer [forEach]: what one path item pushes. *)
Definition createPathItem (path : string) (item : PathItem) : M (list string) :=
  let comment :=
    if truthyString (pathDescription item) || truthyString (pathSummary item)
    then [createComment (filterBoolean [pathDescription item; pathSummary item])]
    else [] in
  if truthyString (pathRef item)
  then throw (NotImplemented "External $ref for path item object")
  else if bool_decide (is_Some (pathServers item))
  then throw (NotImplemented "Custom per-endpoint servers")
  else
    let sharedParameters := default [] (sharedParameters item) in
    let* pushed :=
      mapM (λ entry, createOperation path sharedParameters (fst entry) (snd entry))
           (filter (λ entry, bool_decide (fst entry ∈ HTTP_METHODS)) (operations item)) in
    ret (comment ++ concat pushed).

Definition createEndpoints (openApiDocument : Document) : M (list string) :=
  let* pushed :=
    mapM (λ entry, createPathItem (fst entry) (snd entry)) (paths openApiDocument) in
  ret (concat pushed).

(** ** generate.js: the emitter *)

Definition generate (initialOpenApiDocument : Document) (baseUrl : option string)
    : M string :=
  let* openApiDocument := lift (preProcess hooks initialOpenApiDocument) in
  let* _ := lift (validate hooks openApiDocument) in
  let header := createInfoHeader openApiDocument in
  let* imports := lift (createImports hooks openApiDocument) in
  let* _ := buildRefMap camelCase openApiDocument in
  let* fromSchemas := createTypesFromSchemas openApiDocument in
  let* fromParameters := createTypesFromParameters openApiDocument in
  let* fromRequestBodies := createTypesFromRequestBodies openApiDocument in
  let* fromResponses := createTypesFromResponses openApiDocument in
  let* requestFunction := lift (createRequestFunction hooks openApiDocument baseUrl) in
  let* endpoints := createEndpoints openApiDocument in
  let statements :=
    [header; imports] ++ fromSchemas ++ fromParameters ++ fromRequestBodies
      ++ fromResponses ++ [requestFunction] ++ endpoints in
  lift (prettierFormat hooks (join (newline +:+ newline) statements)).
End generate.

(** A run that starts with nothing reserved, no reference recorded and no
    warning shown. *)
Definition freshState : State := mkState ∅ ∅ ∅ [].

(** * Statements

    The vocabulary of the properties below, and the inputs of the closed
    examples. *)

(** ** Schemas of the examples *)

(** [{ type: t }] *)
Definition scalar (t : string) : Schema :=
  mkSchema None None None None None None None None (Some t) None
           None None None None None None None None None [].

(** [{ $ref: r }] *)
Definition reference (r : string) : Schema :=
  mkSchema (Some r) None None None None None None None None None
           None None None None None None None None None [].

(** ** The decision order of [createType] (C3) *)

(** The AND-join and the OR-join of the compiled members. *)
Definition intersectionOf (members : list Schema) : M string :=
  let* types := mapM createType members in ret (join " & " types).

Definition unionOf (members : list Schema) : M string :=
  let* types := mapM createType members in ret (join " | " types).

(** [{ oneOf: [{ type: 'string' }], not: {} }] *)
Definition oneOfWithNot : Schema :=
  mkSchema None None None (Some emptySchema) (Some [scalar "string"]) None None None None None
           None None None None None None None None None [].

(** [{ anyOf: [{ type: 'string' }, { type: 'integer' }], not: {},
       discriminator: { propertyName: 'kind' } }] *)
Definition anyOfWithNot : Schema :=
  mkSchema None None (Some [scalar "string"; scalar "integer"]) (Some emptySchema) None
           (Some "kind") None None None None
           None None None None None None None None None [].

(** A schema that is neither a reference nor a composition, and carries no
    unsupported keyword: [createType] reaches its [switch]. *)
Definition reachesSwitch (s : Schema) : Prop :=
  isRef s = false ∧ allOf s = None ∧ anyOf s = None ∧ not_ s = None ∧
  oneOf s = None ∧ discriminator s = None.

(** [switch (schema.type)], the end of [createType]. *)
Definition switchOnType (s : Schema) : M string :=
  if typeIs s "array" then createArrayType s
  else if typeIs s "object" then createObjectType s
  else createScalarType s.

(** What [createType] does before it gets there; [k] is the rest. *)
Definition beforeSwitch (s : Schema) (k : M string) : M string :=
  if isRef s then getTypeNameFromRef s
  else match allOf s with
       | Some l => intersectionOf l
       | None =>
  match anyOf s with
  | Some l => unionOf l
  | None =>
  match not_ s with
  | Some _ => throw (NotImplemented "not")
  | None =>
  match oneOf s with
  | Some l => unionOf l
  | None =>
  match discriminator s with
  | Some _ => throw (NotImplemented "discriminator")
  | None => k
  end end end end end.

(** ** Dictionaries (C10) *)

Definition noDeclaredProperties (s : Schema) : Prop :=
  properties s = None ∨ properties s = Some [].

(** The schema with its [additionalProperties] replaced. *)
Definition withAdditionalProperties (ap : bool + Schema) (s : Schema) : Schema :=
  mkSchema (ref s) (allOf s) (anyOf s) (not_ s) (oneOf s) (discriminator s)
           (deprecated s) (default_ s) (type s) (enum_ s) (nullable s) (format s)
           (items s) (properties s) (required s) (Some ap)
           (readOnly s) (writeOnly s) (xml s) (otherKeys s).

(** [{ type: 'object', additionalProperties: false }] *)
Definition closedObject : Schema :=
  mkSchema None None None None None None None None (Some "object") None
           None None None None None (Some (inl false)) None None None [].

(** ** Object members (C7) *)

(** A member emitted as required, [ "name": T ], or as optional,
    [ "name"?: T ]. *)
Definition requiredMember (name member : string) : Prop :=
  ∃ t, member = dq +:+ name +:+ dq +:+ ": " +:+ t.

Definition optionalMember (name member : string) : Prop :=
  ∃ t, member = dq +:+ name +:+ dq +:+ "?: " +:+ t.

(** [{ type: 'object', properties: { id: { type: 'integer' }, tag: { type:
       'string' } }, required: ['id'] }] *)
Definition petObject : Schema :=
  mkSchema None None None None None None None None (Some "object") None
           None None None
           (Some [("id", Some (scalar "integer")); ("tag", Some (scalar "string"))])
           (Some ["id"]) None None None None [].

(** ** Properties of computations *)

(** A property of computations that holds of [ret] and [throw] and is
    kept by [bind] holds of everything built from primitives that have
    it. *)
Class Structural (P : ∀ A, M A → Prop) : Prop := {
  structural_ret : ∀ A (a : A), P A (ret a);
  structural_throw : ∀ A e, P A (throw e);
  structural_bind : ∀ A B (m : M A) (k : A → M B),
    P A m → (∀ a, P B (k a)) → P B (bind m k);
}.

(** Relations every step of a computation respects. *)
Definition steps (R : State → State → Prop) A (m : M A) : Prop :=
  ∀ st, R st (m st).2.

(** The tables: the reserved identifiers and the reference table. *)
Definition sameTables (st1 st2 : State) : Prop :=
  createdTypeNames st1 = createdTypeNames st2 ∧ refMap st1 = refMap st2.

(** Computations whose result and tables depend on the tables only: the
    warnings shown so far and the console do not matter. *)
Definition oblivious A (m : M A) : Prop :=
  ∀ st1 st2, sameTables st1 st2 →
    (m st1).1 = (m st2).1 ∧ sameTables (m st1).2 (m st2).2.

(** ** Response groups (C6) *)

(** The schema of a media type compiles to [t], in the state [st]. *)
Definition compilesTo (st : State) (schema : option Schema) (t : string) : Prop :=
  ∃ s, schema = Some s ∧ (createType s st).1 = inr t.

(** What one response contributes to its group: the placeholder when it
    has no content, else one compiled type per media type. *)
Definition contribution (st : State) (placeholder : string) (r : Response)
    (types : list string) : Prop :=
  match content r with
  | None => types = [placeholder]
  | Some c => Forall2 (λ mediaType t, compilesTo st mediaType.2 t) c types
  end.

(** The union of a group, or the placeholder alone when the group
    contributed nothing. *)
Definition unionOrPlaceholder (placeholder : string) (types : list string) : string :=
  createTypeUnion (match types with [] => [placeholder] | _ => types end).

(** [{ '200': { content: { 'application/json': { schema: { type: 'string' } } } },
       '204': {}, '404': {}, default: { content: { 'application/json':
       { schema: { type: 'integer' } } } } }] *)
Definition petResponses : list (string * Response) :=
  [ ("200", mkResponse (Some [("application/json", Some (scalar "string"))]));
    ("204", mkResponse None);
    ("404", mkResponse None);
    ("default", mkResponse (Some [("application/json", Some (scalar "integer"))])) ].

(** ** Parameter groups (C5) *)

(** The last parameter of a list with a given location and name. *)
Definition lastParameter (location name : string) (l : list ParameterObject)
    : option ParameterObject :=
  last (filter (λ p, p_in p = location ∧ p_name p = name) l).

(** The schema a location's object type has under a name, if it has a
    member of that name. *)
Definition groupMember (groups : list (string * Schema)) (location name : string)
    : option (option Schema) :=
  match jsGet location groups with
  | Some group => jsGet name (default [] (properties group))
  | None => None
  end.

(** [{ name: 'id', in: 'path', schema: { type: 'string' } }] at the level
    of the path, and [{ name: 'id', in: 'path', schema: { type: 'integer' } }]
    at the level of the operation. *)
Definition pathLevelId : list ParameterObject :=
  [mkParameter "id" "path" None (Some (scalar "string"))].

Definition operationLevelId : list ParameterObject :=
  [mkParameter "id" "path" None (Some (scalar "integer"))].

(** Every location has one group, an object schema whose properties have
    distinct names. *)
Definition wellGrouped (groups : list (string * Schema)) : Prop :=
  NoDup groups.*1 ∧
  ∀ location group, (location, group) ∈ groups →
    ∃ required properties,
      group = parameterGroup required properties ∧ NoDup properties.*1.

(** ** Ignored keywords (C9) *)

Inductive IgnoredKeyword := Deprecated | Default | ReadOnly | WriteOnly | Xml.

Definition keywordName (k : IgnoredKeyword) : string :=
  match k with
  | Deprecated => "deprecated"
  | Default => "default"
  | ReadOnly => "readOnly"
  | WriteOnly => "writeOnly"
  | Xml => "xml"
  end.

(** The schema with one keyword removed. *)
Definition withoutKeyword (k : IgnoredKeyword) (s : Schema) : Schema :=
  mkSchema (ref s) (allOf s) (anyOf s) (not_ s) (oneOf s) (discriminator s)
           (match k with Deprecated => None | _ => deprecated s end)
           (match k with Default => None | _ => default_ s end)
           (type s) (enum_ s) (nullable s) (format s)
           (items s) (properties s) (required s) (additionalProperties s)
           (match k with ReadOnly => None | _ => readOnly s end)
           (match k with WriteOnly => None | _ => writeOnly s end)
           (match k with Xml => None | _ => xml s end)
           (otherKeys s).

(** The schema without [deprecated] and [default]. *)
Definition plain (s : Schema) : Schema :=
  withoutKeyword Default (withoutKeyword Deprecated s).

(** The test the code makes of a keyword. *)
Definition carries (k : IgnoredKeyword) (s : Schema) : bool :=
  match k with
  | Deprecated => truthyBool (deprecated s)
  | Default => truthyValue (default_ s)
  | ReadOnly => truthyBool (readOnly s)
  | WriteOnly => truthyBool (writeOnly s)
  | Xml => bool_decide (is_Some (xml s))
  end.

(** The console holds the warnings of the keywords recorded as shown, one
    line each. *)
Definition warningsConsistent (st : State) : Prop :=
  NoDup (console st) ∧
  ∀ line, line ∈ console st ↔ ∃ key, key ∈ shownWarnings st ∧ line = warningMessage key.

Definition warningsGrow (st st' : State) : Prop :=
  (warningsConsistent st → warningsConsistent st') ∧
  shownWarnings st ⊆ shownWarnings st'.

(** The warning for a keyword has been printed. *)
Definition warned (key : string) (st : State) : Prop :=
  key ∈ shownWarnings st ∧ warningMessage key ∈ console st.

(** The number of warnings printed for a keyword. *)
Definition warningCount (key : string) (st : State) : nat :=
  length (filter (λ line, line = warningMessage key) (console st)).

(** ** Closed runs

    On a name made of letters in which no two capitals are adjacent (pet,
    Pet, petRequestBody, GetPets) lodash's [camelCase] lower-cases the
    first letter and changes nothing else. The closed examples use such
    names only, and [lowerFirst] for [camelCase]. *)

Definition toLowerCase (c : ascii) : ascii :=
  let n := nat_of_ascii c in
  if ((65 <=? n) && (n <=? 90))%nat then ascii_of_nat (n + 32) else c.

Definition lowerFirst (str : string) : string :=
  match str with
  | EmptyString => ""
  | String c rest => String (toLowerCase c) rest
  end.

(** The default preprocessing (with a converter that is never called on
    a version 3 document) and validation, hooks that return a fixed line
    each, and a formatter that returns the text as it is. *)
Definition plainHooks : Hooks :=
  mkHooks (defaultPreProcess inr) defaultValidate
          (λ _, inr "/* imports */") (λ _ _, inr "/* request */")
          (λ e, inr ("/* " +:+ e_operationName e +:+ " */")) inr.

Definition petInfo : Info := mkInfo (Some "Pets") None None None None (Some "1").

(** [{ type: 'string', readOnly: true }] *)
Definition readOnlyString : Schema :=
  mkSchema None None None None None None None None (Some "string") None
           None None None None None None (Some true) None None [].

(** A document whose only schema, [pet], is [readOnlyString]. *)
Definition readOnlyDocument : Document :=
  mkDocument (Some "3.0.3") None petInfo
    (Some (mkComponents (Some [("pet", readOnlyString)]) None None None)) [].

(** [{ type: 'string', deprecated: true, default: 'x' }] *)
Definition deprecatedString : Schema :=
  mkSchema None None None None None None (Some true) (Some (VLit (LStr "x")))
           (Some "string") None
           None None None None None None None None None [].

(** ** Reservations (C8, C2) *)

(** The operations the assembler handles: those under a recognized
    method. *)
Definition recognized (item : PathItem) : list (string * Operation) :=
  filter (λ entry, bool_decide (entry.1 ∈ HTTP_METHODS)) (operations item).

(** The names of the operations of a document, in document order. *)
Definition operationNames (doc : Document) : list string :=
  concat (map (λ pathEntry,
                 map (λ entry, opNameOf pathEntry.1 entry.1 entry.2)
                     (recognized pathEntry.2))
              (paths doc)).

Definition schemaNames (doc : Document) : list string :=
  default [] (map fst <$> (components doc ≫= schemas)).

Definition requestBodyNames (doc : Document) : list string :=
  default [] (map fst <$> (components doc ≫= requestBodies)).

(** The identifiers a run on [doc] asks the registry for, in order:
    those of the component schemas, of the component request bodies, and
    of the operations. *)
Definition reservations (camelCase : string → string) (doc : Document) : list string :=
  map (λ name, createTypeIdentifier camelCase name "") (schemaNames doc)
  ++ map (λ name, createTypeIdentifier camelCase name "RequestBody") (requestBodyNames doc)
  ++ map (λ name, createTypeIdentifier camelCase name "") (operationNames doc).

(** A computation that, when it returns, has reserved exactly [ids], all
    of them new and no two alike. *)
Definition reserves {A} (ids : list string) (m : M A) : Prop :=
  ∀ st a st', m st = (inr a, st') →
    NoDup ids
    ∧ (∀ id, id ∈ ids → id ∉ createdTypeNames st)
    ∧ createdTypeNames st' = list_to_set ids ∪ createdTypeNames st.

Definition sameRegistry (st st' : State) : Prop :=
  createdTypeNames st' = createdTypeNames st.

(** A document with a schema [pet] and an operation [getPets]. *)
Definition petDocument : Document :=
  mkDocument (Some "3.0.3") None petInfo
    (Some (mkComponents (Some [("pet", scalar "string")]) None None None))
    [("/pets",
      mkPathItem None None None None None
        [("get", mkOperation None None (Some "getPets") None None None)])].

(** The same, with a second operation of the same [operationId]. *)
Definition twoGetPets : Document :=
  mkDocument (Some "3.0.3") None petInfo
    (Some (mkComponents (Some [("pet", scalar "string")]) None None None))
    [("/pets",
      mkPathItem None None None None None
        [("get", mkOperation None None (Some "getPets") None None None);
         ("post", mkOperation None None (Some "getPets") None None None)])].

(** ** The reference table (C2, C1) *)

(** The pairs [buildRefMap] records for one kind of component. *)
Definition refEntries (camelCase : string → string) (entry : string * list string)
    : list (string * string) :=
  map (λ refName, ("#/components/" +:+ entry.1 +:+ "/" +:+ refName,
                   createTypeIdentifier camelCase refName ""))
      entry.2.

(** The kinds of components [buildRefMap] goes through. *)
Definition componentKinds : list string :=
  ["schemas"; "parameters"; "requestBodies"; "responses"].

Definition recordAll (m : gmap string string) (l : list (string * string))
    : gmap string string :=
  foldl (λ m w, <[w.1 := w.2]> m) m l.

(** A document with two schemas, [pet] and [Pet]. *)
Definition twoPets : Document :=
  mkDocument (Some "3.0.3") None petInfo
    (Some (mkComponents (Some [("pet", scalar "string"); ("Pet", scalar "integer")])
             None None None))
    [].

(** A document with a component request body [pet] and an operation
    [addPet] whose request body is a reference to it:
    [{ components: { requestBodies: { pet: { content: { 'application/json':
       { schema: { type: 'string' } } } } } },
       paths: { '/pets': { post: { operationId: 'addPet',
         requestBody: { $ref: '#/components/requestBodies/pet' } } } } }] *)
Definition addPetDocument : Document :=
  mkDocument (Some "3.0.3") None petInfo
    (Some (mkComponents None None
             (Some [("pet", WithContent [("application/json", Some (scalar "string"))])])
             None))
    [("/pets",
      mkPathItem None None None None None
        [("post",
          mkOperation None None (Some "addPet") None
            (Some (WithoutContent (reference "#/components/requestBodies/pet")))
            None)])].

(** [{ deprecated: true }] *)
Definition deprecatedOnly : Schema :=
  mkSchema None None None None None None (Some true) None None None
           None None None None None None None None None [].


(** ** The operations of a document (C5, C6) *)

(** Computations whose result and reference table depend on the reference
    table only: the registry, the warnings and the console do not matter. *)
Definition readsReferences A (m : M A) : Prop :=
  ∀ st1 st2, refMap st1 = refMap st2 →
    (m st1).1 = (m st2).1 ∧ refMap (m st1).2 = refMap (m st2).2.

(** States with the same reference table. *)
Definition sameReferences (st1 st2 : State) : Prop := refMap st1 = refMap st2.

(** No group has a property named [__proto__]. *)
Definition noProto (groups : list (string * Schema)) : Prop :=
  ∀ location group, (location, group) ∈ groups →
    "__proto__" ∉ (default [] (properties group)).*1.

(** [member] is the member of an object type for the property [name],
    required or optional, typed by what [schema] compiles to in [st]. *)
Definition memberTyped (st : State) (name : string) (schema : option Schema)
    (member : string) : Prop :=
  ∃ s t, schema = Some s ∧ (createType s st).1 = inr t
         ∧ (member = dq +:+ name +:+ dq +:+ ": " +:+ t
            ∨ member = dq +:+ name +:+ dq +:+ "?: " +:+ t).

(** The object type of a location: one member for each property of the
    group, typed by the schema of the last of [allParameters] with that
    location and name. *)
Definition locationType (st : State) (allParameters : list ParameterObject)
    (group : string * Schema) (text : string) : Prop :=
  ∃ members,
    text = join newline ["{"; join "," members; "}"]
    ∧ Forall2 (λ property member,
                 ∃ p, lastParameter group.1 property.1 allParameters = Some p
                      ∧ memberTyped st property.1 (p_schema p) member)
              (default [] (properties group.2)) members.

(** A document whose path [/pets/{id}] declares the parameter [id] as a
    string, and whose operation [getPet] declares it again as an integer. *)
Definition getPet : Operation :=
  mkOperation None None (Some "getPet") (Some operationLevelId) None None.

Definition getPetItem : PathItem :=
  mkPathItem None None None None (Some pathLevelId) [("get", getPet)].

Definition getPetDocument : Document :=
  mkDocument (Some "3.0.3") None petInfo None [("/pets/{id}", getPetItem)].

(** What the paths of [getPetDocument] push. *)
Definition getPetStatements : list string :=
  [ createNamespace "GetPet"
      [ createTypeAlias "PathParameters"
          (join newline ["{"; dq +:+ "id" +:+ dq +:+ ": number"; "}"]) ];
    "/* getPet */" ].

(** A document with an operation [listPets] whose responses are
    [petResponses]. *)
Definition listPets : Operation :=
  mkOperation None None (Some "listPets") None None (Some petResponses).

Definition listPetsItem : PathItem :=
  mkPathItem None None None None None [("get", listPets)].

Definition listPetsDocument : Document :=
  mkDocument (Some "3.0.3") None petInfo None [("/pets", listPetsItem)].

(** What the paths of [listPetsDocument] push. *)
Definition listPetsStatements : list string :=
  [ createNamespace "ListPets"
      [ createNamespace "Response"
          [ createTypeAlias "Success" "string | void";
            createTypeAlias "Error" "unknown | number" ] ];
    "/* listPets */" ].
(** * Further statements

    The vocabulary of the further properties of the compiler. *)

(** ** Scalars and nullability *)

Definition primitiveTypes : list string := ["boolean"; "integer"; "number"; "string"].

(** The schema's [type] is one of the four primitive types. *)
Definition hasPrimitiveType (s : Schema) : Prop :=
  type s ∈ Some <$> primitiveTypes.

(** The schema with its [nullable] replaced. *)
Definition withNullable (n : option bool) (s : Schema) : Schema :=
  mkSchema (ref s) (allOf s) (anyOf s) (not_ s) (oneOf s) (discriminator s)
           (deprecated s) (default_ s) (type s) (enum_ s) n (format s)
           (items s) (properties s) (required s) (additionalProperties s)
           (readOnly s) (writeOnly s) (xml s) (otherKeys s).

(** A result with the [null] member appended to the type. *)
Definition orNull (r : (Error + string) * State) : (Error + string) * State :=
  match r with
  | (inr t, st) => (inr (t +:+ " | null"), st)
  | (inl e, st) => (inl e, st)
  end.

(** The schema without [additionalProperties]. *)
Definition withoutAdditionalProperties (s : Schema) : Schema :=
  mkSchema (ref s) (allOf s) (anyOf s) (not_ s) (oneOf s) (discriminator s)
           (deprecated s) (default_ s) (type s) (enum_ s) (nullable s) (format s)
           (items s) (properties s) (required s) None
           (readOnly s) (writeOnly s) (xml s) (otherKeys s).

(** [{ type: 'integer', nullable: true }] *)
Definition nullableInteger : Schema :=
  mkSchema None None None None None None None None (Some "integer") None
           (Some true) None None None None None None None None [].

(** ** References *)

(** The paths of the components a document declares. *)
Definition componentPaths (doc : Document) : list string :=
  match components doc with
  | None => []
  | Some declared =>
      concat (map (λ entry,
                     map (λ refName, "#/components/" +:+ entry.1 +:+ "/" +:+ refName)
                         entry.2)
                  (componentKeys declared))
  end.

(** A document with a schema [pet] and a schema [owner] that refers to it. *)
Definition ownerDocument : Document :=
  mkDocument (Some "3.0.3") None petInfo
    (Some (mkComponents
             (Some [("pet", scalar "string");
                    ("owner", reference "#/components/schemas/pet")])
             None None None))
    [].

(** ** Whole documents *)

(** What the generator refuses: components of the kinds [parameters] and
    [responses], and a path item with a [$ref] or with [servers]. *)
Definition unsupported (doc : Document) : Prop :=
  is_Some (components doc ≫= componentParameters)
  ∨ is_Some (components doc ≫= componentResponses)
  ∨ ∃ path item, (path, item) ∈ paths doc
      ∧ (truthyString (pathRef item) = true ∨ is_Some (pathServers item)).

(** A document whose only path item has a list of servers, an empty one. *)
Definition withServers : Document :=
  mkDocument (Some "3.0.3") None petInfo None
    [("/pets", mkPathItem None None None (Some []) None [])].

(** The component schemas of a document, in order. *)
Definition schemaEntries (doc : Document) : list (string * Schema) :=
  default [] (components doc ≫= schemas).

(** The component request bodies of a document, in order. *)
Definition requestBodyEntries (doc : Document) : list (string * RequestBody) :=
  default [] (components doc ≫= requestBodies).



(** ** Parameters *)

(** The names the group of a location lists as required. *)
Definition groupRequired (groups : list (string * Schema)) (location : string)
    : list string :=
  default [] (jsGet location groups ≫= required).

(** The names of the parameters of a location that are not declared with
    [required: false], in the order of the declarations. *)
Definition declaredRequired (location : string) (l : list ParameterObject)
    : list string :=
  map p_name (filter (λ p, p_in p = location ∧ p_required p ≠ Some false) l).

(** [{ name: 'id', in: 'path', required: true }] at the level of the path
    and [{ name: 'id', in: 'path', required: false }] at the level of the
    operation, both with the schema [{ type: 'string' }]. *)
Definition requiredThenOptional : list ParameterObject :=
  [ mkParameter "id" "path" (Some true) (Some (scalar "string"));
    mkParameter "id" "path" (Some false) (Some (scalar "string")) ].

(** ** Operations *)

(** An operation [updatePet] with a parameter in the path and a request
    body with two media types. *)
Definition updatePet : Operation :=
  mkOperation None None (Some "updatePet")
    (Some [mkParameter "id" "path" (Some true) (Some (scalar "integer"))])
    (Some (WithContent [("application/json", Some (scalar "string"));
                        ("text/plain", Some (scalar "integer"))]))
    None.

(** What [updatePet] pushes to the endpoints, under [/pets/{id}] and
    [put]. *)
Definition updatePetStatements : list string :=
  [ createNamespace "UpdatePet"
      [ createTypeAlias "PathParameters"
          (join newline ["{"; dq +:+ "id" +:+ dq +:+ ": number"; "}"]);
        createTypeAlias "RequestBody" "string | number" ];
    "/* updatePet */" ].

(** ** Identifiers *)

(** The letters [a] to [z]. *)
Definition isLowerCase (c : ascii) : bool :=
  let n := nat_of_ascii c in ((97 <=? n) && (n <=? 122))%nat.

(** The characters of ASCII, those below 128. *)
Definition isAsciiChar (c : ascii) : bool := (nat_of_ascii c <? 128)%nat.

(** ** Rejected documents *)

(** A document is of version 3 when its [openapi] is a string that starts
    with [3]. *)
Definition isVersion3 (doc : Document) : Prop :=
  ∃ v, openapi doc = Some v ∧ startsWith v "3" = true.

(** A document without [openapi] and without [swagger]. *)
Definition unversioned : Document := mkDocument None None petInfo None [].

(** * Properties *)

(** ** Running the monad *)

Lemma bind_inr {A B} (m : M A) (k : A → M B) st b st'' :
  bind m k st = (inr b, st'') ↔
  ∃ a st', m st = (inr a, st') ∧ k a st' = (inr b, st'').
Proof.
  unfold bind. destruct (m st) as [[e|a] st'] eqn:E; split.
  - discriminate.
  - intros (a & st1 & H & _). discriminate.
  - eauto.
  - intros (a' & st1 & H & Hk). by simplify_eq.
Qed.

Lemma bind_inl {A B} (m : M A) (k : A → M B) st e st'' :
  bind m k st = (inl e, st'') ↔
  m st = (inl e, st'') ∨ ∃ a st', m st = (inr a, st') ∧ k a st' = (inl e, st'').
Proof.
  unfold bind. destruct (m st) as [[e'|a] st'] eqn:E; split.
  - intros; left; by simplify_eq.
  - intros [H|(a & st1 & H & _)]; by simplify_eq.
  - eauto.
  - intros [H|(a' & st1 & H & Hk)]; by simplify_eq.
Qed.

Lemma mapM_cons {A B} (f : A → M B) x l :
  mapM f (x :: l) = (let* y := f x in let* ys := mapM f l in ret (y :: ys)).
Proof. reflexivity. Qed.

Lemma mapM_app {A B} (f : A → M B) l1 l2 st :
  mapM f (l1 ++ l2) st =
  (let* ys1 := mapM f l1 in let* ys2 := mapM f l2 in ret (ys1 ++ ys2)) st.
Proof.
  revert st. induction l1 as [|x l1 IH]; intros st.
  - cbn. unfold bind, ret. by destruct (mapM f l2 st) as [[?|?] ?].
  - rewrite <- app_comm_cons, !mapM_cons. unfold bind at 1 3 4.
    destruct (f x st) as [[e|y] st1]; [done|].
    unfold bind at 1. rewrite IH. unfold bind, ret.
    destruct (mapM f l1 st1) as [[?|?] ?]; [done|].
    by destruct (mapM f l2 s) as [[?|?] ?].
Qed.

(** A successful traversal compiled every element, each in the state its
    predecessors left. *)
Lemma mapM_inr_length {A B} (f : A → M B) l st ys st' :
  mapM f l st = (inr ys, st') → length ys = length l.
Proof.
  revert st ys. induction l as [|x l IH]; intros st ys.
  - cbn. unfold ret. intros; by simplify_eq.
  - rewrite mapM_cons. intros (y & st1 & _ & H)%bind_inr.
    apply bind_inr in H as (ys' & st2 & H & Hr). unfold ret in Hr. simplify_eq.
    cbn. f_equal. eauto.
Qed.

(** ** Properties of computations that follow their structure *)

Section structural.
Context (P : ∀ A, M A → Prop) `{!Structural P}.

Lemma structural_lift {A} (r : Error + A) : P A (lift r).
Proof. destruct r; [apply (structural_throw A e)|apply (structural_ret A a)]. Qed.

Lemma structural_when b m : P unit m → P unit (when b m).
Proof. destruct b; [done|]. intros _. apply structural_ret. Qed.

Lemma structural_mapM {A B} (f : A → M B) l :
  Forall (λ x, P B (f x)) l → P (list B) (mapM f l).
Proof.
  induction 1 as [|x l Hx _ IH]; [apply structural_ret|].
  rewrite mapM_cons. apply structural_bind; [done|]. intros y.
  apply structural_bind; [done|]. intros ys. apply structural_ret.
Qed.
End structural.

(** A structure lemma applied, with its [Structural] instance found. *)
Ltac sapply lem := apply lem; try (solve [typeclasses eauto]).

Ltac structural :=
  repeat first
    [ assumption
    | match goal with
      | |- _ _ (ret _) => apply structural_ret
      | |- _ _ (throw _) => apply structural_throw
      | |- _ _ (lift _) => apply structural_lift
      | |- _ _ (when _ _) => apply structural_when
      | |- _ _ (bind _ _) => apply structural_bind; [|intros ?]
      | |- _ _ (match ?x with _ => _ end) => destruct x eqn:?
      | |- _ _ (if ?b then _ else _) => destruct b eqn:?
      end ].

#[local] Instance steps_structural R `{!PreOrder R} : Structural (steps R).
Proof.
  split.
  - intros A a st. reflexivity.
  - intros A e st. reflexivity.
  - intros A B m k Hm Hk st. unfold bind. specialize (Hm st).
    destruct (m st) as [[e|a] st']; [done|].
    etrans; [exact Hm|apply Hk].
Qed.

#[local] Instance sameTables_equivalence : Equivalence sameTables.
Proof.
  split.
  - by intros st.
  - intros st1 st2 [H1 H2]. by split.
  - intros st1 st2 st3 [H1 H2] [H3 H4]. split; congruence.
Qed.

#[local] Instance oblivious_structural : Structural oblivious.
Proof.
  split.
  - by intros A a st1 st2 H.
  - by intros A e st1 st2 H.
  - intros A B m k Hm Hk st1 st2 H. unfold bind.
    destruct (Hm st1 st2 H) as [Hr Hst].
    destruct (m st1) as [[e1|a1] st1'], (m st2) as [[e2|a2] st2'];
      cbn in Hr, Hst; simplify_eq; [done|].
    by apply Hk.
Qed.

(** ** Induction over schemas *)

Lemma list_all_Forall {A} (P : A → Prop) l : list_all A P l → Forall P l.
Proof. induction 1; constructor; assumption. Qed.

Lemma Schema_induction (P : Schema → Prop) :
  (∀ s,
     (∀ l, allOf s = Some l → Forall P l) →
     (∀ l, anyOf s = Some l → Forall P l) →
     (∀ l, oneOf s = Some l → Forall P l) →
     (∀ i, items s = Some i → P i) →
     (∀ ps, properties s = Some ps → Forall (λ p, ∀ x, p.2 = Some x → P x) ps) →
     (∀ a, additionalProperties s = Some (inr a) → P a) →
     P s) →
  ∀ s, P s.
Proof.
  intros IH. induction s as [? ? HallOf ? HanyOf ? _ ? HoneOf ? ? ? ? ? ? ? ? Hitems
                             ? Hprops ? ? Hap ? ? ? ?].
  apply IH; cbn.
  - intros l ->. inversion HallOf; subst. by apply list_all_Forall.
  - intros l ->. inversion HanyOf; subst. by apply list_all_Forall.
  - intros l ->. inversion HoneOf; subst. by apply list_all_Forall.
  - intros i ->. by inversion Hitems.
  - intros ps ->. inversion Hprops as [? Hps|]; subst. clear -Hps.
    induction Hps as [|[name x] Hx l _ IHl]; constructor; [|done].
    cbn. intros x' ->. inversion Hx as [? _ ? Hx']; subst. by inversion Hx'.
  - intros a ->. inversion Hap as [? Ha|]; subst. by inversion Ha.
Qed.

Lemma warn_inr (key : string) (st : State) : (warn key st).1 = inr tt.
Proof. unfold warn. by case_decide. Qed.

Lemma when_warn_inr (b : bool) (key : string) (st : State) :
  (when b (warn key) st).1 = inr tt.
Proof. destruct b; [apply warn_inr|done]. Qed.

(** ** The schema compiler, step by step *)

Lemma createType_eq (s : Schema) :
  createType s =
    beforeSwitch s
      (do when (truthyBool (deprecated s)) (warn "deprecated") then
       do when (truthyValue (default_ s)) (warn "default") then
       switchOnType s).
Proof. destruct s; reflexivity. Qed.

Section createType_structural.
Context (P : ∀ A, M A → Prop) `{!Structural P}.
Hypothesis P_warn : ∀ key, P unit (warn key).
Hypothesis P_getTypeNameFromRef : ∀ s, P string (getTypeNameFromRef s).

Lemma createScalarType_structural s : P string (createScalarType s).
Proof. unfold createScalarType, createEnumType. structural. Qed.

(** The [switch] has what the compilation of the nested schemas has. *)
Lemma switchOnType_structural_nested s :
  (∀ i, items s = Some i → P string (createType i)) →
  (∀ ps, properties s = Some ps →
         Forall (λ p, ∀ x, p.2 = Some x → P string (createType x)) ps) →
  (∀ a, additionalProperties s = Some (inr a) → P string (createType a)) →
  P string (switchOnType s).
Proof.
  intros Hitems Hprops Hap. unfold switchOnType.
  destruct (typeIs s "array").
  { unfold createArrayType, createArrayType_.
    destruct (items s) as [i|]; [specialize (Hitems i eq_refl)|]; structural. }
  destruct (typeIs s "object"); [|apply createScalarType_structural].
  unfold createObjectType, createObjectType_.
  apply structural_bind.
  { destruct (properties s) as [ps|]; [specialize (Hprops ps eq_refl)|apply structural_ret].
    apply structural_mapM; [done|]. eapply Forall_impl; [exact Hprops|]. cbn.
    intros [name [x|]] Hx; cbn; [|apply structural_throw].
    specialize (Hx x eq_refl). structural; apply P_warn. }
  intros members.
  destruct (additionalProperties s) as [[b|a]|]; [| specialize (Hap a eq_refl) |];
    structural.
Qed.

(** What the warnings and the reference lookup have, the whole
    compilation of a schema has: nothing else touches the state. *)
Lemma createType_structural s : P string (createType s).
Proof.
  induction s as [s HallOf HanyOf HoneOf Hitems Hprops Hap] using Schema_induction.
  rewrite createType_eq. unfold beforeSwitch, intersectionOf, unionOf.
  destruct (isRef s); [apply P_getTypeNameFromRef|].
  destruct (allOf s) as [l|]; [specialize (HallOf l eq_refl)|clear HallOf].
  { structural. by apply structural_mapM. }
  destruct (anyOf s) as [l|]; [specialize (HanyOf l eq_refl)|clear HanyOf].
  { structural. by apply structural_mapM. }
  destruct (not_ s); [apply structural_throw|].
  destruct (oneOf s) as [l|]; [specialize (HoneOf l eq_refl)|clear HoneOf].
  { structural. by apply structural_mapM. }
  destruct (discriminator s); [apply structural_throw|].
  apply structural_bind; [by apply structural_when|intros _].
  apply structural_bind; [by apply structural_when|intros _].
  by apply switchOnType_structural_nested.
Qed.

Lemma switchOnType_structural s : P string (switchOnType s).
Proof.
  apply switchOnType_structural_nested.
  - intros. apply createType_structural.
  - intros. apply Forall_forall. intros. apply createType_structural.
  - intros. apply createType_structural.
Qed.

Lemma createTypeOf_structural o : P string (createTypeOf o).
Proof. destruct o; [apply createType_structural|apply structural_throw]. Qed.

Lemma createResponseGroup_structural selected placeholder rs :
  P _ (createResponseGroup selected placeholder rs).
Proof.
  unfold createResponseGroup. structural.
  apply structural_mapM; [done|]. apply Forall_forall. intros entry _.
  structural. apply structural_mapM; [done|]. apply Forall_forall. intros mediaType _.
  apply createTypeOf_structural.
Qed.

Lemma createResponseTypes_structural rs : P _ (createResponseTypes rs).
Proof.
  unfold createResponseTypes.
  apply structural_bind; [apply createResponseGroup_structural|intros ?].
  apply structural_bind; [apply createResponseGroup_structural|intros ?].
  apply structural_ret.
Qed.
End createType_structural.

Lemma warn_sameTables key : steps sameTables _ (warn key).
Proof. intros st. unfold warn. by case_decide. Qed.

Lemma getTypeNameFromRef_steps R `{!Reflexive R} s : steps R _ (getTypeNameFromRef s).
Proof.
  intros st. unfold getTypeNameFromRef.
  destruct (ref s); [destruct (refMap st !! _)|]; reflexivity.
Qed.

(** Compiling a schema leaves the registry and the reference table as they
    are. *)
Lemma createType_sameTables s : steps sameTables _ (createType s).
Proof.
  apply createType_structural;
    [apply _|apply warn_sameTables|intros; apply getTypeNameFromRef_steps, _].
Qed.

Lemma warn_oblivious key : oblivious _ (warn key).
Proof.
  intros st1 st2 H. split; [by rewrite !warn_inr|].
  unfold warn. by do 2 case_decide.
Qed.

Lemma getTypeNameFromRef_oblivious s : oblivious _ (getTypeNameFromRef s).
Proof.
  intros st1 st2 [H1 H2]. unfold getTypeNameFromRef. rewrite H2.
  destruct (ref s); [destruct (refMap st2 !! _)|]; by split.
Qed.

(** The type a schema compiles to, or the error, depends on the reference
    table only. *)
Lemma createType_oblivious s : oblivious _ (createType s).
Proof.
  apply createType_structural;
    [apply _|apply warn_oblivious|apply getTypeNameFromRef_oblivious].
Qed.

(** ** The decision order of the schema compiler *)

(** C3, as the code has it: [createType] tests, in this order, a reference,
    [allOf], [anyOf], [not], [oneOf] and [discriminator]. A schema with
    [anyOf] compiles to the OR-join of its members whatever else it carries;
    a schema with [oneOf] does so even with a [discriminator], but [not] is
    refused before [oneOf] is looked at. *)
Theorem C3_decision_order (s : Schema) :
  (isRef s = true → createType s = getTypeNameFromRef s) ∧
  (isRef s = false →
     (∀ l, allOf s = Some l → createType s = intersectionOf l) ∧
     (allOf s = None →
        (∀ l, anyOf s = Some l → createType s = unionOf l) ∧
        (anyOf s = None →
           (is_Some (not_ s) → createType s = throw (NotImplemented "not")) ∧
           (not_ s = None →
              (∀ l, oneOf s = Some l → createType s = unionOf l) ∧
              (oneOf s = None → is_Some (discriminator s) →
                 createType s = throw (NotImplemented "discriminator")))))).
Proof.
  destruct s; unfold isRef; cbn [ref allOf anyOf not_ oneOf discriminator].
  split; [intros H; cbn; unfold isRef; cbn; by rewrite H|].
  intros Href. split; [intros l ->; cbn; unfold isRef; cbn; by rewrite Href|].
  intros ->. split; [intros l ->; cbn; unfold isRef; cbn; by rewrite Href|].
  intros ->. split; [intros [n ->]; cbn; unfold isRef; cbn; by rewrite Href|].
  intros ->. split; [intros l ->; cbn; unfold isRef; cbn; by rewrite Href|].
  intros -> [d ->]; cbn; unfold isRef; cbn; by rewrite Href.
Qed.

Lemma C3_decision_order_witness :
  createType anyOfWithNot = unionOf [scalar "string"; scalar "integer"]
  ∧ createType anyOfWithNot freshState = (inr "string | number", freshState).
Proof.
  split; [|reflexivity].
  refine (proj1 (proj2 (proj2 (C3_decision_order anyOfWithNot) _) _) _ _);
    reflexivity.
Defined.

(** C3 as stated fails: with [oneOf] and [not] together the schema is
    refused, although its members compile. *)
Lemma C3_counterexample :
  createType oneOfWithNot freshState = (inl (NotImplemented "not"), freshState)
  ∧ unionOf [scalar "string"] freshState = (inr "string", freshState).
Proof. split; reflexivity. Qed.

(** Past the composition keywords, [createType] warns about [deprecated]
    and [default] and dispatches on [type]. *)
Lemma createType_reachesSwitch (s : Schema) :
  reachesSwitch s →
  createType s =
    (do when (truthyBool (deprecated s)) (warn "deprecated") then
     do when (truthyValue (default_ s)) (warn "default") then
     switchOnType s).
Proof.
  intros (Href & HallOf & HanyOf & Hnot & HoneOf & Hdisc).
  destruct s; cbn in *; subst. unfold isRef in *; cbn in *. by rewrite Href.
Qed.

(** ** Objects and dictionaries *)

(** C10: without declared properties, [additionalProperties: false] gives
    the unconstrained dictionary, exactly as [true] and [{}] do; a nullable
    schema gets its [null] member as everywhere else. The same holds when
    the schema comes through [createType]. *)
Theorem C10_additionalProperties_false (s : Schema) (st : State) :
  noDeclaredProperties s →
  additionalProperties s = Some (inl false) →
  createObjectType s st = (inr (nullableType s "Record<string, unknown>"), st)
  ∧ createObjectType (withAdditionalProperties (inl true) s) st = createObjectType s st
  ∧ createObjectType (withAdditionalProperties (inr emptySchema) s) st
    = createObjectType s st
  ∧ (reachesSwitch s → typeIs s "object" = true →
     (createType s st).1 = inr (nullableType s "Record<string, unknown>")).
Proof.
  intros Hprops Hap.
  assert (Hobj : ∀ st, createObjectType s st
                       = (inr (nullableType s "Record<string, unknown>"), st)).
  { intros st1. unfold createObjectType, createObjectType_. rewrite Hap.
    by destruct Hprops as [-> | ->]. }
  split; [apply Hobj|]. split; [|split].
  - rewrite Hobj. unfold createObjectType, createObjectType_. cbn.
    by destruct Hprops as [-> | ->].
  - rewrite Hobj. unfold createObjectType, createObjectType_. cbn.
    by destruct Hprops as [-> | ->].
  - intros Hswitch Htype. rewrite (createType_reachesSwitch s Hswitch).
    unfold switchOnType. rewrite Htype.
    assert (typeIs s "array" = false) as ->.
    { unfold typeIs in *. apply bool_decide_eq_true in Htype.
      apply bool_decide_eq_false. by rewrite Htype. }
    unfold bind.
    pose proof (when_warn_inr (truthyBool (deprecated s)) "deprecated" st) as H1.
    destruct (when _ _ st) as [r1 st1]; cbn in H1; subst r1.
    pose proof (when_warn_inr (truthyValue (default_ s)) "default" st1) as H2.
    destruct (when _ _ st1) as [r2 st2]; cbn in H2; subst r2.
    by rewrite Hobj.
Qed.

Lemma C10_additionalProperties_false_witness :
  createObjectType closedObject freshState = (inr "Record<string, unknown>", freshState).
Proof.
  refine (proj1 (C10_additionalProperties_false closedObject freshState _ _));
    [by left|reflexivity].
Defined.

(** Appending to a common prefix is injective. *)
Lemma append_inj_l (p a b : string) : p +:+ a = p +:+ b → a = b.
Proof. induction p as [|c p IH]; cbn; [done|]. intros [=]. auto. Qed.

Lemma requiredMember_not_optional (name member : string) :
  requiredMember name member → optionalMember name member → False.
Proof.
  intros [t ->] [t' H]. do 3 apply append_inj_l in H. discriminate.
Qed.

(** What [createObjectTypeProperty] returns when it returns. *)
Lemma createObjectTypeProperty_inr name schema required st member st' :
  createObjectTypeProperty name schema required st = (inr member, st') →
  ∃ t, member = dq +:+ name +:+ dq +:+ (if required then "" else "?") +:+ ": " +:+ t.
Proof.
  unfold createObjectTypeProperty, createObjectTypeProperty_.
  destruct schema as [schema|]; [|done].
  intros (_ & ? & _ & (_ & ? & _ & (_ & ? & _ & (t & ? & _ & H)%bind_inr)%bind_inr)%bind_inr)%bind_inr.
  unfold ret in H. exists t. by simplify_eq.
Qed.

Lemma createObjectTypeProperty_member name schema (requiredNames : list string) st member st' :
  createObjectTypeProperty name schema (bool_decide (name ∈ requiredNames)) st
    = (inr member, st') →
  (requiredMember name member ↔ name ∈ requiredNames) ∧
  (optionalMember name member ↔ name ∉ requiredNames).
Proof.
  intros [t ->]%createObjectTypeProperty_inr.
  case_bool_decide as Hin.
  - assert (Hreq : requiredMember name (dq +:+ name +:+ dq +:+ "" +:+ ": " +:+ t))
      by by exists t.
    split; split; try done.
    intros Hopt. destruct (requiredMember_not_optional _ _ Hreq Hopt).
  - assert (Hopt : optionalMember name (dq +:+ name +:+ dq +:+ "?" +:+ ": " +:+ t))
      by by exists t.
    split; split; try done.
    intros Hreq. destruct (requiredMember_not_optional _ _ Hreq Hopt).
Qed.

Lemma mapM_properties_members (requiredNames : list string) ps st members st' :
  mapM (λ p, createObjectTypeProperty p.1 p.2 (bool_decide (p.1 ∈ requiredNames))) ps st
    = (inr members, st') →
  Forall2 (λ p member,
             (requiredMember p.1 member ↔ p.1 ∈ requiredNames) ∧
             (optionalMember p.1 member ↔ p.1 ∉ requiredNames)) ps members.
Proof.
  revert st members. induction ps as [|p ps IH]; intros st members.
  - cbn. unfold ret. intros; simplify_eq. constructor.
  - rewrite mapM_cons.
    intros (member & st1 & Hp & (ms & st2 & Hps & H)%bind_inr)%bind_inr.
    unfold ret in H. simplify_eq. constructor; [|by eapply IH].
    by eapply createObjectTypeProperty_member.
Qed.

(** C7: in the object type of a schema with declared properties there is
    one member per property, in order; it has the required form exactly
    when its name is in the [required] list and the optional form exactly
    when it is not, so that without a [required] list every member is
    optional. The members are followed by an index signature when the
    schema has [additionalProperties]. *)
Theorem C7_required_properties (s : Schema) ps (st : State) text st' :
  properties s = Some ps → ps ≠ [] →
  createObjectType s st = (inr text, st') →
  ∃ members index,
    text = nullableType s (join newline ["{"; join "," (members ++ index); "}"])
    ∧ (additionalProperties s = None → index = [])
    ∧ (length index ≤ 1)%nat
    ∧ Forall2 (λ p member,
                 (requiredMember p.1 member ↔ p.1 ∈ default [] (required s)) ∧
                 (optionalMember p.1 member ↔ p.1 ∉ default [] (required s)))
              ps members
    ∧ (required s = None → Forall2 (λ p member, optionalMember p.1 member) ps members).
Proof.
  intros Hps Hne. unfold createObjectType, createObjectType_. rewrite Hps.
  intros (members & st1 & Hmembers & H)%bind_inr.
  fold createObjectTypeProperty in Hmembers.
  pose proof (mapM_inr_length _ _ _ _ _ Hmembers) as Hlen.
  apply mapM_properties_members in Hmembers.
  assert (Hopt : required s = None →
                 Forall2 (λ p member, optionalMember p.1 member) ps members).
  { intros Hnone. rewrite Hnone in Hmembers. cbn in Hmembers.
    eapply Forall2_impl; [exact Hmembers|]. cbn. intros p member [_ Hiff].
    apply Hiff. apply not_elem_of_nil. }
  destruct (additionalProperties s) as [ap|].
  - destruct members as [|member members]; [by destruct ps|].
    apply bind_inr in H as (index & st2 & _ & H). unfold ret in H. simplify_eq.
    exists (member :: members), [index]. cbn. split_and!; auto. discriminate.
  - unfold ret in H. simplify_eq. exists members, []. rewrite app_nil_r.
    split_and!; auto.
Qed.

Lemma C7_required_properties_witness :
  ∃ members index,
    "{" +:+ newline +:+ dq +:+ "id" +:+ dq +:+ ": number," +:+ dq +:+ "tag" +:+ dq
      +:+ "?: string" +:+ newline +:+ "}"
    = nullableType petObject (join newline ["{"; join "," (members ++ index); "}"])
    ∧ (additionalProperties petObject = None → index = [])
    ∧ (length index ≤ 1)%nat
    ∧ Forall2 (λ p member,
                 (requiredMember p.1 member ↔ p.1 ∈ default [] (required petObject)) ∧
                 (optionalMember p.1 member ↔ p.1 ∉ default [] (required petObject)))
              [("id", Some (scalar "integer")); ("tag", Some (scalar "string"))] members
    ∧ (required petObject = None →
       Forall2 (λ p member, optionalMember p.1 member)
               [("id", Some (scalar "integer")); ("tag", Some (scalar "string"))] members).
Proof.
  apply (C7_required_properties petObject _ freshState _ freshState);
    [reflexivity|discriminate|reflexivity].
Defined.

(** ** Response groups *)

(** A traversal whose callback is oblivious and leaves the tables alone
    returns, for each element, what the callback returns in the initial
    state. *)
Lemma mapM_oblivious_inr {A B} (f : A → M B) l st ys st' :
  (∀ x, oblivious _ (f x)) → (∀ x, steps sameTables _ (f x)) →
  mapM f l st = (inr ys, st') →
  Forall2 (λ x y, (f x st).1 = inr y) l ys ∧ sameTables st st'.
Proof.
  intros Hobl Hsteps. revert st ys. induction l as [|x l IH]; intros st ys.
  - cbn. unfold ret. intros; simplify_eq. split; [constructor|done].
  - rewrite mapM_cons.
    intros (y & st1 & Hx & (ys' & st2 & Hl & H)%bind_inr)%bind_inr.
    unfold ret in H. simplify_eq.
    pose proof (Hsteps x st) as Hst1. rewrite Hx in Hst1. cbn in Hst1.
    destruct (IH _ _ Hl) as [Hys Hst2]. split; [|by etrans].
    constructor; [by rewrite Hx|].
    eapply Forall2_impl; [exact Hys|]. cbn. intros x' y' <-.
    by apply Hobl.
Qed.

Lemma createTypeOf_oblivious o : oblivious _ (createTypeOf o).
Proof.
  apply createTypeOf_structural;
    [apply _|apply warn_oblivious|apply getTypeNameFromRef_oblivious].
Qed.

Lemma createTypeOf_sameTables o : steps sameTables _ (createTypeOf o).
Proof.
  apply createTypeOf_structural;
    [apply _|apply warn_sameTables|intros; apply getTypeNameFromRef_steps, _].
Qed.

Lemma createTypeOf_compilesTo st o t : (createTypeOf o st).1 = inr t → compilesTo st o t.
Proof. destruct o as [s|]; [|done]. intros H. by exists s. Qed.

Lemma createResponseGroup_inr selected placeholder rs st types st' :
  createResponseGroup selected placeholder rs st = (inr types, st') →
  sameTables st st' ∧
  ∃ contributions,
    Forall2 (λ entry ts, contribution st placeholder entry.2 ts)
            (filter (λ entry, selected entry.1) rs) contributions
    ∧ types = concat contributions.
Proof.
  unfold createResponseGroup.
  intros (contributions & st1 & Hmap & H)%bind_inr. unfold ret in H. simplify_eq.
  apply mapM_oblivious_inr in Hmap as [Hall Hst].
  - split; [done|]. exists contributions. split; [|done].
    eapply Forall2_impl; [exact Hall|]. cbn. intros [code r] ts. cbn.
    unfold contribution. destruct (content r) as [c|]; cbn.
    + destruct (mapM _ c st) as [res st2] eqn:Hc. cbn. intros ->.
      apply mapM_oblivious_inr in Hc as [Hc _].
      * eapply Forall2_impl; [exact Hc|]. cbn. intros mediaType t.
        apply createTypeOf_compilesTo.
      * intros ?. apply createTypeOf_oblivious.
      * intros ?. apply createTypeOf_sameTables.
    + unfold ret. cbn. by intros [= <-].
  - intros entry. destruct (content entry.2); [|apply structural_ret].
    apply structural_mapM; [apply _|]. apply Forall_forall. intros ? _.
    apply createTypeOf_oblivious.
  - intros entry. destruct (content entry.2); [|apply structural_ret].
    apply structural_mapM; [apply _|]. apply Forall_forall. intros ? _.
    apply createTypeOf_sameTables.
Qed.

Lemma compilesTo_sameTables st1 st2 o t :
  sameTables st1 st2 → compilesTo st1 o t → compilesTo st2 o t.
Proof.
  intros H (s & -> & Hs). exists s. split; [done|].
  by rewrite <- (proj1 (createType_oblivious s st1 st2 H)).
Qed.

Lemma contribution_sameTables st1 st2 placeholder r ts :
  sameTables st1 st2 → contribution st1 placeholder r ts → contribution st2 placeholder r ts.
Proof.
  intros H. unfold contribution. destruct (content r); [|done].
  intros Hc. eapply Forall2_impl; [exact Hc|]. cbn. intros ? ?.
  by apply compilesTo_sameTables.
Qed.

Lemma filter_none {A} (P : A → Prop) `{!∀ x, Decision (P x)} (l : list A) :
  (∀ x, x ∈ l → ¬ P x) → filter P l = [].
Proof.
  induction l as [|x l IH]; [done|]. intros Hnone.
  rewrite filter_cons_False; [|apply Hnone; left].
  apply IH. intros y Hy. apply Hnone. by right.
Qed.

(** What [createResponseTypes] returns when it returns. *)
Lemma createResponseTypes_inr (rs : list (string * Response)) (st : State)
    (success error : string) (st' : State) :
  createResponseTypes rs st = (inr (success, error), st') →
  (∀ code, isSuccessCode code = true ↔ ∃ rest, code = "2" +:+ rest)
  ∧ (∀ code, isErrorCode code = true ↔
             code = "default" ∨ (∃ rest, code = "4" +:+ rest) ∨ (∃ rest, code = "5" +:+ rest))
  ∧ ∃ successes errors,
      Forall2 (λ entry ts, contribution st "void" entry.2 ts)
              (filter (λ entry, isSuccessCode entry.1) rs) successes
      ∧ Forall2 (λ entry ts, contribution st "unknown" entry.2 ts)
                (filter (λ entry, isErrorCode entry.1) rs) errors
      ∧ success = unionOrPlaceholder "void" (concat successes)
      ∧ error = unionOrPlaceholder "unknown" (concat errors)
      ∧ ((∀ entry, entry ∈ rs → isSuccessCode entry.1 = false) → success = "void")
      ∧ ((∀ entry, entry ∈ rs → isErrorCode entry.1 = false) → error = "unknown").
Proof.
  unfold createResponseTypes.
  intros (ss & st1 & Hss & (es & st2 & Hes & H)%bind_inr)%bind_inr.
  unfold ret in H. simplify_eq.
  apply createResponseGroup_inr in Hss as (Hst1 & successes & Hsuccesses & ->).
  apply createResponseGroup_inr in Hes as (Hst2 & errors & Herrors & ->).
  assert (Hprefix : ∀ c code, startsWith code (String c "") = true ↔
                              ∃ rest, code = String c "" +:+ rest).
  { intros c code. unfold startsWith. destruct code as [|c' rest]; cbn.
    - split; [done|]. by intros [? ?].
    - destruct (ascii_dec c c') as [->|Hne].
      + split; [eauto|]. by destruct rest.
      + split; [done|]. intros [? [=]]. done. }
  split; [|split].
  - intros code. apply Hprefix.
  - intros code. unfold isErrorCode. rewrite !orb_true_iff, !Hprefix, String.eqb_eq.
    tauto.
  - exists successes, errors. split_and!.
    + done.
    + eapply Forall2_impl; [exact Herrors|]. cbn. intros ? ?.
      apply contribution_sameTables. by symmetry.
    + unfold unionOrPlaceholder. by destruct (concat successes).
    + unfold unionOrPlaceholder. by destruct (concat errors).
    + intros Hnone. rewrite filter_none in Hsuccesses.
      * by inversion Hsuccesses.
      * intros entry Hin. rewrite (Hnone entry Hin). exact id.
    + intros Hnone. rewrite filter_none in Herrors.
      * by inversion Herrors.
      * intros entry Hin. rewrite (Hnone entry Hin). exact id.
Qed.

(** ** Objects as dictionaries *)

Lemma jsGet_None {A} (k : string) (o : list (string * A)) :
  jsGet k o = None ↔ k ∉ o.*1.
Proof.
  unfold jsGet. induction o as [|[k' v] o IH]; cbn.
  - split; [intros _; apply not_elem_of_nil|done].
  - destruct (String.eqb_spec k' k) as [->|Hne]; cbn.
    + split; [done|]. intros H. destruct H. left.
    + rewrite IH, not_elem_of_cons. split; [by split|by intros [_ ?]].
Qed.

Lemma jsGet_cons {A} (k k' : string) (v : A) (o : list (string * A)) :
  jsGet k ((k', v) :: o) = if String.eqb k' k then Some v else jsGet k o.
Proof. unfold jsGet. cbn. by destruct (String.eqb k' k). Qed.

Lemma jsReplace_keys {A} (k : string) (v : A) (o : list (string * A)) :
  (jsReplace k v o).*1 = o.*1.
Proof.
  induction o as [|[k' v'] o IH]; [done|]. cbn.
  destruct (String.eqb_spec k' k) as [->|Hne]; cbn; [done|]. by rewrite IH.
Qed.

Lemma jsGet_jsReplace {A} (k k' : string) (v : A) (o : list (string * A)) :
  jsGet k' (jsReplace k v o)
  = if String.eqb k k' then (λ _, v) <$> jsGet k o else jsGet k' o.
Proof.
  induction o as [|[k0 v0] o IH]; cbn [jsReplace fst].
  - by destruct (String.eqb k k').
  - destruct (String.eqb_spec k0 k) as [->|Hne].
    + rewrite !jsGet_cons, String.eqb_refl.
      destruct (String.eqb_spec k k'); [done|]. done.
    + rewrite !jsGet_cons, IH.
      destruct (String.eqb_spec k k') as [<-|Hne'].
      * by destruct (String.eqb_spec k0 k).
      * done.
Qed.

Lemma jsAdd_keys {A} (k : string) (v : A) (o : list (string * A)) :
  (jsAdd k v o).*1 ≡ₚ k :: o.*1.
Proof.
  induction o as [|[k' v'] o IH]; [done|]. cbn.
  destruct (enumeratedBefore k k'); cbn; [done|].
  rewrite IH. apply Permutation_swap.
Qed.

Lemma jsGet_jsAdd {A} (k k' : string) (v : A) (o : list (string * A)) :
  jsGet k o = None →
  jsGet k' (jsAdd k v o) = if String.eqb k k' then Some v else jsGet k' o.
Proof.
  induction o as [|[k0 v0] o IH]; cbn [jsAdd fst]; intros Hnone.
  - rewrite jsGet_cons. by destruct (String.eqb k k').
  - rewrite jsGet_cons in Hnone.
    destruct (String.eqb_spec k0 k) as [->|Hne]; [done|].
    destruct (enumeratedBefore k k0).
    + rewrite jsGet_cons. by destruct (String.eqb k k').
    + rewrite !jsGet_cons, (IH Hnone).
      destruct (String.eqb_spec k0 k') as [->|Hne']; [|done].
      by destruct (String.eqb_spec k k').
Qed.

(** Reading back what [o[k] = v] wrote, and everything else. *)
Lemma jsGet_jsSet {A} (k k' : string) (v : A) (o : list (string * A)) :
  jsGet k' (jsSet k v o) = if String.eqb k k' then Some v else jsGet k' o.
Proof.
  unfold jsSet, jsHas. case_bool_decide as Hhas.
  - rewrite jsGet_jsReplace. destruct Hhas as [v' ->]. done.
  - apply jsGet_jsAdd. by apply eq_None_not_Some.
Qed.

(** An assignment keeps the keys of an object distinct. *)
Lemma jsSet_NoDup {A} (k : string) (v : A) (o : list (string * A)) :
  NoDup o.*1 → NoDup (jsSet k v o).*1.
Proof.
  intros Hnodup. unfold jsSet, jsHas. case_bool_decide as Hhas.
  - by rewrite jsReplace_keys.
  - rewrite jsAdd_keys. constructor; [|done].
    apply jsGet_None. by apply eq_None_not_Some.
Qed.

Lemma jsGet_elem_of {A} (k : string) (v : A) (o : list (string * A)) :
  jsGet k o = Some v → (k, v) ∈ o.
Proof.
  induction o as [|[k' v'] o IH]; [done|]. rewrite jsGet_cons.
  destruct (String.eqb_spec k' k) as [->|Hne].
  - intros [= ->]. left.
  - intros H. right. auto.
Qed.

Lemma elem_of_jsGet {A} (k : string) (v : A) (o : list (string * A)) :
  NoDup o.*1 → (k, v) ∈ o → jsGet k o = Some v.
Proof.
  induction o as [|[k' v'] o IH]; [by intros _ ?%elem_of_nil|].
  rewrite fmap_cons. cbn [fst].
  intros [Hnotin Hnodup]%NoDup_cons [Heq|Hin]%elem_of_cons; rewrite jsGet_cons.
  - simplify_eq. by rewrite String.eqb_refl.
  - destruct (String.eqb_spec k' k) as [->|Hne]; [|auto].
    destruct Hnotin. apply list_elem_of_fmap. by exists (k, v).
Qed.

(** ** Parameter groups *)

Lemma wellGrouped_nil : wellGrouped [].
Proof. split; [constructor|]. by intros ? ? ?%elem_of_nil. Qed.

Lemma wellGrouped_properties groups location :
  wellGrouped groups →
  NoDup (default [] (properties (default (parameterGroup [] [])
                                         (jsGet location groups)))).*1.
Proof.
  intros [_ Hgroups]. destruct (jsGet location groups) as [group|] eqn:Hget; cbn.
  - apply jsGet_elem_of, Hgroups in Hget as (required & properties & -> & Hnodup).
    done.
  - constructor.
Qed.

(** One parameter more: its location's group gets, or keeps, a member of
    its name, now with its schema; nothing else changes. *)
Lemma addParameter_inr groups p groups' :
  wellGrouped groups → addParameter groups p = inr groups' →
  wellGrouped groups' ∧
  ∀ location name, name ≠ "__proto__" →
    groupMember groups' location name =
      if bool_decide (p_in p = location ∧ p_name p = name) then Some (p_schema p)
      else groupMember groups location name.
Proof.
  intros Hwell. unfold addParameter. destruct (inherited (p_in p)); [done|].
  pose proof (wellGrouped_properties groups (p_in p) Hwell) as Hprops.
  set (group := default (parameterGroup [] []) (jsGet (p_in p) groups)) in *.
  set (properties' := if String.eqb (p_name p) "__proto__" then _ else _).
  set (required' := if bool_decide (p_required p = Some false) then _ else _).
  intros [= <-].
  assert (Hprops' : NoDup properties'.*1).
  { unfold properties'. destruct (String.eqb _ _); [done|]. by apply jsSet_NoDup. }
  split; [split|].
  - apply jsSet_NoDup, Hwell.
  - intros location g Hin.
    apply elem_of_jsGet in Hin; [|apply jsSet_NoDup, Hwell].
    rewrite jsGet_jsSet in Hin.
    destruct (String.eqb_spec (p_in p) location) as [<-|Hne].
    + simplify_eq. by exists required', properties'.
    + apply jsGet_elem_of in Hin. by apply Hwell in Hin.
  - intros location name Hname. unfold groupMember. rewrite jsGet_jsSet.
    destruct (String.eqb_spec (p_in p) location) as [<-|Hne].
    + cbn [properties parameterGroup default]. unfold properties'.
      destruct (String.eqb_spec (p_name p) "__proto__") as [Hproto|Hproto].
      * rewrite bool_decide_eq_false_2 by (intros [_ ?]; congruence).
        unfold group. by destruct (jsGet (p_in p) groups).
      * unfold id. rewrite jsGet_jsSet.
        destruct (String.eqb_spec (p_name p) name) as [<-|Hne].
        -- by rewrite bool_decide_eq_true_2.
        -- rewrite bool_decide_eq_false_2 by (intros [_ ?]; congruence).
           unfold group. by destruct (jsGet (p_in p) groups).
    + by rewrite bool_decide_eq_false_2 by (intros [? _]; congruence).
Qed.

Lemma lastParameter_cons location name p l :
  lastParameter location name (p :: l) =
    match lastParameter location name l with
    | Some q => Some q
    | None => if bool_decide (p_in p = location ∧ p_name p = name) then Some p else None
    end.
Proof.
  unfold lastParameter. rewrite filter_cons. case_bool_decide as Hp.
  - rewrite decide_True by done. by rewrite last_cons.
  - rewrite decide_False by done. by destruct (last (filter _ l)).
Qed.

Lemma lastParameter_app location name l1 l2 p :
  lastParameter location name l2 = Some p →
  lastParameter location name (l1 ++ l2) = Some p.
Proof.
  intros H. induction l1 as [|q l1 IH]; [done|].
  by rewrite <- app_comm_cons, lastParameter_cons, IH.
Qed.

Lemma groupParameters_inr groups l groups' :
  wellGrouped groups → groupParameters groups l = inr groups' →
  wellGrouped groups' ∧
  ∀ location name, name ≠ "__proto__" →
    groupMember groups' location name =
      match lastParameter location name l with
      | Some p => Some (p_schema p)
      | None => groupMember groups location name
      end.
Proof.
  revert groups. induction l as [|p l IH]; intros groups Hwell; cbn [groupParameters].
  - intros [= <-]. done.
  - destruct (addParameter groups p) as [e|groups1] eqn:Hadd; [done|].
    apply addParameter_inr in Hadd as [Hwell1 Hmember1]; [|done].
    intros [Hwell' Hmember']%IH; [|done]. split; [done|].
    intros location name Hname.
    rewrite Hmember', lastParameter_cons, Hmember1 by done.
    destruct (lastParameter location name l); [done|]. by case_bool_decide.
Qed.

(** The object type of a location: one member per property of its group,
    in order. *)
Lemma createType_parameterGroup requiredNames declared st text st' :
  createType (parameterGroup requiredNames declared) st = (inr text, st') →
  ∃ members,
    text = join newline ["{"; join "," members; "}"]
    ∧ Forall2 (λ p member,
                 (requiredMember p.1 member ↔ p.1 ∈ requiredNames) ∧
                 (optionalMember p.1 member ↔ p.1 ∉ requiredNames))
              declared members.
Proof.
  change (createType (parameterGroup requiredNames declared))
    with (createObjectType (parameterGroup requiredNames declared)).
  unfold createObjectType, createObjectType_.
  cbn [parameterGroup properties required additionalProperties default].
  intros (members & st1 & Hmembers & H)%bind_inr.
  fold createObjectTypeProperty in Hmembers.
  unfold ret in H. simplify_eq. exists members. split; [done|].
  by eapply mapM_properties_members.
Qed.

(** C5 as stated fails: a name declared at both levels gives one member,
    not two. *)
Lemma C5_counterexample :
  groupParameters [] (pathLevelId ++ operationLevelId)
    = inr [("path", parameterGroup ["id"; "id"] [("id", Some (scalar "integer"))])]
  ∧ createType (parameterGroup ["id"; "id"] [("id", Some (scalar "integer"))]) freshState
    = (inr ("{" +:+ newline +:+ dq +:+ "id" +:+ dq +:+ ": number" +:+ newline +:+ "}"),
       freshState).
Proof. split; reflexivity. Qed.

(** ** The whole run, structurally *)

Section generate_structural.
Context (P : ∀ A, M A → Prop) `{!Structural P}.
Variable camelCase : string → string.
Variable hooks : Hooks.
Hypothesis P_warn : ∀ key, P unit (warn key).
Hypothesis P_getTypeNameFromRef : ∀ s, P string (getTypeNameFromRef s).
Hypothesis P_createTypeName : ∀ str suffix, P string (createTypeName camelCase str suffix).
Hypothesis P_refMapSet : ∀ key typeName, P unit (refMapSet key typeName).

Lemma buildRefMap_structural doc : P _ (buildRefMap camelCase doc).
Proof.
  unfold buildRefMap. structural.
  apply structural_mapM; [done|]. apply Forall_forall. intros entry _.
  apply structural_mapM; [done|]. apply Forall_forall. intros refName _.
  apply P_refMapSet.
Qed.

Lemma createTypesFromSchemas_structural doc :
  P _ (createTypesFromSchemas camelCase doc).
Proof.
  unfold createTypesFromSchemas. structural.
  apply structural_mapM; [done|]. apply Forall_forall. intros entry _.
  structural; [apply P_createTypeName|by apply createType_structural].
Qed.

Lemma createTypesFromRequestBodies_structural doc :
  P _ (createTypesFromRequestBodies camelCase doc).
Proof.
  unfold createTypesFromRequestBodies. structural.
  apply structural_mapM; [done|]. apply Forall_forall. intros entry _.
  structural; [apply P_createTypeName|by apply createTypeOf_structural].
Qed.

(** An operation reserves its identifier first; the rest has what the
    compilation of its schemas has. *)
Lemma createOperation_reserve_first path shared method operation :
  ∃ k, createOperation camelCase hooks path shared method operation
       = bind (createTypeName camelCase (opNameOf path method operation) "") k
       ∧ ∀ typeName, P _ (k typeName).
Proof.
  eexists. split; [reflexivity|]. intros typeName. cbv zeta.
  apply structural_bind; [by apply structural_lift|intros groups].
  apply structural_bind.
  { apply structural_mapM; [done|]. apply Forall_forall. intros entry _.
    structural. by apply createType_structural. }
  intros parameterTypes. apply structural_bind.
  { destruct (responses operation); [|by apply structural_ret].
    structural. by apply createResponseTypes_structural. }
  intros responseTypes. apply structural_bind.
  { destruct (requestBody operation); [|by apply structural_ret].
    structural. apply structural_mapM; [done|]. apply Forall_forall. intros o _.
    by apply createTypeOf_structural. }
  intros requestBodyTypes. structural.
Qed.

Lemma createOperation_structural path shared method operation :
  P _ (createOperation camelCase hooks path shared method operation).
Proof.
  destruct (createOperation_reserve_first path shared method operation) as (k & -> & Hk).
  apply structural_bind; [apply P_createTypeName|done].
Qed.

Lemma createPathItem_structural path item :
  P _ (createPathItem camelCase hooks path item).
Proof.
  unfold createPathItem. structural.
  apply structural_mapM; [done|]. apply Forall_forall. intros entry _.
  apply createOperation_structural.
Qed.

Lemma createEndpoints_structural doc : P _ (createEndpoints camelCase hooks doc).
Proof.
  unfold createEndpoints. structural.
  apply structural_mapM; [done|]. apply Forall_forall. intros entry _.
  apply createPathItem_structural.
Qed.

(** What the four primitives that touch the state have, the run has. *)
Lemma generate_structural doc baseUrl : P _ (generate camelCase hooks doc baseUrl).
Proof.
  unfold generate.
  apply structural_bind; [by apply structural_lift|intros doc'].
  apply structural_bind; [by apply structural_lift|intros _].
  apply structural_bind; [by apply structural_lift|intros imports].
  apply structural_bind; [apply buildRefMap_structural|intros _].
  apply structural_bind; [apply createTypesFromSchemas_structural|intros ?].
  apply structural_bind; [unfold createTypesFromParameters; structural|intros ?].
  apply structural_bind; [apply createTypesFromRequestBodies_structural|intros ?].
  apply structural_bind; [unfold createTypesFromResponses; structural|intros ?].
  apply structural_bind; [by apply structural_lift|intros ?].
  apply structural_bind; [apply createEndpoints_structural|intros ?].
  by apply structural_lift.
Qed.
End generate_structural.

(** ** Determinism *)

Lemma createTypeName_oblivious camelCase str suffix :
  oblivious _ (createTypeName camelCase str suffix).
Proof.
  intros st1 st2 [H1 H2]. unfold createTypeName. rewrite H1.
  case_decide; [done|]. by split.
Qed.

Lemma refMapSet_oblivious key typeName : oblivious _ (refMapSet key typeName).
Proof.
  intros st1 st2 [H1 H2]. unfold refMapSet. split; [done|].
  split; cbn; [done|by f_equal].
Qed.

(** The text a run returns, or the error it fails with, depends on the
    document, the hooks and the two tables the run starts with; the
    warnings shown before do not matter. *)
Lemma generate_oblivious camelCase hooks doc baseUrl :
  oblivious _ (generate camelCase hooks doc baseUrl).
Proof.
  apply generate_structural.
  - apply _.
  - apply warn_oblivious.
  - apply getTypeNameFromRef_oblivious.
  - apply createTypeName_oblivious.
  - apply refMapSet_oblivious.
Qed.

(** C4: two runs on the same document, each starting with an empty
    registry and an empty reference table, return the same text (or fail
    with the same error), whatever warnings either process had shown
    before; so do, in particular, two runs from the fresh state. *)
Theorem C4_determinism (camelCase : string → string) (hooks : Hooks)
    (doc : Document) (baseUrl : option string)
    (shown1 shown2 : gset string) (console1 console2 : list string) :
  (generate camelCase hooks doc baseUrl (mkState ∅ ∅ shown1 console1)).1
  = (generate camelCase hooks doc baseUrl (mkState ∅ ∅ shown2 console2)).1.
Proof. by apply generate_oblivious. Qed.

(** ** Warnings *)

Lemma length_append (a b : string) :
  String.length (a +:+ b) = (String.length a + String.length b)%nat.
Proof.
  induction a as [|c a IH]; [done|].
  change (String c a +:+ b) with (String c (a +:+ b)). cbn. by rewrite IH.
Qed.

Lemma append_inj_r (a b s : string) : a +:+ s = b +:+ s → a = b.
Proof.
  intros H. assert (Hlen : String.length a = String.length b).
  { apply (f_equal String.length) in H. rewrite !length_append in H. lia. }
  revert b H Hlen. induction a as [|c a IH]; intros [|c' b]; cbn; try done.
  intros [= -> H] [= Hlen]. f_equal. auto.
Qed.

Lemma warningMessage_inj (key1 key2 : string) :
  warningMessage key1 = warningMessage key2 → key1 = key2.
Proof.
  unfold warningMessage. intros H%append_inj_l.
  by apply append_inj_r in H.
Qed.

#[local] Instance warningsGrow_preorder : PreOrder warningsGrow.
Proof.
  split.
  - intros st. by split.
  - intros st1 st2 st3 [H1 H1'] [H2 H2']. split; [auto|set_solver].
Qed.

Lemma warn_shown key st : key ∈ shownWarnings (warn key st).2.
Proof. unfold warn. case_decide; [done|]. cbn. set_solver. Qed.

Lemma warn_warningsGrow key : steps warningsGrow _ (warn key).
Proof.
  intros st. unfold warn. case_decide as Hshown; [reflexivity|]. cbn.
  split; [|cbn; set_solver].
  intros [Hnodup Hlines]. split; cbn.
  - apply NoDup_app. split_and!; [done| |apply NoDup_singleton].
    intros line Hline ->%list_elem_of_singleton.
    apply Hlines in Hline as (key' & Hkey' & ->%warningMessage_inj). done.
  - intros line. rewrite elem_of_app, list_elem_of_singleton, Hlines. split.
    + intros [(key' & Hkey' & ->)| ->]; [exists key'|exists key];
        (split; [|done]); apply elem_of_union; [by right|left].
      by apply elem_of_singleton.
    + intros (key' & [->%elem_of_singleton|Hkey']%elem_of_union & ->); eauto.
Qed.

Lemma createTypeName_warningsGrow camelCase str suffix :
  steps warningsGrow _ (createTypeName camelCase str suffix).
Proof. intros st. unfold createTypeName. by case_decide. Qed.

Lemma refMapSet_warningsGrow key typeName : steps warningsGrow _ (refMapSet key typeName).
Proof. by intros st. Qed.

Lemma createType_warningsGrow s : steps warningsGrow _ (createType s).
Proof.
  apply createType_structural;
    [apply _|apply warn_warningsGrow|intros; apply getTypeNameFromRef_steps, _].
Qed.

(** The warnings of a run stay consistent, whatever the document. *)
Lemma generate_warningsGrow camelCase hooks doc baseUrl :
  steps warningsGrow _ (generate camelCase hooks doc baseUrl).
Proof.
  apply generate_structural.
  - apply _.
  - apply warn_warningsGrow.
  - intros. apply getTypeNameFromRef_steps, _.
  - apply createTypeName_warningsGrow.
  - apply refMapSet_warningsGrow.
Qed.

Lemma warningsConsistent_fresh : warningsConsistent freshState.
Proof.
  split; [constructor|]. intros line. cbn. split.
  - by intros ?%elem_of_nil.
  - intros (key & ?%not_elem_of_empty & _). done.
Qed.

Lemma NoDup_filter_eq_length {A} `{!EqDecision A} (x : A) (l : list A) :
  NoDup l → (length (filter (λ y, y = x) l) ≤ 1)%nat.
Proof.
  induction 1 as [|y l Hy Hl IH]; [cbn; lia|].
  rewrite filter_cons. case_decide as Hx; [|done]. subst y. cbn.
  rewrite (filter_none (λ y, y = x) l); [cbn; lia|].
  intros z Hz ->. done.
Qed.

Lemma warningCount_le_1 key st : warningsConsistent st → (warningCount key st ≤ 1)%nat.
Proof. intros [Hnodup _]. by apply NoDup_filter_eq_length. Qed.

(** A keyword shown stays shown, and its line stays on the console. *)
Lemma warned_after {A} key (m : M A) st :
  steps warningsGrow _ m → warningsConsistent st →
  key ∈ shownWarnings st → warned key (m st).2.
Proof.
  intros Hm Hst Hkey. destruct (Hm st) as [Hcons Hsub].
  assert (key ∈ shownWarnings (m st).2) by set_solver.
  split; [done|]. apply Hcons; [done|]. by exists key.
Qed.

(** A warning never throws: what follows it runs in the state it leaves. *)
Lemma bind_when_warn {A} b key (k : unit → M A) st :
  bind (when b (warn key)) k st = k tt (when b (warn key) st).2.
Proof.
  unfold bind. pose proof (when_warn_inr b key st) as H.
  destruct (when b (warn key) st) as [r st1]. cbn in H. by subst r.
Qed.

Lemma when_warn_warningsGrow b key : steps warningsGrow _ (when b (warn key)).
Proof. apply structural_when; [apply _|apply warn_warningsGrow]. Qed.

Lemma when_warn_sameTables b key st : sameTables st (when b (warn key) st).2.
Proof. apply (structural_when (steps sameTables)), warn_sameTables. Qed.

(** The result of what follows a warning does not depend on the warning. *)
Lemma bind_when_warn_result {A} b key (k : unit → M A) st :
  oblivious _ (k tt) → (bind (when b (warn key)) k st).1 = (k tt st).1.
Proof.
  intros Hk. rewrite bind_when_warn. symmetry.
  apply Hk, when_warn_sameTables.
Qed.

(** ** Ignored keywords *)

Lemma beforeSwitch_result (s : Schema) (k1 k2 : M string) st :
  (k1 st).1 = (k2 st).1 → (beforeSwitch s k1 st).1 = (beforeSwitch s k2 st).1.
Proof.
  intros Hk. unfold beforeSwitch.
  destruct (isRef s); [done|]. destruct (allOf s); [done|].
  destruct (anyOf s); [done|]. destruct (not_ s); [done|].
  destruct (oneOf s); [done|]. by destruct (discriminator s).
Qed.

Lemma switchOnType_oblivious s : oblivious _ (switchOnType s).
Proof.
  apply switchOnType_structural;
    [apply _|apply warn_oblivious|apply getTypeNameFromRef_oblivious].
Qed.

(** [deprecated] and [default] do not change what a schema compiles to. *)
Lemma createType_plain (s : Schema) (st : State) :
  (createType s st).1 = (createType (plain s) st).1.
Proof.
  rewrite (createType_eq s), (createType_eq (plain s)).
  change (beforeSwitch (plain s)) with (beforeSwitch s).
  apply beforeSwitch_result.
  transitivity ((switchOnType s st).1); [|reflexivity].
  rewrite bind_when_warn_result.
  - rewrite bind_when_warn_result; [done|]. apply switchOnType_oblivious.
  - sapply structural_bind; [|intros _; apply switchOnType_oblivious].
    sapply structural_when. apply warn_oblivious.
Qed.

Lemma plain_withoutKeyword k s :
  plain (withoutKeyword k s) =
    match k with
    | Deprecated | Default => plain s
    | _ => withoutKeyword k (plain s)
    end.
Proof. by destruct k. Qed.

(** [readOnly], [writeOnly] and [xml] are not read by [createType]. *)
Lemma createType_unread k s :
  match k with Deprecated | Default => False | _ => True end →
  createType (withoutKeyword k s) = createType s.
Proof.
  intros Hk. rewrite (createType_eq (withoutKeyword k s)), (createType_eq s).
  by destruct k.
Qed.

Lemma createType_withoutKeyword k s st :
  (createType (withoutKeyword k s) st).1 = (createType s st).1.
Proof.
  rewrite (createType_plain (withoutKeyword k s)), (createType_plain s).
  rewrite plain_withoutKeyword. destruct k; try done; by rewrite createType_unread.
Qed.

Lemma bind_ret_result {A B} (m1 m2 : M A) (g : A → B) st :
  (m1 st).1 = (m2 st).1 →
  (bind m1 (λ a, ret (g a)) st).1 = (bind m2 (λ a, ret (g a)) st).1.
Proof.
  unfold bind, ret. destruct (m1 st) as [[?|?] ?], (m2 st) as [[?|?] ?]; cbn;
    intros; by simplify_eq.
Qed.

(** What a property compiles to, past its three warnings. *)
Lemma createObjectTypeProperty_result name s required st :
  (createObjectTypeProperty name (Some s) required st).1 =
  ((let* t := createType s in
    ret (dq +:+ name +:+ dq +:+ (if required then "" else "?") +:+ ": " +:+ t)) st).1.
Proof.
  assert (Hrest : oblivious _
            (let* t := createType s in
             ret (dq +:+ name +:+ dq +:+ (if required then "" else "?") +:+ ": " +:+ t))).
  { sapply structural_bind; [apply createType_oblivious|].
    intros t. sapply structural_ret. }
  unfold createObjectTypeProperty, createObjectTypeProperty_.
  rewrite bind_when_warn_result.
  - rewrite bind_when_warn_result.
    + by rewrite bind_when_warn_result.
    + sapply structural_bind; [|done].
      sapply structural_when. apply warn_oblivious.
  - sapply structural_bind; [|intros _].
    { sapply structural_when. apply warn_oblivious. }
    sapply structural_bind; [|done].
    sapply structural_when. apply warn_oblivious.
Qed.

Lemma createObjectTypeProperty_withoutKeyword k name s required st :
  (createObjectTypeProperty name (Some (withoutKeyword k s)) required st).1
  = (createObjectTypeProperty name (Some s) required st).1.
Proof.
  rewrite !createObjectTypeProperty_result.
  apply bind_ret_result, createType_withoutKeyword.
Qed.

Lemma switchOnType_warningsGrow s : steps warningsGrow _ (switchOnType s).
Proof.
  apply switchOnType_structural;
    [apply _|apply warn_warningsGrow|intros; apply getTypeNameFromRef_steps, _].
Qed.

(** After a warning and whatever follows it, it has been printed. *)
Lemma bind_warn_warned {A} key (k : unit → M A) st :
  warningsConsistent st → steps warningsGrow _ (k tt) →
  warned key (bind (warn key) k st).2.
Proof.
  intros Hst Hk. change (warn key) with (when true (warn key)).
  rewrite bind_when_warn. cbn [when].
  apply warned_after; [done| |apply warn_shown].
  by apply warn_warningsGrow.
Qed.

Lemma when_warn_consistent b key st :
  warningsConsistent st → warningsConsistent (when b (warn key) st).2.
Proof. apply when_warn_warningsGrow. Qed.

(** Where the warnings for [deprecated] and [default] are triggered. *)
Lemma createType_warned k s st :
  warningsConsistent st → reachesSwitch s →
  match k with Deprecated | Default => carries k s = true | _ => False end →
  warned (keywordName k) (createType s st).2.
Proof.
  intros Hst Hswitch Hk. rewrite (createType_reachesSwitch s Hswitch).
  destruct k; try done; cbn in Hk; cbn [keywordName].
  - rewrite Hk. cbn [when]. apply bind_warn_warned; [done|].
    apply (@structural_bind (steps warningsGrow) _); [apply when_warn_warningsGrow|intros _].
    apply switchOnType_warningsGrow.
  - rewrite bind_when_warn, Hk. cbn [when].
    apply bind_warn_warned; [by apply when_warn_consistent|].
    apply switchOnType_warningsGrow.
Qed.

Lemma property_rest_warningsGrow s (g : string → string) :
  steps warningsGrow _ (let* t := createType s in ret (g t)).
Proof.
  apply (@structural_bind (steps warningsGrow) _); [apply createType_warningsGrow|].
  intros t. apply (@structural_ret (steps warningsGrow) _).
Qed.

(** Where the warnings for [readOnly], [writeOnly] and [xml] are
    triggered: at a property of an object. *)
Lemma createObjectTypeProperty_warned k name s required st :
  warningsConsistent st →
  match k with Deprecated | Default => False | _ => carries k s = true end →
  warned (keywordName k) (createObjectTypeProperty name (Some s) required st).2.
Proof.
  intros Hst Hk. unfold createObjectTypeProperty, createObjectTypeProperty_.
  destruct k; try done; cbn in Hk; cbn [keywordName].
  - rewrite Hk. cbn [when]. apply bind_warn_warned; [done|].
    apply (@structural_bind (steps warningsGrow) _); [apply when_warn_warningsGrow|intros _].
    apply (@structural_bind (steps warningsGrow) _); [apply when_warn_warningsGrow|intros _].
    apply property_rest_warningsGrow.
  - rewrite bind_when_warn, Hk. cbn [when].
    apply bind_warn_warned; [by apply when_warn_consistent|].
    apply (@structural_bind (steps warningsGrow) _); [apply when_warn_warningsGrow|intros _].
    apply property_rest_warningsGrow.
  - do 2 rewrite bind_when_warn. rewrite Hk. cbn [when].
    apply bind_warn_warned; [by do 2 apply when_warn_consistent|].
    apply property_rest_warningsGrow.
Qed.

Lemma warned_count key st :
  warningsConsistent st → warned key st → warningCount key st = 1%nat.
Proof.
  intros Hst [_ Hline]. pose proof (warningCount_le_1 key st Hst) as Hle.
  unfold warningCount in *.
  assert (Hin : warningMessage key ∈ filter (λ line, line = warningMessage key) (console st))
    by by apply list_elem_of_filter.
  destruct (filter _ (console st)); [by apply elem_of_nil in Hin|].
  cbn in *. lia.
Qed.

Lemma createObjectTypeProperty_warningsGrow name o required :
  steps warningsGrow _ (createObjectTypeProperty name o required).
Proof.
  unfold createObjectTypeProperty, createObjectTypeProperty_.
  destruct o as [s|]; [|apply (@structural_throw (steps warningsGrow) _)].
  apply (@structural_bind (steps warningsGrow) _); [apply when_warn_warningsGrow|intros _].
  apply (@structural_bind (steps warningsGrow) _); [apply when_warn_warningsGrow|intros _].
  apply (@structural_bind (steps warningsGrow) _); [apply when_warn_warningsGrow|intros _].
  apply property_rest_warningsGrow.
Qed.

(** C9, as the code has it. A schema compiles to the same type, or fails
    with the same error, with and without any of the five keywords, as a
    schema and as a property of an object. In one run no keyword is warned
    about twice. The warning for [deprecated] or [default] is printed, once,
    when a schema carrying a truthy value of it gets to the [switch] of
    [createType]; the warning for [readOnly], [writeOnly] or [xml] when a
    schema carrying it is compiled as a property of an object. *)
Theorem C9_ignored_keywords :
  (∀ k s st,
     (createType (withoutKeyword k s) st).1 = (createType s st).1
     ∧ ∀ name required,
         (createObjectTypeProperty name (Some (withoutKeyword k s)) required st).1
         = (createObjectTypeProperty name (Some s) required st).1)
  ∧ (∀ camelCase hooks doc baseUrl st key,
       warningsConsistent st →
       (warningCount key (generate camelCase hooks doc baseUrl st).2 ≤ 1)%nat)
  ∧ (∀ k s st,
       warningsConsistent st → carries k s = true →
       match k with
       | Deprecated | Default =>
           reachesSwitch s →
           warningCount (keywordName k) (createType s st).2 = 1%nat
       | _ =>
           ∀ name required,
             warningCount (keywordName k)
               (createObjectTypeProperty name (Some s) required st).2 = 1%nat
       end).
Proof.
  split_and!.
  - intros k s st. split; [apply createType_withoutKeyword|].
    intros name required. apply createObjectTypeProperty_withoutKeyword.
  - intros camelCase hooks doc baseUrl st key Hst.
    apply warningCount_le_1. by apply generate_warningsGrow.
  - intros k s st Hst Hk.
    destruct k.
    1,2: intros Hswitch; apply warned_count;
      [by apply createType_warningsGrow|by apply createType_warned].
    all: intros name required; apply warned_count;
      [by apply createObjectTypeProperty_warningsGrow
      |by apply createObjectTypeProperty_warned].
Qed.

Lemma C9_ignored_keywords_witness :
  warningCount "deprecated" (createType deprecatedString freshState).2 = 1%nat
  ∧ (createType deprecatedString freshState).1 = inr "string"
  ∧ (createType (withoutKeyword Deprecated deprecatedString) freshState).1 = inr "string".
Proof.
  split; [|split; reflexivity].
  refine (proj2 (proj2 C9_ignored_keywords) Deprecated deprecatedString freshState
            warningsConsistent_fresh eq_refl _).
  by repeat split.
Defined.

(** C9 as stated fails: a keyword that is present is not always warned
    about. The only schema of this document carries [readOnly: true]; the
    run succeeds and prints nothing. *)
Lemma C9_counterexample :
  carries ReadOnly readOnlyString = true
  ∧ (∃ text, (generate lowerFirst plainHooks readOnlyDocument None freshState).1 = inr text)
  ∧ console (generate lowerFirst plainHooks readOnlyDocument None freshState).2 = []
  ∧ warningCount "readOnly"
      (generate lowerFirst plainHooks readOnlyDocument None freshState).2 = 0%nat.
Proof. split_and!; [reflexivity|eexists; vm_compute; reflexivity|by vm_compute..]. Qed.

(** ** The registry *)

#[local] Instance sameRegistry_preorder : PreOrder sameRegistry.
Proof.
  split; [by intros st|]. intros st1 st2 st3 H1 H2. unfold sameRegistry in *. congruence.
Qed.

Lemma reserves_nil {A} (m : M A) : steps sameRegistry _ m → reserves [] m.
Proof.
  intros Hm st a st' Hrun. specialize (Hm st). rewrite Hrun in Hm. cbn in Hm.
  split_and!; [constructor|by intros ? ?%elem_of_nil|].
  rewrite Hm. cbn. set_solver.
Qed.

Lemma reserves_bind {A B} ids1 ids2 (m : M A) (k : A → M B) :
  reserves ids1 m → (∀ a, reserves ids2 (k a)) → reserves (ids1 ++ ids2) (bind m k).
Proof.
  intros Hm Hk st b st' (a & st1 & Hrun1 & Hrun2)%bind_inr.
  destruct (Hm _ _ _ Hrun1) as (Hnodup1 & Hnew1 & Hreg1).
  destruct (Hk _ _ _ _ Hrun2) as (Hnodup2 & Hnew2 & Hreg2).
  split_and!.
  - apply NoDup_app. split_and!; [done| |done].
    intros id Hid1 Hid2. apply (Hnew2 id Hid2). rewrite Hreg1.
    apply elem_of_union. left. by apply elem_of_list_to_set.
  - intros id [Hid|Hid]%elem_of_app; [by apply Hnew1|].
    intros Hin. apply (Hnew2 id Hid). rewrite Hreg1. apply elem_of_union. by right.
  - rewrite Hreg2, Hreg1, list_to_set_app_L. set_solver.
Qed.

Lemma reserves_bind_l {A B} ids (m : M A) (k : A → M B) :
  reserves ids m → (∀ a, steps sameRegistry _ (k a)) → reserves ids (bind m k).
Proof.
  intros Hm Hk. rewrite <- (app_nil_r ids).
  apply reserves_bind; [done|]. intros a. by apply reserves_nil.
Qed.

Lemma reserves_bind_r {A B} ids (m : M A) (k : A → M B) :
  steps sameRegistry _ m → (∀ a, reserves ids (k a)) → reserves ids (bind m k).
Proof.
  intros Hm Hk. change ids with ([] ++ ids).
  apply reserves_bind; [|done]. by apply reserves_nil.
Qed.

Lemma reserves_mapM {A B} (ids : A → list string) (f : A → M B) l :
  (∀ x, reserves (ids x) (f x)) → reserves (concat (map ids l)) (mapM f l).
Proof.
  intros Hf. induction l as [|x l IH].
  - apply reserves_nil. apply (@structural_ret (steps sameRegistry) _).
  - rewrite mapM_cons. cbn [map concat].
    apply reserves_bind; [done|]. intros y.
    apply reserves_bind_l; [done|]. intros ys.
    apply (@structural_ret (steps sameRegistry) _).
Qed.

(** [createTypeName] on a name already reserved, and on a new one. *)
Lemma createTypeName_reserved camelCase str suffix st :
  createTypeIdentifier camelCase str suffix ∈ createdTypeNames st →
  createTypeName camelCase str suffix st
  = (inl (DuplicateTypeName (createTypeIdentifier camelCase str suffix) str), st).
Proof. intros Hin. unfold createTypeName. by rewrite decide_True. Qed.

Lemma createTypeName_new camelCase str suffix st :
  createTypeIdentifier camelCase str suffix ∉ createdTypeNames st →
  ∃ st', createTypeName camelCase str suffix st
         = (inr (createTypeIdentifier camelCase str suffix), st')
         ∧ createdTypeNames st'
           = {[createTypeIdentifier camelCase str suffix]} ∪ createdTypeNames st
         ∧ refMap st' = refMap st ∧ shownWarnings st' = shownWarnings st
         ∧ console st' = console st.
Proof. intros Hin. unfold createTypeName. rewrite decide_False by done. eauto 10. Qed.

Lemma createTypeName_reserves camelCase str suffix :
  reserves [createTypeIdentifier camelCase str suffix] (createTypeName camelCase str suffix).
Proof.
  intros st a st'. unfold createTypeName. case_decide as Hin; [done|].
  intros [= <- <-]. split_and!.
  - apply NoDup_singleton.
  - by intros id ->%list_elem_of_singleton.
  - cbn. set_solver.
Qed.

Lemma warn_sameRegistry key : steps sameRegistry _ (warn key).
Proof. intros st. unfold warn. by case_decide. Qed.

Lemma refMapSet_sameRegistry key typeName : steps sameRegistry _ (refMapSet key typeName).
Proof. by intros st. Qed.

Lemma createType_sameRegistry s : steps sameRegistry _ (createType s).
Proof.
  apply createType_structural;
    [apply _|apply warn_sameRegistry|intros; apply getTypeNameFromRef_steps, _].
Qed.

Lemma createTypeOf_sameRegistry o : steps sameRegistry _ (createTypeOf o).
Proof.
  apply createTypeOf_structural;
    [apply _|apply warn_sameRegistry|intros; apply getTypeNameFromRef_steps, _].
Qed.

Lemma reserves_throw {A} ids e : reserves ids (@throw A e).
Proof. by intros st a st'. Qed.

Lemma concat_map_singleton {A B} (g : A → B) (l : list A) :
  concat (map (λ x, [g x]) l) = map g l.
Proof. induction l as [|x l IH]; [done|]. cbn. by rewrite IH. Qed.

Section reservations.
Variable camelCase : string → string.
Variable hooks : Hooks.

Lemma buildRefMap_sameRegistry doc : steps sameRegistry _ (buildRefMap camelCase doc).
Proof. apply buildRefMap_structural; [apply _|apply refMapSet_sameRegistry]. Qed.

Lemma createTypesFromSchemas_reserves doc :
  reserves (map (λ name, createTypeIdentifier camelCase name "") (schemaNames doc))
           (createTypesFromSchemas camelCase doc).
Proof.
  unfold createTypesFromSchemas, schemaNames.
  destruct (components doc ≫= schemas) as [l|]; cbn [fmap option_fmap option_map default].
  - unfold id. rewrite <- (concat_map_singleton _ (map fst l)), map_map.
    apply reserves_mapM. intros entry.
    apply reserves_bind_l; [apply createTypeName_reserves|]. intros typeName.
    apply (@structural_bind (steps sameRegistry) _); [apply createType_sameRegistry|].
    intros t. apply (@structural_ret (steps sameRegistry) _).
  - apply reserves_nil, (@structural_ret (steps sameRegistry) _).
Qed.

Lemma createTypesFromRequestBodies_reserves doc :
  reserves (map (λ name, createTypeIdentifier camelCase name "RequestBody")
                (requestBodyNames doc))
           (createTypesFromRequestBodies camelCase doc).
Proof.
  unfold createTypesFromRequestBodies, requestBodyNames.
  destruct (components doc ≫= requestBodies) as [l|];
    cbn [fmap option_fmap option_map default].
  - unfold id. rewrite <- (concat_map_singleton _ (map fst l)), map_map.
    apply reserves_mapM. intros entry.
    apply reserves_bind_l; [apply createTypeName_reserves|]. intros typeName.
    apply (@structural_bind (steps sameRegistry) _); [apply createTypeOf_sameRegistry|].
    intros t. apply (@structural_ret (steps sameRegistry) _).
  - apply reserves_nil, (@structural_ret (steps sameRegistry) _).
Qed.

Lemma createOperation_reserves path shared method operation :
  reserves [createTypeIdentifier camelCase (opNameOf path method operation) ""]
           (createOperation camelCase hooks path shared method operation).
Proof.
  destruct (createOperation_reserve_first (steps sameRegistry) camelCase hooks
              warn_sameRegistry (λ s, getTypeNameFromRef_steps sameRegistry s)
              path shared method operation) as (k & -> & Hk).
  apply reserves_bind_l; [apply createTypeName_reserves|done].
Qed.

Lemma createPathItem_reserves path item :
  reserves (map (λ entry, createTypeIdentifier camelCase (opNameOf path entry.1 entry.2) "")
                (recognized item))
           (createPathItem camelCase hooks path item).
Proof.
  unfold createPathItem.
  destruct (truthyString (pathRef item)); [apply reserves_throw|].
  destruct (bool_decide (is_Some (pathServers item))); [apply reserves_throw|].
  apply reserves_bind_l; [|intros; apply (@structural_ret (steps sameRegistry) _)].
  rewrite <- concat_map_singleton. apply reserves_mapM. intros entry.
  apply createOperation_reserves.
Qed.

Lemma createEndpoints_reserves doc :
  reserves (map (λ name, createTypeIdentifier camelCase name "") (operationNames doc))
           (createEndpoints camelCase hooks doc).
Proof.
  unfold createEndpoints, operationNames.
  apply reserves_bind_l; [|intros; apply (@structural_ret (steps sameRegistry) _)].
  rewrite concat_map, map_map.
  erewrite map_ext; [apply reserves_mapM; intros entry; apply createPathItem_reserves|].
  intros [path item]. cbn. by rewrite map_map.
Qed.

(** The run that follows preprocessing and validation. *)
Lemma generate_reserves doc baseUrl text st st' :
  generate camelCase hooks doc baseUrl st = (inr text, st') →
  ∃ doc', preProcess hooks doc = inr doc'
    ∧ NoDup (reservations camelCase doc')
    ∧ (∀ id, id ∈ reservations camelCase doc' → id ∉ createdTypeNames st)
    ∧ createdTypeNames st' = list_to_set (reservations camelCase doc') ∪ createdTypeNames st.
Proof.
  unfold generate. intros (doc' & st1 & Hpre & Hrun)%bind_inr.
  unfold lift in Hpre. simplify_eq. exists doc'. split; [done|].
  revert Hrun. generalize st1 text st'.
  change (reserves (reservations camelCase doc')
            (let* _ := lift (validate hooks doc') in
             let* imports := lift (createImports hooks doc') in
             let* _ := buildRefMap camelCase doc' in
             let* fromSchemas := createTypesFromSchemas camelCase doc' in
             let* fromParameters := createTypesFromParameters doc' in
             let* fromRequestBodies := createTypesFromRequestBodies camelCase doc' in
             let* fromResponses := createTypesFromResponses doc' in
             let* requestFunction := lift (createRequestFunction hooks doc' baseUrl) in
             let* endpoints := createEndpoints camelCase hooks doc' in
             lift (prettierFormat hooks
                     (join (newline +:+ newline)
                        ([createInfoHeader doc'; imports] ++ fromSchemas ++ fromParameters
                         ++ fromRequestBodies ++ fromResponses ++ [requestFunction]
                         ++ endpoints))))).
  apply reserves_bind_r; [apply (@structural_lift (steps sameRegistry) _)|intros _].
  apply reserves_bind_r; [apply (@structural_lift (steps sameRegistry) _)|intros imports].
  apply reserves_bind_r; [apply buildRefMap_sameRegistry|intros _].
  unfold reservations.
  apply reserves_bind; [apply createTypesFromSchemas_reserves|intros fromSchemas].
  apply reserves_bind_r.
  { unfold createTypesFromParameters. destruct (_ ≫= _);
      [apply (@structural_throw (steps sameRegistry) _)
      |apply (@structural_ret (steps sameRegistry) _)]. }
  intros fromParameters.
  apply reserves_bind; [apply createTypesFromRequestBodies_reserves|intros fromRequestBodies].
  apply reserves_bind_r.
  { unfold createTypesFromResponses. destruct (_ ≫= _);
      [apply (@structural_throw (steps sameRegistry) _)
      |apply (@structural_ret (steps sameRegistry) _)]. }
  intros fromResponses.
  apply reserves_bind_r; [apply (@structural_lift (steps sameRegistry) _)|intros ?].
  apply reserves_bind_l; [apply createEndpoints_reserves|intros endpoints].
  apply (@structural_lift (steps sameRegistry) _).
Qed.
End reservations.

(** C8: a reservation of a name already reserved fails with the
    duplicate-name error, and a new name is recorded. Schemas, request
    bodies and operations reserve in one registry: when a run returns, the
    identifiers it asked for were all new and no two of them alike. So a
    run on a document in which two operations normalize to one identifier
    fails; the operation that comes second is refused with the
    duplicate-name error before anything of it is compiled. *)
Theorem C8_identifier_uniqueness (camelCase : string → string) (hooks : Hooks) :
  (∀ str suffix st,
     (createTypeIdentifier camelCase str suffix ∈ createdTypeNames st →
      createTypeName camelCase str suffix st
      = (inl (DuplicateTypeName (createTypeIdentifier camelCase str suffix) str), st))
     ∧ (createTypeIdentifier camelCase str suffix ∉ createdTypeNames st →
        ∃ st', createTypeName camelCase str suffix st
               = (inr (createTypeIdentifier camelCase str suffix), st')
               ∧ createdTypeNames st'
                 = {[createTypeIdentifier camelCase str suffix]} ∪ createdTypeNames st))
  ∧ (∀ doc baseUrl st text st',
       generate camelCase hooks doc baseUrl st = (inr text, st') →
       ∃ doc', preProcess hooks doc = inr doc'
         ∧ NoDup (reservations camelCase doc')
         ∧ (∀ id, id ∈ reservations camelCase doc' → id ∉ createdTypeNames st)
         ∧ createdTypeNames st'
           = list_to_set (reservations camelCase doc') ∪ createdTypeNames st)
  ∧ (∀ doc baseUrl st doc',
       preProcess hooks doc = inr doc' →
       ¬ NoDup (map (λ name, createTypeIdentifier camelCase name "") (operationNames doc')) →
       ∃ e, (generate camelCase hooks doc baseUrl st).1 = inl e)
  ∧ (∀ path shared method operation st,
       createTypeIdentifier camelCase (opNameOf path method operation) ""
         ∈ createdTypeNames st →
       createOperation camelCase hooks path shared method operation st
       = (inl (DuplicateTypeName
                 (createTypeIdentifier camelCase (opNameOf path method operation) "")
                 (opNameOf path method operation)), st)).
Proof.
  split_and!.
  - intros str suffix st. split; [apply createTypeName_reserved|].
    intros Hnew. destruct (createTypeName_new camelCase str suffix st Hnew)
      as (st' & Hrun & Hreg & _). eauto.
  - intros doc baseUrl st text st'. apply generate_reserves.
  - intros doc baseUrl st doc' Hpre Hdup.
    destruct (generate camelCase hooks doc baseUrl st) as [[e|text] st'] eqn:Hrun; [eauto|].
    apply generate_reserves in Hrun as (doc'' & Hpre' & Hnodup & _).
    rewrite Hpre in Hpre'. injection Hpre' as <-.
    destruct Hdup. unfold reservations in Hnodup.
    apply NoDup_app in Hnodup as (_ & _ & Hnodup1).
    by apply NoDup_app in Hnodup1 as (_ & _ & Hnodup2).
  - intros path shared method operation st Hin. unfold createOperation. cbv zeta.
    unfold bind at 1. by rewrite createTypeName_reserved.
Qed.

Lemma C8_identifier_uniqueness_witness :
  NoDup (reservations lowerFirst petDocument)
  ∧ reservations lowerFirst petDocument = ["Pet"; "GetPets"]
  ∧ (generate lowerFirst plainHooks twoGetPets None freshState).1
    = inl (DuplicateTypeName "GetPets" "getPets").
Proof.
  split; [|split; reflexivity].
  destruct (generate lowerFirst plainHooks petDocument None freshState)
    as [[e|text] st'] eqn:Hrun.
  { vm_compute in Hrun. discriminate. }
  destruct (proj1 (proj2 (C8_identifier_uniqueness lowerFirst plainHooks))
              _ _ _ _ _ Hrun) as (doc' & Hpre & Hnodup & _).
  vm_compute in Hpre. injection Hpre as <-. exact Hnodup.
Defined.

(** ** The reference table *)

Lemma setRefMap_same st : setRefMap (refMap st) st = st.
Proof. by destruct st. Qed.

Lemma recordAll_app m l1 l2 : recordAll m (l1 ++ l2) = recordAll (recordAll m l1) l2.
Proof. apply foldl_app. Qed.

(** A traversal whose callback only records references records them
    all. *)
Lemma mapM_records {A B} (f : A → M B) (r : A → B) (w : A → list (string * string)) l st :
  (∀ x st, f x st = (inr (r x), setRefMap (recordAll (refMap st) (w x)) st)) →
  mapM f l st
  = (inr (map r l), setRefMap (recordAll (refMap st) (concat (map w l))) st).
Proof.
  intros Hf. revert st. induction l as [|x l IH]; intros st.
  - cbn. unfold ret. by rewrite setRefMap_same.
  - rewrite mapM_cons. unfold bind at 1. rewrite Hf.
    unfold bind at 1. rewrite IH. unfold ret. cbn [map concat].
    rewrite recordAll_app. by destruct st.
Qed.

Lemma recordAll_other m l p : p ∉ l.*1 → recordAll m l !! p = m !! p.
Proof.
  revert m. induction l as [|[p' i'] l IH]; intros m Hp; [done|].
  cbn in *. apply not_elem_of_cons in Hp as [Hne Hp].
  rewrite IH by done. by rewrite lookup_insert_ne.
Qed.

(** The table holds, for a path, the identifier recorded for it, provided
    all that was recorded for the path is that identifier. *)
Lemma recordAll_lookup m l p i :
  (p, i) ∈ l → (∀ i', (p, i') ∈ l → i' = i) → recordAll m l !! p = Some i.
Proof.
  revert m. induction l as [|[p' i'] l IH]; intros m Hin Hfun; [by apply elem_of_nil in Hin|].
  cbn. destruct (decide ((p, i) ∈ l)) as [Hl|Hl].
  - apply IH; [done|]. intros i'' Hi''. apply Hfun. by right.
  - apply elem_of_cons in Hin as [[= <- <-]|Hin]; [|done].
    rewrite recordAll_other; [by rewrite lookup_insert_eq|].
    intros ((p'' & i'') & Heq & Hin')%list_elem_of_fmap. cbn in Heq. subst p''.
    assert (i'' = i) as -> by (apply Hfun; by right). done.
Qed.

(** What [buildRefMap] leaves: the same state, with the entries of the
    four kinds of components recorded. *)
Lemma buildRefMap_run camelCase doc st :
  buildRefMap camelCase doc st
  = (inr tt,
     match components doc with
     | None => st
     | Some components =>
         setRefMap (recordAll (refMap st)
                      (concat (map (refEntries camelCase) (componentKeys components))))
                   st
     end).
Proof.
  unfold buildRefMap. destruct (components doc) as [components|]; [|done].
  unfold bind.
  rewrite (mapM_records _ (λ entry, map (λ _, tt) entry.2) (refEntries camelCase)); [done|].
  intros entry st1. unfold refEntries.
  rewrite (mapM_records _ (λ _, tt)
             (λ refName, [("#/components/" +:+ entry.1 +:+ "/" +:+ refName,
                           createTypeIdentifier camelCase refName "")])).
  - by rewrite concat_map_singleton.
  - intros refName st2. reflexivity.
Qed.

(** A component path names its kind and its entry. *)
Lemma component_path_inj key1 key2 name1 name2 :
  key1 ∈ componentKinds → key2 ∈ componentKinds →
  "#/components/" +:+ key1 +:+ "/" +:+ name1 = "#/components/" +:+ key2 +:+ "/" +:+ name2 →
  key1 = key2 ∧ name1 = name2.
Proof.
  unfold componentKinds. intros H1 H2 Heq.
  repeat (apply elem_of_cons in H1 as [->|H1]); [..|by apply elem_of_nil in H1];
    (repeat (apply elem_of_cons in H2 as [->|H2]); [..|by apply elem_of_nil in H2]);
    cbv [String.append] in Heq; by simplify_eq.
Qed.

Lemma elem_of_refEntries camelCase components p i :
  (p, i) ∈ concat (map (refEntries camelCase) (componentKeys components)) ↔
  ∃ key names name,
    (key, names) ∈ componentKeys components ∧ name ∈ names
    ∧ p = "#/components/" +:+ key +:+ "/" +:+ name
    ∧ i = createTypeIdentifier camelCase name "".
Proof.
  change (concat ?l) with (mjoin l). rewrite list_elem_of_join. split.
  - intros (l & Hin & ([key names] & -> & Hentry)%list_elem_of_fmap).
    apply list_elem_of_fmap in Hin as (name & [= -> ->] & Hname).
    by exists key, names, name.
  - intros (key & names & name & Hentry & Hname & -> & ->).
    exists (refEntries camelCase (key, names)). split.
    + apply list_elem_of_fmap. by exists name.
    + apply list_elem_of_fmap. by exists (key, names).
Qed.

Lemma componentKeys_kind components key names :
  (key, names) ∈ componentKeys components → key ∈ componentKinds.
Proof.
  unfold componentKeys, componentKinds. intros H.
  repeat (apply elem_of_cons in H as [[= -> _]|H]); [..|by apply elem_of_nil in H];
    repeat constructor.
Qed.

(** The table after [buildRefMap]. *)
Lemma buildRefMap_lookup camelCase doc st :
  ∃ st',
    buildRefMap camelCase doc st = (inr tt, st')
    ∧ ∀ declared key names name,
        components doc = Some declared →
        (key, names) ∈ componentKeys declared → name ∈ names →
        refMap st' !! ("#/components/" +:+ key +:+ "/" +:+ name)
        = Some (createTypeIdentifier camelCase name "").
Proof.
  eexists. split; [apply buildRefMap_run|].
  intros declared key names name -> Hentry Hname. cbn.
  apply recordAll_lookup.
  - apply elem_of_refEntries. by exists key, names, name.
  - intros i' (key' & names' & name' & Hentry' & Hname' & Heq & ->)%elem_of_refEntries.
    apply component_path_inj in Heq as [_ ->];
      [done|by eapply componentKeys_kind..].
Qed.

(** C2, as the code has it: building the reference table records, for
    every entry of the four kinds of components, its path with the
    identifier the naming rule gives its name, and reserves nothing. It
    always returns, and leaves the registry, the warnings and the console
    as they were. Identifiers are reserved when the aliases are emitted: it
    is the emission of the schema aliases (or of the request-body aliases)
    that fails when two names of the kind normalize to one identifier. *)
Theorem C2_reference_table (camelCase : string → string) (doc : Document) (st : State) :
  ∃ st',
    buildRefMap camelCase doc st = (inr tt, st')
    ∧ createdTypeNames st' = createdTypeNames st
    ∧ shownWarnings st' = shownWarnings st
    ∧ console st' = console st
    ∧ (∀ declared key names name,
         components doc = Some declared →
         (key, names) ∈ componentKeys declared → name ∈ names →
         refMap st' !! ("#/components/" +:+ key +:+ "/" +:+ name)
         = Some (createTypeIdentifier camelCase name ""))
    ∧ (¬ NoDup (map (λ name, createTypeIdentifier camelCase name "") (schemaNames doc)) →
       ∃ e, (createTypesFromSchemas camelCase doc st').1 = inl e)
    ∧ (¬ NoDup (map (λ name, createTypeIdentifier camelCase name "RequestBody")
                    (requestBodyNames doc)) →
       ∃ e, (createTypesFromRequestBodies camelCase doc st').1 = inl e).
Proof.
  eexists. split; [apply buildRefMap_run|].
  split_and!.
  - by destruct (components doc).
  - by destruct (components doc).
  - by destruct (components doc).
  - destruct (buildRefMap_lookup camelCase doc st) as (st' & Hrun & Hlookup).
    rewrite buildRefMap_run in Hrun. by simplify_eq.
  - intros Hdup.
    destruct (createTypesFromSchemas camelCase doc _) as [[e|aliases] st''] eqn:Hrun;
      [eauto|].
    apply createTypesFromSchemas_reserves in Hrun as [Hnodup _]. done.
  - intros Hdup.
    destruct (createTypesFromRequestBodies camelCase doc _) as [[e|aliases] st''] eqn:Hrun;
      [eauto|].
    apply createTypesFromRequestBodies_reserves in Hrun as [Hnodup _]. done.
Qed.

Lemma C2_reference_table_witness :
  ∃ e, (createTypesFromSchemas lowerFirst twoPets
          (buildRefMap lowerFirst twoPets freshState).2).1 = inl e.
Proof.
  destruct (C2_reference_table lowerFirst twoPets freshState)
    as (st' & Hrun & _ & _ & _ & _ & Hschemas & _).
  rewrite Hrun. apply Hschemas. intros Hnodup. vm_compute in Hnodup.
  apply NoDup_cons in Hnodup as [Hnotin _]. apply Hnotin. left.
Defined.

(** C2 as stated fails: the names [pet] and [Pet] normalize to the one
    identifier [Pet]; the table is built all the same, both references
    resolve to [Pet], and nothing is reserved. *)
Lemma C2_counterexample :
  createTypeIdentifier lowerFirst "pet" "" = createTypeIdentifier lowerFirst "Pet" ""
  ∧ (buildRefMap lowerFirst twoPets freshState).1 = inr tt
  ∧ createdTypeNames (buildRefMap lowerFirst twoPets freshState).2 = ∅
  ∧ refMap (buildRefMap lowerFirst twoPets freshState).2 !! "#/components/schemas/pet"
    = Some "Pet"
  ∧ refMap (buildRefMap lowerFirst twoPets freshState).2 !! "#/components/schemas/Pet"
    = Some "Pet".
Proof. split_and!; by vm_compute. Qed.

(** ** References to components *)

(** Once the table is built, a reference to a component compiles to the
    identifier of the component's name, without suffix, whatever the kind
    of the component. *)
Lemma createType_component_reference camelCase doc st declared key names name :
  components doc = Some declared →
  (key, names) ∈ componentKeys declared → name ∈ names →
  (createType (reference ("#/components/" +:+ key +:+ "/" +:+ name))
              (buildRefMap camelCase doc st).2).1
  = inr (createTypeIdentifier camelCase name "").
Proof.
  intros Hdoc Hentry Hname.
  destruct (buildRefMap_lookup camelCase doc st) as (st' & Hrun & Hlookup).
  rewrite Hrun. cbn [snd].
  specialize (Hlookup declared key names name Hdoc Hentry Hname).
  rewrite createType_eq. unfold beforeSwitch.
  change (isRef (reference ?r)) with (truthyString (Some r)).
  change ("#/components/" +:+ key +:+ "/" +:+ name)
    with (String "#" ("/components/" +:+ key +:+ "/" +:+ name)) at 1.
  cbn [truthyString]. unfold getTypeNameFromRef.
  change (ref (reference ?r)) with (Some r). cbv beta iota. by rewrite Hlookup.
Qed.

(** The alias of a component request body is named with the suffix
    [RequestBody]; a reference to the request body is not. *)
Lemma createTypesFromRequestBodies_alias camelCase doc st aliases st' :
  createTypesFromRequestBodies camelCase doc st = (inr aliases, st') →
  Forall2 (λ name alias,
             ∃ t, alias = createTypeAlias
                            (createTypeIdentifier camelCase name "RequestBody") t)
          (requestBodyNames doc) aliases.
Proof.
  unfold createTypesFromRequestBodies, requestBodyNames.
  destruct (components doc ≫= requestBodies) as [l|];
    cbn [fmap option_fmap option_map default]; unfold id.
  - revert st aliases. induction l as [|[name body] l IH]; intros st aliases.
    + cbn. unfold ret. intros [= <- <-]. constructor.
    + rewrite mapM_cons.
      intros (alias & st1 & Halias & (rest & st2 & Hrest & H)%bind_inr)%bind_inr.
      unfold ret in H. simplify_eq. cbn [map fst]. constructor; [|by eapply IH].
      apply bind_inr in Halias as (typeName & st3 & Hname & Halias).
      apply bind_inr in Halias as (t & st4 & _ & Halias).
      unfold ret in Halias. simplify_eq. exists t. f_equal.
      unfold createTypeName in Hname. case_decide; by simplify_eq.
  - unfold ret. intros [= <- <-]. constructor.
Qed.

(** C1 fails on the code: the operation [addPet] refers to the component
    request body [pet]. The run succeeds; the alias emitted for the request
    body is [PetRequestBody], the reference compiles to [Pet], and no
    [Pet] is declared. *)
Theorem C1_request_body_reference :
  (generate lowerFirst plainHooks addPetDocument None freshState).1
  = inr (join (newline +:+ newline)
           [ createInfoHeader addPetDocument;
             "/* imports */";
             createTypeAlias "PetRequestBody" "string";
             "/* request */";
             createNamespace "AddPet" [createTypeAlias "RequestBody" "Pet"];
             "/* addPet */" ]).
Proof. by vm_compute. Qed.

(** ** The operations of a document *)

#[local] Instance readsReferences_structural : Structural readsReferences.
Proof.
  split.
  - by intros A a st1 st2 H.
  - by intros A e st1 st2 H.
  - intros A B m k Hm Hk st1 st2 H. unfold bind.
    destruct (Hm st1 st2 H) as [Hr Hst].
    destruct (m st1) as [[e1|a1] st1'], (m st2) as [[e2|a2] st2'];
      cbn in Hr, Hst; simplify_eq; [done|].
    by apply Hk.
Qed.

(** The type a schema compiles to depends on the reference table only. *)
Lemma createType_readsReferences s : readsReferences _ (createType s).
Proof.
  apply createType_structural; [apply _| |].
  - intros key st1 st2 H. split; [by rewrite !warn_inr|].
    unfold warn. by do 2 case_decide.
  - intros s' st1 st2 H. unfold getTypeNameFromRef. rewrite H.
    destruct (ref s'); [destruct (refMap st2 !! _)|]; by split.
Qed.

#[local] Instance sameReferences_preorder : PreOrder sameReferences.
Proof.
  split; [by intros st|]. intros st1 st2 st3 H1 H2. unfold sameReferences in *. congruence.
Qed.

Lemma createOperation_sameReferences camelCase hooks path shared method operation :
  steps sameReferences _ (createOperation camelCase hooks path shared method operation).
Proof.
  apply createOperation_structural.
  - apply _.
  - intros key st. unfold sameReferences, warn. by case_decide.
  - intros s. apply getTypeNameFromRef_steps, _.
  - intros str suffix st. unfold sameReferences, createTypeName. by case_decide.
Qed.

Lemma createPathItem_sameReferences camelCase hooks path item :
  steps sameReferences _ (createPathItem camelCase hooks path item).
Proof.
  apply createPathItem_structural.
  - apply _.
  - intros key st. unfold sameReferences, warn. by case_decide.
  - intros s. apply getTypeNameFromRef_steps, _.
  - intros str suffix st. unfold sameReferences, createTypeName. by case_decide.
Qed.

(** What a traversal returns holds what its callback returned on each
    element, in a state the traversal reached. *)
Lemma mapM_inr_steps {A B} (R : State → State → Prop) `{!PreOrder R}
    (f : A → M B) l st ys st' x :
  (∀ x, steps R _ (f x)) → mapM f l st = (inr ys, st') → x ∈ l →
  ∃ st1 y st2, R st st1 ∧ f x st1 = (inr y, st2) ∧ y ∈ ys.
Proof.
  intros Hsteps. revert st ys st'.
  induction l as [|x' l IH]; intros st ys st'; [by intros _ ?%elem_of_nil|].
  rewrite mapM_cons. intros (y & st1 & Hx & H)%bind_inr.
  apply bind_inr in H as (ys' & st2 & Hl & Hret). unfold ret in Hret.
  injection Hret as <- <-.
  intros [->|Hin]%elem_of_cons.
  - exists st, y, st1. split_and!; [reflexivity|done|left].
  - destruct (IH _ _ _ Hl Hin) as (sta & y' & stb & Hsta & Hrun & Hy').
    exists sta, y', stb. split_and!; [|done|by right].
    etrans; [|exact Hsta]. specialize (Hsteps x' st). by rewrite Hx in Hsteps.
Qed.

Lemma elem_of_concat {A} (x : A) (ls : list (list A)) :
  x ∈ concat ls ↔ ∃ l, x ∈ l ∧ l ∈ ls.
Proof.
  induction ls as [|l' ls IH]; cbn [concat].
  - split; [by intros ?%elem_of_nil|]. by intros (l & _ & ?%elem_of_nil).
  - rewrite elem_of_app, IH. split.
    + intros [Hx|(l & Hx & Hl)]; [exists l'; split; [done|left]|].
      exists l. split; [done|by right].
    + intros (l & Hx & [->|Hl]%elem_of_cons); [by left|right; by exists l].
Qed.

(** Every operation of a document under a method the generator handles is
    handed to the callback, with the parameters of its path, and what the
    callback returns is pushed. *)
Lemma createEndpoints_operations camelCase hooks doc st out st'
    path item method operation :
  createEndpoints camelCase hooks doc st = (inr out, st') →
  (path, item) ∈ paths doc → (method, operation) ∈ recognized item →
  ∃ st1 statements st2,
    refMap st1 = refMap st
    ∧ createOperation camelCase hooks path (default [] (sharedParameters item))
        method operation st1 = (inr statements, st2)
    ∧ ∀ x, x ∈ statements → x ∈ out.
Proof.
  unfold createEndpoints. intros (pushed & sta & Hpushed & Hret)%bind_inr Hitem Hop.
  unfold ret in Hret. injection Hret as <- <-.
  destruct (mapM_inr_steps sameReferences _ _ _ _ _ (path, item)
              (λ entry, createPathItem_sameReferences camelCase hooks entry.1 entry.2)
              Hpushed Hitem) as (stb & y & stc & Hstb & Hrun & Hy).
  cbn [fst snd] in Hrun. unfold createPathItem in Hrun.
  destruct (truthyString (pathRef item)); [done|].
  destruct (bool_decide (is_Some (pathServers item))); [done|].
  apply bind_inr in Hrun as (pushedOps & std & Hops & Hret).
  unfold ret in Hret. injection Hret as <- <-.
  destruct (mapM_inr_steps sameReferences _ _ _ _ _ (method, operation)
              (λ entry, createOperation_sameReferences camelCase hooks path
                          (default [] (sharedParameters item)) entry.1 entry.2)
              Hops Hop) as (st1 & statements & st2 & Hst1 & Hrun1 & Hstatements).
  exists st1, statements, st2. split_and!; [|done|].
  - unfold sameReferences in *. congruence.
  - intros x Hx. apply elem_of_concat.
    eexists. split; [|exact Hy]. apply elem_of_app. right.
    apply elem_of_concat. by exists statements.
Qed.

(** The steps of the callback, when it returns. *)
Lemma createOperation_inr camelCase hooks path shared method operation st out st' :
  createOperation camelCase hooks path shared method operation st = (inr out, st') →
  ∃ st1 groups parameterTypes stp responseTypes str requestBodyTypes endpoint before,
    refMap st1 = refMap st
    ∧ groupParameters [] (shared ++ default [] (parameters operation)) = inr groups
    ∧ mapM (λ entry : string * Schema,
              let* typeDefinition := createType entry.2 in
              ret (createTypeAlias
                     (createTypeIdentifier camelCase (entry.1 +:+ "Parameters") "")
                     typeDefinition))
           groups st1 = (inr parameterTypes, stp)
    ∧ sameTables st1 stp
    ∧ match responses operation with
      | None => responseTypes = []
      | Some rs =>
          ∃ definitions,
            createResponseTypes rs stp = (inr definitions, str)
            ∧ responseTypes
              = [createNamespace (createTypeIdentifier camelCase "Response" "")
                   [ createTypeAlias "Success" definitions.1;
                     createTypeAlias "Error" definitions.2 ]]
      end
    ∧ sameTables stp str
    ∧ match requestBody operation with
      | None => requestBodyTypes = []
      | Some body =>
          ∃ types,
            mapM createTypeOf (getRequestBodySchemas body) str = (inr types, st')
            ∧ requestBodyTypes
              = [createTypeAlias (createTypeIdentifier camelCase "RequestBody" "")
                   (createTypeUnion types)]
      end
    ∧ createEndpoint hooks
        (mkEndpointInfo
           (createOperationName camelCase (opNameOf path method operation)) method path
           (fold_left
              (λ acc entry, jsSet (fst entry) ["type"; "required"; "properties"] acc)
              groups [])
           (bool_decide (is_Some (requestBody operation)))
           match requestBody operation with
           | None => []
           | Some _ => jsSet "Content-Type" "application/json" []
           end
           "json"
           (createTypeIdentifier camelCase (opNameOf path method operation) ""))
      = inr endpoint
    ∧ out = before
              ++ [createNamespace
                    (createTypeIdentifier camelCase (opNameOf path method operation) "")
                    (parameterTypes ++ responseTypes ++ requestBodyTypes);
                  endpoint].
Proof.
  unfold createOperation. cbv zeta.
  intros (typeName & st1 & Hname & Hrun)%bind_inr.
  apply bind_inr in Hrun as (groups & st2 & Hgroups & Hrun).
  apply bind_inr in Hrun as (parameterTypes & stp & Hparameters & Hrun).
  apply bind_inr in Hrun as (responseTypes & str & Hresponses & Hrun).
  apply bind_inr in Hrun as (requestBodyTypes & stb & Hbodies & Hrun).
  apply bind_inr in Hrun as (endpoint & ste & Hendpoint & Hrun).
  unfold ret in Hrun. unfold lift in Hgroups, Hendpoint.
  injection Hgroups as Hgroups <-. injection Hendpoint as Hendpoint <-.
  injection Hrun as <- <-.
  assert (refMap st1 = refMap st
          ∧ typeName = createTypeIdentifier camelCase (opNameOf path method operation) "")
    as [Hrefs ->].
  { unfold createTypeName in Hname. case_decide; [done|]. by simplify_eq. }
  exists st1, groups, parameterTypes, stp, responseTypes, str, requestBodyTypes,
    endpoint.
  eexists. split_and!; [done|done|exact Hparameters| | | | |exact Hendpoint|reflexivity].
  - assert (Hsteps : steps sameTables _
              (mapM (λ entry : string * Schema,
                       let* typeDefinition := createType entry.2 in
                       ret (createTypeAlias
                              (createTypeIdentifier camelCase (entry.1 +:+ "Parameters") "")
                              typeDefinition)) groups)).
    { sapply @structural_mapM. apply Forall_forall. intros entry _.
      sapply @structural_bind; [apply createType_sameTables|intros ?].
      sapply @structural_ret. }
    specialize (Hsteps st1). rewrite Hparameters in Hsteps. exact Hsteps.
  - destruct (responses operation) as [rs|]; [|unfold ret in Hresponses; by simplify_eq].
    apply bind_inr in Hresponses as (definitions & std & Hdefinitions & Hret).
    unfold ret in Hret. injection Hret as <- <-. by exists definitions.
  - destruct (responses operation) as [rs|];
      [|unfold ret in Hresponses; by injection Hresponses as _ <-].
    apply bind_inr in Hresponses as (definitions & std & Hdefinitions & Hret).
    unfold ret in Hret. injection Hret as _ <-.
    pose proof (createResponseTypes_structural (steps sameTables) warn_sameTables
                  (λ s, getTypeNameFromRef_steps sameTables s) rs stp) as Hsteps.
    rewrite Hdefinitions in Hsteps. exact Hsteps.
  - destruct (requestBody operation) as [body|]; [|unfold ret in Hbodies; by simplify_eq].
    apply bind_inr in Hbodies as (types & stt & Htypes & Hret).
    unfold ret in Hret. injection Hret as <- <-. by exists types.
Qed.

(** ** Response groups of an operation *)

Lemma startsWith_char c code :
  startsWith code (String c "") = true ↔ ∃ rest, code = String c "" +:+ rest.
Proof.
  unfold startsWith. destruct code as [|c' rest]; cbn.
  - split; [done|]. by intros [? ?].
  - destruct (ascii_dec c c') as [->|Hne].
    + split; [eauto|]. by destruct rest.
    + split; [done|]. intros [? [=]]. done.
Qed.

Lemma contribution_sameReferences st1 st2 placeholder r ts :
  refMap st1 = refMap st2 →
  contribution st1 placeholder r ts → contribution st2 placeholder r ts.
Proof.
  intros H. unfold contribution. destruct (content r); [|done].
  intros Hc. eapply Forall2_impl; [exact Hc|]. cbn.
  intros mediaType t (s & -> & Hs). exists s. split; [done|].
  by rewrite <- (proj1 (createType_readsReferences s st1 st2 H)).
Qed.

(** C6: for every operation of a document with responses, under a method
    the generator handles, the namespace pushed for the operation holds a
    namespace [Response] with the aliases [Success] and [Error]. Status
    codes starting with [2] make up the success group, the code [default]
    and those starting with [4] or [5] the error group. A response without
    content contributes the placeholder of its group, one with content a
    compiled type per media type; [Success] and [Error] are the unions of
    the contributions, and a group that contributes nothing, one without
    entries above all, is the placeholder alone. *)
Theorem C6_response_grouping (camelCase : string → string) (hooks : Hooks)
    (doc : Document) (st : State) (out : list string) (st' : State) :
  createEndpoints camelCase hooks doc st = (inr out, st') →
  (∀ code, isSuccessCode code = true ↔ ∃ rest, code = "2" +:+ rest)
  ∧ (∀ code, isErrorCode code = true ↔
             code = "default" ∨ (∃ rest, code = "4" +:+ rest) ∨ (∃ rest, code = "5" +:+ rest))
  ∧ ∀ path item method operation rs,
      (path, item) ∈ paths doc → (method, operation) ∈ recognized item →
      responses operation = Some rs →
      ∃ successes errors parameterTypes requestBodyTypes,
        Forall2 (λ entry ts, contribution st "void" entry.2 ts)
                (filter (λ entry, isSuccessCode entry.1) rs) successes
        ∧ Forall2 (λ entry ts, contribution st "unknown" entry.2 ts)
                  (filter (λ entry, isErrorCode entry.1) rs) errors
        ∧ createNamespace
            (createTypeIdentifier camelCase (opNameOf path method operation) "")
            (parameterTypes
               ++ [createNamespace (createTypeIdentifier camelCase "Response" "")
                     [ createTypeAlias "Success"
                         (unionOrPlaceholder "void" (concat successes));
                       createTypeAlias "Error"
                         (unionOrPlaceholder "unknown" (concat errors)) ]]
               ++ requestBodyTypes)
          ∈ out
        ∧ ((∀ entry, entry ∈ rs → isSuccessCode entry.1 = false) →
           unionOrPlaceholder "void" (concat successes) = "void")
        ∧ ((∀ entry, entry ∈ rs → isErrorCode entry.1 = false) →
           unionOrPlaceholder "unknown" (concat errors) = "unknown").
Proof.
  intros Hrun. split; [|split].
  - intros code. apply startsWith_char.
  - intros code. unfold isErrorCode.
    rewrite !orb_true_iff, !startsWith_char, String.eqb_eq. tauto.
  - intros path item method operation rs Hitem Hop Hrs.
    destruct (createEndpoints_operations _ _ _ _ _ _ _ _ _ _ Hrun Hitem Hop)
      as (st1 & statements & st2 & Hrefs & Hrun1 & Hout).
    apply createOperation_inr in Hrun1
      as (st1' & groups & parameterTypes & stp & responseTypes & str & requestBodyTypes
          & endpoint & before & Hrefs1 & _ & _ & [_ Hsame] & Hresponses & _ & _ & _ & ->).
    rewrite Hrs in Hresponses. destruct Hresponses as ([success error] & Hdefs & ->).
    apply createResponseTypes_inr in Hdefs
      as (_ & _ & successes & errors & Hsuccesses & Herrors & -> & -> & Hvoid & Hunknown).
    assert (refMap stp = refMap st) as Hstp by congruence.
    exists successes, errors, parameterTypes, requestBodyTypes. split_and!.
    + eapply Forall2_impl; [exact Hsuccesses|]. cbn. intros ? ?.
      by apply contribution_sameReferences.
    + eapply Forall2_impl; [exact Herrors|]. cbn. intros ? ?.
      by apply contribution_sameReferences.
    + apply Hout, elem_of_app. right. left.
    + done.
    + done.
Qed.

Lemma C6_response_grouping_witness :
  ∃ successes errors parameterTypes requestBodyTypes,
    Forall2 (λ entry ts, contribution freshState "void" entry.2 ts)
            (filter (λ entry, isSuccessCode entry.1) petResponses) successes
    ∧ Forall2 (λ entry ts, contribution freshState "unknown" entry.2 ts)
              (filter (λ entry, isErrorCode entry.1) petResponses) errors
    ∧ createNamespace
        (createTypeIdentifier lowerFirst (opNameOf "/pets" "get" listPets) "")
        (parameterTypes
           ++ [createNamespace (createTypeIdentifier lowerFirst "Response" "")
                 [ createTypeAlias "Success"
                     (unionOrPlaceholder "void" (concat successes));
                   createTypeAlias "Error"
                     (unionOrPlaceholder "unknown" (concat errors)) ]]
           ++ requestBodyTypes)
      ∈ listPetsStatements
    ∧ ((∀ entry, entry ∈ petResponses → isSuccessCode entry.1 = false) →
       unionOrPlaceholder "void" (concat successes) = "void")
    ∧ ((∀ entry, entry ∈ petResponses → isErrorCode entry.1 = false) →
       unionOrPlaceholder "unknown" (concat errors) = "unknown").
Proof.
  apply (proj2 (proj2 (C6_response_grouping lowerFirst plainHooks listPetsDocument
                         freshState listPetsStatements
                         (createEndpoints lowerFirst plainHooks listPetsDocument
                            freshState).2 eq_refl))
           "/pets" listPetsItem "get" listPets petResponses);
    [left|vm_compute; left|reflexivity].
Defined.

(** ** Parameter groups of an operation *)

Lemma jsSet_keys {A} (k k' : string) (v : A) (o : list (string * A)) :
  k' ∈ (jsSet k v o).*1 ↔ k' = k ∨ k' ∈ o.*1.
Proof.
  unfold jsSet, jsHas. case_bool_decide as Hhas.
  - rewrite jsReplace_keys. split; [by right|]. intros [->|H]; [|done].
    destruct (decide (k ∈ o.*1)) as [|Hnotin]; [done|].
    apply jsGet_None in Hnotin. rewrite Hnotin in Hhas. by destruct Hhas.
  - rewrite jsAdd_keys. apply elem_of_cons.
Qed.

(** An assignment to [__proto__] sets no property of its own. *)
Lemma addParameter_noProto groups p groups' :
  wellGrouped groups → noProto groups → addParameter groups p = inr groups' →
  noProto groups'.
Proof.
  intros Hwell Hno. unfold addParameter. destruct (inherited (p_in p)); [done|].
  intros [= <-] location g Hin.
  apply elem_of_jsGet in Hin; [|apply jsSet_NoDup, Hwell].
  rewrite jsGet_jsSet in Hin.
  destruct (String.eqb_spec (p_in p) location) as [<-|Hne].
  - injection Hin as <-. cbn [properties parameterGroup default].
    assert ("__proto__" ∉ (default [] (properties (default (parameterGroup [] [])
                                                     (jsGet (p_in p) groups)))).*1)
      as Hbase.
    { destruct (jsGet (p_in p) groups) as [group|] eqn:Hget.
      - apply jsGet_elem_of in Hget. by apply Hno in Hget.
      - cbn. apply not_elem_of_nil. }
    destruct (String.eqb_spec (p_name p) "__proto__") as [|Hname]; [exact Hbase|].
    unfold id. rewrite jsSet_keys. intros [Heq|Hin']; [congruence|done].
  - apply jsGet_elem_of in Hin. by eapply Hno.
Qed.

Lemma groupParameters_noProto groups l groups' :
  wellGrouped groups → noProto groups → groupParameters groups l = inr groups' →
  noProto groups'.
Proof.
  revert groups. induction l as [|p l IH]; intros groups Hwell Hno; cbn [groupParameters].
  - by intros [= <-].
  - destruct (addParameter groups p) as [e|groups1] eqn:Hadd; [done|].
    apply IH.
    + by apply addParameter_inr in Hadd as [? _].
    + by eapply addParameter_noProto.
Qed.

Lemma createObjectTypeProperty_oblivious name schema required :
  oblivious _ (createObjectTypeProperty name schema required).
Proof.
  unfold createObjectTypeProperty, createObjectTypeProperty_.
  destruct schema as [s|]; [|sapply @structural_throw].
  do 3 (sapply @structural_bind;
        [sapply @structural_when; apply warn_oblivious|intros _]).
  sapply @structural_bind; [apply createType_oblivious|intros t].
  sapply @structural_ret.
Qed.

Lemma createObjectTypeProperty_sameTables name schema required :
  steps sameTables _ (createObjectTypeProperty name schema required).
Proof.
  unfold createObjectTypeProperty, createObjectTypeProperty_.
  destruct schema as [s|]; [|sapply @structural_throw].
  do 3 (sapply @structural_bind;
        [sapply @structural_when; apply warn_sameTables|intros _]).
  sapply @structural_bind; [apply createType_sameTables|intros t].
  sapply @structural_ret.
Qed.

(** The member of a property is typed by what its schema compiles to. *)
Lemma createObjectTypeProperty_typed name schema required st member :
  (createObjectTypeProperty name schema required st).1 = inr member →
  memberTyped st name schema member.
Proof.
  destruct schema as [s|]; [|done].
  rewrite createObjectTypeProperty_result. unfold bind, ret.
  destruct (createType s st) as [[e|t] st1] eqn:Hs; cbn; [done|].
  intros [= <-]. exists s, t. rewrite Hs. split_and!; [done..|].
  destruct required; [left|right]; reflexivity.
Qed.

Lemma createType_parameterGroup_typed requiredNames declared st text :
  (createType (parameterGroup requiredNames declared) st).1 = inr text →
  ∃ members,
    text = join newline ["{"; join "," members; "}"]
    ∧ Forall2 (λ p member, memberTyped st p.1 p.2 member) declared members.
Proof.
  change (createType (parameterGroup requiredNames declared))
    with (createObjectType (parameterGroup requiredNames declared)).
  unfold createObjectType, createObjectType_.
  cbn [parameterGroup properties required additionalProperties default].
  fold createObjectTypeProperty. unfold bind at 1.
  destruct (mapM _ declared st) as [[e|members] st1] eqn:Hmembers; [done|].
  unfold ret. cbn. intros [= <-]. exists members. split; [done|].
  apply mapM_oblivious_inr in Hmembers as [Hmembers _].
  - eapply Forall2_impl; [exact Hmembers|]. cbn. intros p member.
    apply createObjectTypeProperty_typed.
  - intros p. apply createObjectTypeProperty_oblivious.
  - intros p. apply createObjectTypeProperty_sameTables.
Qed.

Lemma memberTyped_sameReferences st1 st2 name schema member :
  refMap st1 = refMap st2 →
  memberTyped st1 name schema member → memberTyped st2 name schema member.
Proof.
  intros H (s & t & -> & Ht & Hmember). exists s, t. split_and!; [done| |done].
  by rewrite <- (proj1 (createType_readsReferences s st1 st2 H)).
Qed.

(** C5, as the code has it: for every operation of a document, under a
    method the generator handles, the parameters of the path and of the
    operation are concatenated, those of the path first, and grouped by
    location in an object keyed by name. The namespace pushed for the
    operation starts with one alias per location, named after the
    location, of an object type that has one member per name: the member
    is typed by the schema of the last parameter of that location and
    name, the operation's when both levels declare it. *)
Theorem C5_parameter_merging (camelCase : string → string) (hooks : Hooks)
    (doc : Document) (st : State) (out : list string) (st' : State) :
  createEndpoints camelCase hooks doc st = (inr out, st') →
  ∀ path item method operation,
    (path, item) ∈ paths doc → (method, operation) ∈ recognized item →
    ∃ groups parameterTypes rest,
      groupParameters []
        (default [] (sharedParameters item) ++ default [] (parameters operation))
      = inr groups
      ∧ wellGrouped groups
      ∧ (∀ location name, name ≠ "__proto__" →
           groupMember groups location name
           = p_schema <$> lastParameter location name
                            (default [] (sharedParameters item)
                               ++ default [] (parameters operation)))
      ∧ (∀ location name p, name ≠ "__proto__" →
           lastParameter location name (default [] (parameters operation)) = Some p →
           groupMember groups location name = Some (p_schema p))
      ∧ createNamespace
          (createTypeIdentifier camelCase (opNameOf path method operation) "")
          (parameterTypes ++ rest)
        ∈ out
      ∧ Forall2 (λ group alias,
                   ∃ text,
                     alias = createTypeAlias
                               (createTypeIdentifier camelCase
                                  (group.1 +:+ "Parameters") "")
                               text
                     ∧ locationType st
                         (default [] (sharedParameters item)
                            ++ default [] (parameters operation))
                         group text)
                groups parameterTypes.
Proof.
  intros Hrun path item method operation Hitem Hop.
  destruct (createEndpoints_operations _ _ _ _ _ _ _ _ _ _ Hrun Hitem Hop)
    as (st1 & statements & st2 & Hrefs & Hrun1 & Hout).
  apply createOperation_inr in Hrun1
    as (st1' & groups & parameterTypes & stp & responseTypes & str & requestBodyTypes
        & endpoint & before & Hrefs1 & Hgroups & Hparameters & _ & _ & _ & _ & _ & ->).
  set (allParameters := default [] (sharedParameters item)
                          ++ default [] (parameters operation)) in *.
  pose proof (groupParameters_noProto _ _ _ wellGrouped_nil
                (λ location group (H : (location, group) ∈ []),
                   False_ind _ (proj1 (elem_of_nil _) H)) Hgroups) as Hno.
  pose proof Hgroups as [Hwell Hmember]%groupParameters_inr; [|apply wellGrouped_nil].
  assert (Hlast : ∀ location name, name ≠ "__proto__" →
            groupMember groups location name
            = p_schema <$> lastParameter location name allParameters).
  { intros location name Hname. rewrite Hmember by done.
    by destruct (lastParameter _ _ _). }
  exists groups, parameterTypes, (responseTypes ++ requestBodyTypes).
  split_and!; [done|done|done| | |].
  - intros location name p Hname Hown. rewrite Hlast by done. unfold allParameters.
    by rewrite (lastParameter_app _ _ _ _ p Hown).
  - apply Hout, elem_of_app. right. left.
  - apply mapM_oblivious_inr in Hparameters as [Hparameters _].
    + apply Forall2_same_length_lookup. apply Forall2_same_length_lookup in Hparameters
        as [Hlength Hparameters].
      split; [done|]. intros i [location group] alias Hgroup Halias.
      specialize (Hparameters i _ _ Hgroup Halias). cbn [fst snd] in *.
      apply list_elem_of_lookup_2 in Hgroup.
      destruct Hwell as [Hkeys Hshape].
      destruct (Hshape location group Hgroup) as (requiredNames & declared & -> & Hnames).
      unfold bind, ret in Hparameters.
      destruct (createType (parameterGroup requiredNames declared) st1')
        as [[e|text] stx] eqn:Hcompile; [done|].
      cbn in Hparameters. injection Hparameters as <-.
      exists text. split; [done|].
      destruct (createType_parameterGroup_typed requiredNames declared st1' text)
        as (members & -> & Hmembers); [by rewrite Hcompile|].
      exists members. split; [done|]. cbn [fst snd properties parameterGroup default].
      apply Forall2_same_length_lookup. apply Forall2_same_length_lookup in Hmembers
        as [Hlength' Hmembers].
      split; [done|]. intros j [name schema] member Hproperty Hmemberj.
      specialize (Hmembers j _ _ Hproperty Hmemberj). cbn [fst snd] in *.
      apply list_elem_of_lookup_2 in Hproperty.
      assert (name ≠ "__proto__") as Hname.
      { intros ->. apply (Hno location _ Hgroup). cbn.
        apply list_elem_of_fmap. by exists ("__proto__", schema). }
      specialize (Hlast location name Hname). unfold groupMember in Hlast.
      rewrite (elem_of_jsGet _ _ _ Hkeys Hgroup) in Hlast.
      change (jsGet name (default [] (properties (parameterGroup requiredNames declared))))
        with (jsGet name declared) in Hlast.
      rewrite (elem_of_jsGet _ _ _ Hnames Hproperty) in Hlast.
      destruct (lastParameter location name allParameters) as [p|]; [|done].
      injection Hlast as ->. exists p. split; [done|].
      apply (memberTyped_sameReferences st1'); [congruence|done].
    + intros entry. sapply @structural_bind; [apply createType_oblivious|intros ?].
      sapply @structural_ret.
    + intros entry. sapply @structural_bind; [apply createType_sameTables|intros ?].
      sapply @structural_ret.
Qed.

Lemma C5_parameter_merging_witness :
  ∃ groups parameterTypes rest,
    groupParameters []
      (default [] (sharedParameters getPetItem) ++ default [] (parameters getPet))
    = inr groups
    ∧ wellGrouped groups
    ∧ (∀ location name, name ≠ "__proto__" →
         groupMember groups location name
         = p_schema <$> lastParameter location name
                          (default [] (sharedParameters getPetItem)
                             ++ default [] (parameters getPet)))
    ∧ (∀ location name p, name ≠ "__proto__" →
         lastParameter location name (default [] (parameters getPet)) = Some p →
         groupMember groups location name = Some (p_schema p))
    ∧ createNamespace
        (createTypeIdentifier lowerFirst (opNameOf "/pets/{id}" "get" getPet) "")
        (parameterTypes ++ rest)
      ∈ getPetStatements
    ∧ Forall2 (λ group alias,
                 ∃ text,
                   alias = createTypeAlias
                             (createTypeIdentifier lowerFirst
                                (group.1 +:+ "Parameters") "")
                             text
                   ∧ locationType freshState
                       (default [] (sharedParameters getPetItem)
                          ++ default [] (parameters getPet))
                       group text)
              groups parameterTypes.
Proof.
  apply (C5_parameter_merging lowerFirst plainHooks getPetDocument freshState
           getPetStatements
           (createEndpoints lowerFirst plainHooks getPetDocument freshState).2
           eq_refl "/pets/{id}" getPetItem "get" getPet);
    [left|vm_compute; left].
Defined.

(** ** Remarks *)

(** The state a run leaves is not a fresh one: in the same process a second
    run on the same document is refused its first identifier. *)
Remark second_run_is_not_fresh :
  (generate lowerFirst plainHooks petDocument None
     (generate lowerFirst plainHooks petDocument None freshState).2).1
  = inl (DuplicateTypeName "Pet" "pet").
Proof. by vm_compute. Qed.

(** An ignored keyword still counts as a key of its schema: a schema
    given as [additionalProperties] whose only key is [deprecated] is not
    the empty schema. *)
Remark ignored_keyword_is_a_key :
  (createType (withAdditionalProperties (inr (withoutKeyword Deprecated deprecatedOnly))
                 closedObject) freshState).1
  = inr "Record<string, unknown>"
  ∧ (createType (withAdditionalProperties (inr deprecatedOnly) closedObject) freshState).1
    = inl (UnknownScalarType None).
Proof. split; by vm_compute. Qed.

(** * Further properties *)

(** ** Scalars *)

Lemma typeIs_true s t : typeIs s t = true ↔ type s = Some t.
Proof. unfold typeIs. apply bool_decide_eq_true. Qed.

Lemma typeIs_false s t : typeIs s t = false ↔ type s ≠ Some t.
Proof. unfold typeIs. apply bool_decide_eq_false. Qed.

Lemma createType_switch_run s st :
  reachesSwitch s →
  ∃ st1, createType s st = switchOnType s st1
         ∧ sameTables st st1 ∧ warningsGrow st st1.
Proof.
  intros Hswitch. rewrite (createType_reachesSwitch s Hswitch).
  do 2 rewrite bind_when_warn. eexists. split; [reflexivity|]. split.
  - etrans; apply when_warn_sameTables.
  - etrans; apply when_warn_warningsGrow.
Qed.

(** What [createScalarType] does with each type. *)
Lemma createScalarType_run s st :
  createScalarType s st =
  (if bool_decide (hasPrimitiveType s)
   then (createScalarType s st).1
   else inl (match enum_ s with
             | Some _ => UnknownEnumType (type s)
             | None => UnknownScalarType (type s)
             end),
   st)
  ∧ (bool_decide (hasPrimitiveType s) = true →
     ∃ t, (createScalarType s st).1 = inr t).
Proof.
  unfold createScalarType, createEnumType.
  destruct (typeIs s "boolean") eqn:Hb; [apply typeIs_true in Hb|apply typeIs_false in Hb].
  { rewrite (bool_decide_eq_true_2 (hasPrimitiveType s)) by (unfold hasPrimitiveType, primitiveTypes; rewrite Hb; cbn; repeat constructor).
    destruct (enum_ s); cbn; rewrite ?orb_true_l; eauto. }
  destruct (typeIs s "integer") eqn:Hi; [apply typeIs_true in Hi|apply typeIs_false in Hi].
  { rewrite (bool_decide_eq_true_2 (hasPrimitiveType s)) by (unfold hasPrimitiveType, primitiveTypes; rewrite Hi; cbn; repeat constructor).
    destruct (enum_ s); cbn; rewrite ?orb_true_l, ?orb_true_r; eauto. }
  destruct (typeIs s "number") eqn:Hn; [apply typeIs_true in Hn|apply typeIs_false in Hn].
  { rewrite (bool_decide_eq_true_2 (hasPrimitiveType s)) by (unfold hasPrimitiveType, primitiveTypes; rewrite Hn; cbn; repeat constructor).
    destruct (enum_ s); cbn; rewrite ?orb_true_l, ?orb_true_r; eauto. }
  destruct (typeIs s "string") eqn:Hs; [apply typeIs_true in Hs|apply typeIs_false in Hs].
  { rewrite (bool_decide_eq_true_2 (hasPrimitiveType s)) by (unfold hasPrimitiveType, primitiveTypes; rewrite Hs; cbn; repeat constructor).
    destruct (enum_ s); cbn; eauto. }
  rewrite (bool_decide_eq_false_2 (hasPrimitiveType s)).
  - split; [by destruct (enum_ s)|done].
  - unfold hasPrimitiveType, primitiveTypes. cbn. intros Hp.
    repeat (apply elem_of_cons in Hp as [Hp|Hp]); [done..|by apply elem_of_nil in Hp].
Qed.

(** X1: a schema that is neither a reference, a composition, an array nor an
    object compiles exactly when its [type] is one of [boolean], [integer],
    [number] and [string]. With any other type, or none, it fails: with the
    unknown-enum error when it has an [enum], with the unknown-scalar error
    otherwise. *)
Theorem X1_scalar_types (s : Schema) (st : State) :
  reachesSwitch s → type s ≠ Some "array" → type s ≠ Some "object" →
  ((∃ t, (createType s st).1 = inr t) ↔ hasPrimitiveType s)
  ∧ (¬ hasPrimitiveType s →
     (createType s st).1
     = inl (match enum_ s with
            | Some _ => UnknownEnumType (type s)
            | None => UnknownScalarType (type s)
            end)).
Proof.
  intros Hswitch Harray%typeIs_false Hobject%typeIs_false.
  destruct (createType_switch_run s st Hswitch) as (st1 & -> & _).
  unfold switchOnType. rewrite Harray, Hobject.
  destruct (createScalarType_run s st1) as [Hrun Hok]. rewrite Hrun. cbn [fst].
  case_bool_decide as Hp.
  - split; [|done]. split; [done|]. intros _. by apply Hok.
  - split; [|done]. split; [|done]. by intros [t ?].
Qed.

Lemma X1_scalar_types_witness :
  (∃ t, (createType (scalar "integer") freshState).1 = inr t)
  ∧ (createType emptySchema freshState).1 = inl (UnknownScalarType None).
Proof.
  split.
  - apply (X1_scalar_types (scalar "integer") freshState); [by repeat split|done..|].
    unfold hasPrimitiveType, primitiveTypes. cbn. repeat constructor.
  - apply (X1_scalar_types emptySchema freshState); [by repeat split|done..|].
    unfold hasPrimitiveType, primitiveTypes. cbn. intros Hp.
    repeat (apply elem_of_cons in Hp as [Hp|Hp]); [done..|by apply elem_of_nil in Hp].
Defined.

(** ** Nullability *)

Lemma append_assoc (a b c : string) : (a +:+ b) +:+ c = a +:+ b +:+ c.
Proof.
  induction a as [|x a IH]; [done|].
  change (String x (a +:+ b) +:+ c = String x (a +:+ b +:+ c)).
  change (String x ((a +:+ b) +:+ c) = String x (a +:+ b +:+ c)). by rewrite IH.
Qed.

Lemma join_cons_cons sep a b l : join sep (a :: b :: l) = a +:+ sep +:+ join sep (b :: l).
Proof. reflexivity. Qed.

Lemma join_snoc sep l x : l ≠ [] → join sep (l ++ [x]) = join sep l +:+ sep +:+ x.
Proof.
  induction l as [|a l IH]; [done|]. intros _.
  destruct l as [|b l]; [done|].
  rewrite <- !app_comm_cons, !join_cons_cons.
  rewrite app_comm_cons, IH by done. by rewrite !append_assoc.
Qed.

Lemma createNullableType_eq t : createNullableType t = t +:+ " | null".
Proof. reflexivity. Qed.

Lemma switchOnType_nullable s st :
  enum_ s ≠ Some [] →
  switchOnType (withNullable (Some true) s) st
  = orNull (switchOnType (withNullable None s) st).
Proof.
  intros Henum. unfold switchOnType.
  change (typeIs (withNullable ?n s)) with (typeIs s).
  destruct (typeIs s "array").
  { unfold createArrayType, createArrayType_, bind, nullableType.
    cbn [items nullable withNullable truthyBool].
    destruct (items s) as [i|]; [|done]. by destruct (createType i st) as [[e|t] st1]. }
  destruct (typeIs s "object").
  { unfold createObjectType, createObjectType_, bind, nullableType.
    cbn [properties required additionalProperties nullable withNullable truthyBool].
    match goal with
    | |- context [match ?m st with _ => _ end] =>
        destruct (m st) as [[e|members] st1]; [done|]
    end.
    destruct (additionalProperties s) as [[b|a]|]; [| |done].
    - destruct members; [done|]. by destruct b.
    - destruct members.
      + destruct (noKeys a); [done|]. by destruct (createType a st1) as [[e|t] st2].
      + by destruct (createType a st1) as [[e|t] st2]. }
  unfold createScalarType, createEnumType, nullableType.
  change (typeIs (withNullable ?n s)) with (typeIs s).
  cbn [enum_ nullable withNullable truthyBool].
  destruct (enum_ s) as [values|] eqn:Hvalues.
  - rewrite bool_decide_eq_true_2 by done. cbn [default]. unfold id.
    destruct (_ || _); [|destruct (typeIs s "string"); [|done]]; unfold ret, orNull;
      do 2 f_equal; unfold createTypeUnion; apply join_snoc;
      (destruct values; [done|discriminate]).
  - rewrite bool_decide_eq_false_2 by (by intros [? ?]).
    repeat (destruct (typeIs s _); [done|]). done.
Qed.

(** X2: [nullable: true] appends the member [null] to what the schema
    compiles to without it, for scalars, enumerations (other than the empty
    one), arrays, objects and dictionaries alike. On a reference or a
    composition [nullable] is not looked at. *)
Theorem X2_nullable (s : Schema) :
  (reachesSwitch s → enum_ s ≠ Some [] →
   ∀ st, createType (withNullable (Some true) s) st
         = orNull (createType (withNullable None s) st))
  ∧ (isRef s = true ∨ is_Some (allOf s) ∨ is_Some (anyOf s) ∨ is_Some (oneOf s) →
     ∀ n, createType (withNullable n s) = createType s).
Proof.
  split.
  - intros Hswitch Henum st.
    rewrite (createType_reachesSwitch (withNullable (Some true) s)) by done.
    rewrite (createType_reachesSwitch (withNullable None s)) by done.
    do 4 rewrite bind_when_warn. by apply switchOnType_nullable.
  - intros Hcase n. rewrite (createType_eq (withNullable n s)), (createType_eq s).
    unfold beforeSwitch. change (isRef (withNullable n s)) with (isRef s).
    cbn [allOf anyOf not_ oneOf discriminator withNullable].
    destruct (isRef s); [done|]. destruct (allOf s); [done|].
    destruct (anyOf s); [done|]. destruct (not_ s); [done|].
    destruct (oneOf s); [done|].
    destruct Hcase as [?|[[? ?]|[[? ?]|[? ?]]]]; done.
Qed.

Lemma X2_nullable_witness :
  createType nullableInteger freshState = (inr "number | null", freshState).
Proof.
  exact (proj1 (X2_nullable nullableInteger)
           ltac:(by repeat split) ltac:(done) freshState).
Defined.

(** ** Additional properties beside declared ones *)

(** X3: an object schema with declared properties gets, for
    [additionalProperties: true], the index signature
    [[key: string]: unknown] after its members, and for a schema the index
    signature of its compiled type. For [additionalProperties: false], and
    for the empty schema, it does not compile: the value is compiled as a
    schema and has no known type. *)
Theorem X3_additionalProperties_beside_properties (s : Schema) ps st text st1 :
  properties s = Some ps → ps ≠ [] →
  createObjectType (withoutAdditionalProperties s) st = (inr text, st1) →
  ∃ members,
    text = nullableType s (join newline ["{"; join "," members; "}"])
    ∧ createObjectType (withAdditionalProperties (inl true) s) st
      = (inr (nullableType s
                (join newline ["{"; join "," (members ++ ["[key: string]: unknown"]); "}"])),
         st1)
    ∧ createObjectType (withAdditionalProperties (inl false) s) st
      = (inl (UnknownScalarType None), st1)
    ∧ createObjectType (withAdditionalProperties (inr emptySchema) s) st
      = (inl (UnknownScalarType None), st1)
    ∧ (∀ a t st2,
         createType a st1 = (inr t, st2) →
         createObjectType (withAdditionalProperties (inr a) s) st
         = (inr (nullableType s
                   (join newline
                      ["{"; join "," (members ++ ["[key: string]: " +:+ t]); "}"])),
            st2)).
Proof.
  intros Hps Hne. unfold createObjectType, createObjectType_, nullableType.
  cbn [properties required additionalProperties nullable
       withAdditionalProperties withoutAdditionalProperties].
  rewrite Hps. intros (members & st' & Hmembers & H)%bind_inr.
  unfold ret in H. simplify_eq. exists members. split; [done|].
  pose proof (mapM_inr_length _ _ _ _ _ Hmembers) as Hlen.
  destruct members as [|member members]; [by destruct ps|].
  unfold bind. rewrite Hmembers. split_and!; try done.
  intros a t st2 Ha. by rewrite Ha.
Qed.

Lemma X3_additionalProperties_beside_properties_witness :
  ∃ members,
    "{" +:+ newline +:+ dq +:+ "id" +:+ dq +:+ ": number," +:+ dq +:+ "tag" +:+ dq
      +:+ "?: string" +:+ newline +:+ "}"
    = nullableType petObject (join newline ["{"; join "," members; "}"])
    ∧ createObjectType (withAdditionalProperties (inl true) petObject) freshState
      = (inr (nullableType petObject
                (join newline ["{"; join "," (members ++ ["[key: string]: unknown"]); "}"])),
         freshState)
    ∧ createObjectType (withAdditionalProperties (inl false) petObject) freshState
      = (inl (UnknownScalarType None), freshState)
    ∧ createObjectType (withAdditionalProperties (inr emptySchema) petObject) freshState
      = (inl (UnknownScalarType None), freshState)
    ∧ (∀ a t st2,
         createType a freshState = (inr t, st2) →
         createObjectType (withAdditionalProperties (inr a) petObject) freshState
         = (inr (nullableType petObject
                   (join newline
                      ["{"; join "," (members ++ ["[key: string]: " +:+ t]); "}"])),
            st2)).
Proof.
  apply (X3_additionalProperties_beside_properties petObject
           [("id", Some (scalar "integer")); ("tag", Some (scalar "string"))]
           freshState _ freshState);
    [reflexivity|discriminate|reflexivity].
Defined.

(** ** Resolving references *)

Lemma refEntries_paths camelCase declared :
  (concat (map (refEntries camelCase) (componentKeys declared))).*1
  = concat (map (λ entry,
                   map (λ refName, "#/components/" +:+ entry.1 +:+ "/" +:+ refName)
                       entry.2)
                (componentKeys declared)).
Proof.
  induction (componentKeys declared) as [|entry l IH]; [done|].
  cbn [map concat]. rewrite fmap_app, IH. f_equal.
  unfold refEntries. rewrite <- list_fmap_compose. done.
Qed.

(** The table after [buildRefMap]: the declared components, and what was
    there before. *)
Lemma buildRefMap_refMap camelCase doc st r :
  (r ∈ componentPaths doc →
   ∃ name, refMap (buildRefMap camelCase doc st).2 !! r
           = Some (createTypeIdentifier camelCase name ""))
  ∧ (r ∉ componentPaths doc →
     refMap (buildRefMap camelCase doc st).2 !! r = refMap st !! r).
Proof.
  rewrite buildRefMap_run. unfold componentPaths. cbn [snd].
  destruct (components doc) as [declared|] eqn:Hdoc.
  - rewrite <- (refEntries_paths camelCase). cbn [refMap setRefMap]. split.
    + intros ([r' i] & Heq & Hin)%list_elem_of_fmap. cbn in Heq. subst r'.
      apply elem_of_refEntries in Hin as (key & names & name & Hentry & Hname & -> & ->).
      exists name.
      destruct (buildRefMap_lookup camelCase doc st) as (st' & Hrun & Hlookup).
      rewrite buildRefMap_run, Hdoc in Hrun. injection Hrun as <-.
      by apply (Hlookup declared key names name).
    + intros Hnotin. by apply recordAll_other.
  - split; [by intros ?%elem_of_nil|done].
Qed.

(** X4: once the table is built, starting from an empty one, a schema with
    a [$ref] compiles exactly when the reference is the path of a component
    the document declares, that is [#/components/], the kind, [/] and the
    name of a component of that kind; it then compiles to the identifier
    of that component's name. Any other reference, to another document
    for one, fails with the unknown-reference error. Nothing else of the
    schema is looked at, and the state is left as it is. *)
Theorem X4_reference_resolution (camelCase : string → string) (doc : Document)
    (st : State) (s : Schema) (r : string) :
  refMap st = ∅ → ref s = Some r → r ≠ "" →
  (r ∈ componentPaths doc ↔
   ∃ declared key names name,
     components doc = Some declared
     ∧ (key, names) ∈ componentKeys declared ∧ name ∈ names
     ∧ r = "#/components/" +:+ key +:+ "/" +:+ name)
  ∧ (∀ declared key names name,
       components doc = Some declared →
       (key, names) ∈ componentKeys declared → name ∈ names →
       r = "#/components/" +:+ key +:+ "/" +:+ name →
       createType s (buildRefMap camelCase doc st).2
       = (inr (createTypeIdentifier camelCase name ""),
          (buildRefMap camelCase doc st).2))
  ∧ (r ∉ componentPaths doc →
     createType s (buildRefMap camelCase doc st).2
     = (inl (UnknownRef r), (buildRefMap camelCase doc st).2)).
Proof.
  intros Hempty Href Hr.
  assert (Hct : createType s = getTypeNameFromRef s).
  { rewrite createType_eq. unfold beforeSwitch, isRef. rewrite Href.
    by destruct r. }
  rewrite Hct. unfold getTypeNameFromRef. rewrite Href. split_and!.
  - unfold componentPaths. destruct (components doc) as [declared|].
    + rewrite <- (refEntries_paths camelCase), list_elem_of_fmap. split.
      * intros ([r' i] & -> & Hin).
        apply elem_of_refEntries in Hin as (key & names & name & Hkey & Hname & -> & ->).
        by exists declared, key, names, name.
      * intros (declared' & key & names & name & [= <-] & Hkey & Hname & ->).
        exists ("#/components/" +:+ key +:+ "/" +:+ name,
                createTypeIdentifier camelCase name "").
        split; [done|]. apply elem_of_refEntries. by exists key, names, name.
    + split; [by intros ?%elem_of_nil|]. by intros (declared & ? & ? & ? & [=] & _).
  - intros declared key names name Hdoc Hkey Hname ->.
    destruct (buildRefMap_lookup camelCase doc st) as (st1 & Hrun & Hlookup).
    rewrite Hrun. cbn [snd].
    by rewrite (Hlookup declared key names name Hdoc Hkey Hname).
  - intros Hnotin.
    destruct (buildRefMap_refMap camelCase doc st r) as [_ Hother].
    by rewrite (Hother Hnotin), Hempty, lookup_empty.
Qed.

Lemma X4_reference_resolution_witness :
  createType (reference "#/components/schemas/pet")
    (buildRefMap lowerFirst ownerDocument freshState).2
  = (inr (createTypeIdentifier lowerFirst "pet" ""),
     (buildRefMap lowerFirst ownerDocument freshState).2)
  ∧ createType (reference "other.yaml#/components/schemas/pet")
      (buildRefMap lowerFirst ownerDocument freshState).2
    = (inl (UnknownRef "other.yaml#/components/schemas/pet"),
       (buildRefMap lowerFirst ownerDocument freshState).2).
Proof.
  split.
  - eapply (proj1 (proj2 (X4_reference_resolution lowerFirst ownerDocument freshState
                            (reference "#/components/schemas/pet")
                            "#/components/schemas/pet"
                            eq_refl eq_refl ltac:(done)))
              _ "schemas" ["pet"; "owner"] "pet");
      [reflexivity|left|left|reflexivity].
  - apply (proj2 (proj2 (X4_reference_resolution lowerFirst ownerDocument freshState
                           (reference "other.yaml#/components/schemas/pet")
                           "other.yaml#/components/schemas/pet"
                           eq_refl eq_refl ltac:(done)))).
    vm_compute. intros Hin.
    repeat (apply elem_of_cons in Hin as [Hin|Hin]; [discriminate|]).
    by apply elem_of_nil in Hin.
Defined.

(** ** What a run refuses *)

Lemma mapM_inr_elem {A B} (f : A → M B) l st ys st' x :
  mapM f l st = (inr ys, st') → x ∈ l → ∃ st1 y st2, f x st1 = (inr y, st2).
Proof.
  revert st ys st'. induction l as [|x' l IH]; intros st ys st';
    [by intros _ ?%elem_of_nil|].
  rewrite mapM_cons. intros (y & st1 & Hx & H)%bind_inr.
  apply bind_inr in H as (ys' & st2 & Hl & _).
  intros [->|Hin]%elem_of_cons; [by exists st, y, st1|exact (IH _ _ _ Hl Hin)].
Qed.

(** X5: a document that, once preprocessed, has components of the kinds
    [parameters] or [responses], or a path item with a [$ref] or with
    [servers], is never compiled: the run ends with an error, whatever the
    rest of the document is and whatever the functions handed to the run
    do. *)
Theorem X5_unsupported_documents (camelCase : string → string) (hooks : Hooks)
    (doc doc' : Document) (baseUrl : option string) (st : State) :
  preProcess hooks doc = inr doc' → unsupported doc' →
  ∃ e, (generate camelCase hooks doc baseUrl st).1 = inl e.
Proof.
  intros Hpre Hdoc.
  destruct (generate camelCase hooks doc baseUrl st) as [[e|text] st'] eqn:Hrun; [eauto|].
  exfalso. unfold generate in Hrun.
  apply bind_inr in Hrun as (doc1 & st1 & Hpre1 & Hrun).
  unfold lift in Hpre1. rewrite Hpre in Hpre1. injection Hpre1 as <- <-.
  apply bind_inr in Hrun as (_ & st2 & _ & Hrun).
  apply bind_inr in Hrun as (imports & st3 & _ & Hrun).
  apply bind_inr in Hrun as (_ & st4 & _ & Hrun).
  apply bind_inr in Hrun as (fromSchemas & st5 & _ & Hrun).
  apply bind_inr in Hrun as (fromParameters & st6 & Hparameters & Hrun).
  apply bind_inr in Hrun as (fromRequestBodies & st7 & _ & Hrun).
  apply bind_inr in Hrun as (fromResponses & st8 & Hresponses & Hrun).
  apply bind_inr in Hrun as (requestFunction & st9 & _ & Hrun).
  apply bind_inr in Hrun as (endpoints & st10 & Hendpoints & _).
  destruct Hdoc as [[x Hx]|[[x Hx]|(path & item & Hin & Hitem)]].
  - unfold createTypesFromParameters in Hparameters. by rewrite Hx in Hparameters.
  - unfold createTypesFromResponses in Hresponses. by rewrite Hx in Hresponses.
  - unfold createEndpoints in Hendpoints.
    apply bind_inr in Hendpoints as (pushed & st11 & Hpushed & _).
    destruct (mapM_inr_elem _ _ _ _ _ _ Hpushed Hin) as (sta & y & stb & Hrun).
    cbn [fst snd] in Hrun. unfold createPathItem in Hrun.
    destruct Hitem as [Href|Hservers].
    + by rewrite Href in Hrun.
    + destruct (truthyString (pathRef item)); [done|].
      by rewrite bool_decide_eq_true_2 in Hrun.
Qed.

Lemma X5_unsupported_documents_witness :
  ∃ e, (generate lowerFirst plainHooks withServers None freshState).1 = inl e.
Proof.
  apply (X5_unsupported_documents lowerFirst plainHooks withServers withServers);
    [reflexivity|].
  right; right. exists "/pets", (mkPathItem None None None (Some []) None []).
  split; [left|right; by eexists].
Defined.

(** ** Runs in one process *)

(** X6: the registry of identifiers belongs to the module and is never
    cleared. After a run that returned, a run in the same process on a
    document that asks for one of the same identifiers ends with an error:
    in particular a second run on the same document, as soon as it
    declares a schema, a request body or an operation. *)
Theorem X6_registry_outlives_the_run (camelCase : string → string) (hooks : Hooks)
    (doc1 doc2 doc1' doc2' : Document) (baseUrl1 baseUrl2 : option string)
    (st st1 : State) (text : string) (id : string) :
  generate camelCase hooks doc1 baseUrl1 st = (inr text, st1) →
  preProcess hooks doc1 = inr doc1' → preProcess hooks doc2 = inr doc2' →
  id ∈ reservations camelCase doc1' → id ∈ reservations camelCase doc2' →
  ∃ e, (generate camelCase hooks doc2 baseUrl2 st1).1 = inl e.
Proof.
  intros Hrun1 Hpre1 Hpre2 Hid1 Hid2.
  apply generate_reserves in Hrun1 as (doc & Hpre & _ & _ & Hregistry).
  rewrite Hpre1 in Hpre. injection Hpre as <-.
  destruct (generate camelCase hooks doc2 baseUrl2 st1) as [[e|text2] st2] eqn:Hrun2; [eauto|].
  apply generate_reserves in Hrun2 as (doc & Hpre & _ & Hnew & _).
  rewrite Hpre2 in Hpre. injection Hpre as <-.
  destruct (Hnew id Hid2). rewrite Hregistry. set_solver.
Qed.

Lemma X6_registry_outlives_the_run_witness :
  ∃ e, (generate lowerFirst plainHooks petDocument None
          (generate lowerFirst plainHooks petDocument None freshState).2).1 = inl e.
Proof.
  destruct (generate lowerFirst plainHooks petDocument None freshState)
    as [[e|text] st1] eqn:Hrun; [vm_compute in Hrun; discriminate|].
  apply (X6_registry_outlives_the_run lowerFirst plainHooks petDocument petDocument
           petDocument petDocument None None freshState st1 text "Pet" Hrun);
    [reflexivity|reflexivity|vm_compute; left|vm_compute; left].
Defined.

(** ** The aliases of the component schemas *)

Lemma component_aliases {A} camelCase suffix (get : A → option Schema)
    (l : list (string * A)) st aliases st' :
  mapM (λ entry,
          let* typeName := createTypeName camelCase (fst entry) suffix in
          let* typeDefinition := createTypeOf (get (snd entry)) in
          ret (createTypeAlias typeName typeDefinition)) l st = (inr aliases, st') →
  refMap st' = refMap st
  ∧ Forall2 (λ entry alias,
               ∃ t, (createTypeOf (get entry.2) st).1 = inr t
                    ∧ alias = createTypeAlias
                                (createTypeIdentifier camelCase entry.1 suffix) t)
            l aliases.
Proof.
  assert (Hreads : ∀ o, readsReferences _ (createTypeOf o)).
  { intros [s|]; [apply createType_readsReferences|by intros st1 st2 H]. }
  assert (Hsteps : ∀ o st0, refMap (createTypeOf o st0).2 = refMap st0).
  { intros [s|] st0; [|done]. symmetry. apply createType_sameTables. }
  revert st aliases. induction l as [|entry l IH]; intros st aliases.
  - cbn. unfold ret. intros [= <- <-]. split; [done|constructor].
  - rewrite mapM_cons. intros (alias & st1 & Hentry & H)%bind_inr.
    apply bind_inr in H as (rest & st2 & Hrest & H). unfold ret in H. simplify_eq.
    apply bind_inr in Hentry as (typeName & sta & Hname & Hentry).
    apply bind_inr in Hentry as (t & stb & Htype & Hentry).
    unfold ret in Hentry. simplify_eq.
    unfold createTypeName in Hname. case_decide; [done|]. simplify_eq.
    pose proof (Hsteps (get entry.2)
                  (setCreatedTypeNames
                     ({[createTypeIdentifier camelCase entry.1 suffix]}
                        ∪ createdTypeNames st) st)) as Hsame.
    rewrite Htype in Hsame. cbn in Hsame.
    destruct (IH _ _ Hrest) as [Hrefs Haliases].
    split; [congruence|]. constructor.
    + exists t. split; [|done].
      destruct (Hreads (get entry.2) st
                  (setCreatedTypeNames
                     ({[createTypeIdentifier camelCase entry.1 suffix]}
                        ∪ createdTypeNames st) st)
                  eq_refl) as [-> _].
      by rewrite Htype.
    + eapply Forall2_impl; [exact Haliases|]. cbn.
      intros entry' alias' (t' & Ht' & ->). exists t'. split; [|done].
      destruct (Hreads (get entry'.2) st st1) as [-> _]; [|done].
      by rewrite Hsame.
Qed.

(** X7: the component schemas give one alias each, in the order of the
    document: the alias of a schema is named by the identifier of the
    schema's name and defined by the type the schema compiles to on its
    own, with the table as it was built. From then on a [$ref] to the
    schema compiles to the name of that alias. *)
Theorem X7_schema_aliases (camelCase : string → string) (doc : Document)
    (st : State) (aliases : list string) (st' : State) :
  createTypesFromSchemas camelCase doc (buildRefMap camelCase doc st).2
    = (inr aliases, st') →
  Forall2 (λ entry alias,
             ∃ t, (createType entry.2 (buildRefMap camelCase doc st).2).1 = inr t
                  ∧ alias = "export type " +:+ createTypeIdentifier camelCase entry.1 ""
                              +:+ " = " +:+ t
                  ∧ ∀ s st2,
                      ref s = Some ("#/components/schemas/" +:+ entry.1) →
                      refMap st2 = refMap st' →
                      (createType s st2).1
                      = inr (createTypeIdentifier camelCase entry.1 ""))
          (schemaEntries doc) aliases.
Proof.
  unfold createTypesFromSchemas, schemaEntries.
  destruct (components doc ≫= schemas) as [l|] eqn:Hschemas; cbn [default].
  - intros [Hrefs Haliases]%(component_aliases camelCase "" Some).
    apply Forall2_same_length_lookup. apply Forall2_same_length_lookup in Haliases
      as [Hlength Haliases].
    split; [done|]. intros i entry alias Hentry Halias.
    destruct (Haliases i entry alias Hentry Halias) as (t & Ht & ->).
    exists t. split_and!; [done..|].
    intros s st2 Href Hst2.
    destruct (components doc) as [declared|] eqn:Hdoc; [|done]. cbn in Hschemas.
    destruct (buildRefMap_lookup camelCase doc st) as (st1 & Hrun & Hlookup).
    rewrite Hrun in Hrefs. cbn [snd] in Hrefs.
    assert (refMap st1 !! ("#/components/schemas/" +:+ entry.1)
            = Some (createTypeIdentifier camelCase entry.1 "")) as Hpath.
    { apply (Hlookup declared "schemas" (map fst l) entry.1 Hdoc).
      - unfold componentKeys. rewrite Hschemas. left.
      - apply list_elem_of_fmap. exists entry. split; [done|].
        by eapply list_elem_of_lookup_2. }
    rewrite createType_eq. unfold beforeSwitch, isRef. rewrite Href.
    change ("#/components/schemas/" +:+ entry.1)
      with (String "#" ("/components/schemas/" +:+ entry.1)) at 1.
    cbn [truthyString]. unfold getTypeNameFromRef. by rewrite Href, Hst2, Hrefs, Hpath.
  - unfold ret. intros [= <- <-]. constructor.
Qed.

Lemma X7_schema_aliases_witness :
  Forall2 (λ entry alias,
             ∃ t, (createType entry.2 (buildRefMap lowerFirst ownerDocument freshState).2).1
                  = inr t
                  ∧ alias = "export type " +:+ createTypeIdentifier lowerFirst entry.1 ""
                              +:+ " = " +:+ t
                  ∧ ∀ s st2,
                      ref s = Some ("#/components/schemas/" +:+ entry.1) →
                      refMap st2
                      = refMap (createTypesFromSchemas lowerFirst ownerDocument
                                  (buildRefMap lowerFirst ownerDocument freshState).2).2 →
                      (createType s st2).1
                      = inr (createTypeIdentifier lowerFirst entry.1 ""))
          (schemaEntries ownerDocument)
          ["export type Pet = string"; "export type Owner = Pet"].
Proof.
  apply (X7_schema_aliases lowerFirst ownerDocument freshState). reflexivity.
Defined.

(** ** The aliases of the component request bodies *)



(** ** Required parameters *)

Lemma addParameter_required groups p groups' location :
  addParameter groups p = inr groups' →
  groupRequired groups' location
  = groupRequired groups location ++ declaredRequired location [p].
Proof.
  unfold addParameter. destruct (inherited (p_in p)); [done|].
  intros [= <-]. unfold groupRequired, declaredRequired. rewrite jsGet_jsSet.
  destruct (String.eqb_spec (p_in p) location) as [<-|Hne].
  - cbn [mbind option_bind required parameterGroup default].
    assert (default [] (required (default (parameterGroup [] []) (jsGet (p_in p) groups)))
            = default [] (jsGet (p_in p) groups ≫= required)) as ->.
    { by destruct (jsGet (p_in p) groups). }
    case_bool_decide as Hrequired.
    + rewrite filter_cons_False by (intros [_ ?]; done). cbn. by rewrite app_nil_r.
    + by rewrite filter_cons_True.
  - rewrite filter_cons_False by (intros [? _]; done). cbn. by rewrite app_nil_r.
Qed.

Lemma groupParameters_required groups l groups' location :
  groupParameters groups l = inr groups' →
  groupRequired groups' location
  = groupRequired groups location ++ declaredRequired location l.
Proof.
  revert groups. induction l as [|p l IH]; intros groups; cbn [groupParameters].
  - intros [= <-]. unfold declaredRequired. cbn. by rewrite app_nil_r.
  - destruct (addParameter groups p) as [e|groups1] eqn:Hadd; [done|].
    intros H. rewrite (IH _ H), (addParameter_required _ _ _ _ Hadd), <- app_assoc.
    f_equal. unfold declaredRequired. by rewrite <- map_app, <- filter_app.
Qed.

(** X9: the group of a location lists a parameter name as required once
    for every declaration of that location and name that does not say
    [required: false], at the level of the path or of the operation. So in
    the object type of the location a member is required as soon as one
    declaration of its name is, also when a later declaration of the same
    name, whose schema is the one compiled, says [required: false]; it is
    optional when all of them say [required: false]. *)
Theorem X9_required_parameters (l : list ParameterObject)
    (groups : list (string * Schema)) :
  groupParameters [] l = inr groups →
  (∀ location, groupRequired groups location = declaredRequired location l)
  ∧ (∀ location group st text st',
       (location, group) ∈ groups →
       createType group st = (inr text, st') →
       ∃ members,
         text = join newline ["{"; join "," members; "}"]
         ∧ Forall2 (λ p member,
                      (requiredMember p.1 member ↔
                       ∃ q, q ∈ l ∧ p_in q = location ∧ p_name q = p.1
                            ∧ p_required q ≠ Some false)
                      ∧ (optionalMember p.1 member ↔
                         ∀ q, q ∈ l → p_in q = location → p_name q = p.1 →
                              p_required q = Some false))
                   (default [] (properties group)) members).
Proof.
  intros Hrun.
  assert (Hrequired : ∀ location, groupRequired groups location = declaredRequired location l).
  { intros location. by rewrite (groupParameters_required _ _ _ _ Hrun). }
  split; [done|].
  intros location group st text st' Hin Hcompile.
  apply groupParameters_inr in Hrun as [[Hnodup Hgroups] _]; [|apply wellGrouped_nil].
  destruct (Hgroups location group Hin) as (requiredNames & declared & -> & _).
  apply createType_parameterGroup in Hcompile as (members & -> & Hmembers).
  exists members. split; [done|]. cbn [properties parameterGroup default].
  assert (requiredNames = declaredRequired location l) as ->.
  { rewrite <- Hrequired. unfold groupRequired.
    by rewrite (elem_of_jsGet _ _ _ Hnodup Hin). }
  assert (Hdeclared : ∀ name,
            name ∈ declaredRequired location l ↔
            ∃ q, q ∈ l ∧ p_in q = location ∧ p_name q = name
                 ∧ p_required q ≠ Some false).
  { intros name. unfold declaredRequired. rewrite list_elem_of_fmap. split.
    - intros (q & -> & (Hq & Hl)%list_elem_of_filter). exists q. tauto.
    - intros (q & Hl & Hloc & Hname & Hq). exists q. split; [done|].
      apply list_elem_of_filter. tauto. }
  eapply Forall2_impl; [exact Hmembers|]. cbn. intros p member [Hreq Hopt].
  split; [by rewrite Hreq, Hdeclared|]. rewrite Hopt, Hdeclared. split.
  - intros Hnone q Hl Hloc Hname.
    destruct (decide (p_required q = Some false)) as [|Hq]; [done|].
    destruct Hnone. by exists q.
  - intros Hall (q & Hl & Hloc & Hname & Hq). by apply Hq, Hall.
Qed.

Lemma X9_required_parameters_witness :
  groupRequired [("path", parameterGroup ["id"] [("id", Some (scalar "string"))])] "path"
  = ["id"].
Proof.
  exact (proj1 (X9_required_parameters requiredThenOptional
                  [("path", parameterGroup ["id"] [("id", Some (scalar "string"))])]
                  eq_refl) "path").
Defined.

(** ** The locations of the parameters *)

Lemma addParameter_locations groups p :
  (inherited (p_in p) = true ∧ addParameter groups p = inl TypeError)
  ∨ (inherited (p_in p) = false
     ∧ ∃ groups', addParameter groups p = inr groups'
         ∧ ∀ location, location ∈ groups'.*1 ↔ location = p_in p ∨ location ∈ groups.*1).
Proof.
  unfold addParameter. destruct (inherited (p_in p)); [by left|right].
  split; [done|]. eexists. split; [done|]. intros location. apply jsSet_keys.
Qed.

Lemma groupParameters_locations groups l :
  ((∃ p, p ∈ l ∧ inherited (p_in p) = true) ∧ groupParameters groups l = inl TypeError)
  ∨ ((∀ p, p ∈ l → inherited (p_in p) = false)
     ∧ ∃ groups', groupParameters groups l = inr groups'
         ∧ ∀ location, location ∈ groups'.*1 ↔
                       location ∈ map p_in l ∨ location ∈ groups.*1).
Proof.
  revert groups. induction l as [|p l IH]; intros groups; cbn [groupParameters].
  - right. split; [by intros p ?%elem_of_nil|]. exists groups. split; [done|].
    intros location. cbn. rewrite elem_of_nil. tauto.
  - destruct (addParameter_locations groups p)
      as [[Hp ->]|(Hp & groups1 & -> & Hkeys1)].
    { left. split; [|done]. exists p. split; [left|done]. }
    destruct (IH groups1) as [[(q & Hq & Hin) ->]|(Hall & groups' & -> & Hkeys)].
    { left. split; [|done]. exists q. split; [by right|done]. }
    right. split.
    + intros q [->|Hq]%elem_of_cons; auto.
    + exists groups'. split; [done|]. intros location.
      rewrite Hkeys, Hkeys1. cbn [map]. rewrite elem_of_cons. tauto.
Qed.

(** X10: the [in] of a parameter is not checked against the four locations
    of OpenAPI: every string that occurs as a location gets a group, and
    the groups are those of the locations that occur. The one exception
    is a location that names a property every object inherits
    ([constructor], [toString], [__proto__], ...): the grouping, and the
    run with it, then stops with a type error, and this is the only way it
    fails. *)
Theorem X10_parameter_locations (l : list ParameterObject) :
  ((∃ groups, groupParameters [] l = inr groups)
   ↔ ∀ p, p ∈ l → p_in p ∉ objectPrototype)
  ∧ (∀ e, groupParameters [] l = inl e → e = TypeError)
  ∧ (∀ groups, groupParameters [] l = inr groups →
       ∀ location, location ∈ groups.*1 ↔ location ∈ map p_in l).
Proof.
  destruct (groupParameters_locations [] l)
    as [[(p & Hp & Hin) Hrun]|(Hall & groups & Hrun & Hkeys)]; rewrite Hrun.
  - split_and!.
    + split; [by intros [groups ?]|]. intros Hall. exfalso.
      apply (Hall p Hp). unfold inherited in Hin. by apply bool_decide_eq_true in Hin.
    + by intros e [= <-].
    + done.
  - split_and!.
    + split; [|by eauto]. intros _ p Hp.
      specialize (Hall p Hp). unfold inherited in Hall.
      by apply bool_decide_eq_false in Hall.
    + done.
    + intros groups' [= <-] location. rewrite Hkeys, elem_of_nil. tauto.
Qed.

(** ** What an operation pushes *)

Lemma parameterNames_lookup (groups : list (string * Schema))
    (acc : list (string * list string)) (location : string) :
  jsGet location
    (fold_left (λ acc entry, jsSet (fst entry) ["type"; "required"; "properties"] acc)
               groups acc)
  = if bool_decide (location ∈ groups.*1) then Some ["type"; "required"; "properties"]
    else jsGet location acc.
Proof.
  revert acc. induction groups as [|[k g] groups IH]; intros acc; cbn [fold_left].
  - by rewrite bool_decide_eq_false_2 by apply not_elem_of_nil.
  - rewrite IH, jsGet_jsSet. cbn [fst fmap list_fmap].
    destruct (decide (location ∈ groups.*1)) as [Hin|Hnotin].
    + rewrite !bool_decide_eq_true_2; [done|by right|done].
    + rewrite (bool_decide_eq_false_2 _ Hnotin).
      destruct (String.eqb_spec k location) as [->|Hne].
      * rewrite bool_decide_eq_true_2; [done|left].
      * rewrite bool_decide_eq_false_2; [done|].
        intros [?|?]%elem_of_cons; congruence.
Qed.

(** X11: what the function that renders an endpoint is given. An
    operation that pushes anything pushes, last, what that function returns
    on a descriptor with: the camel-cased operation name; the identifier
    reserved for the operation as the name of its types; the method and
    the path as they are in the document; the return type [json],
    whatever the responses are; whether there is a request body, and a
    [Content-Type: application/json] header exactly in that case,
    whatever the media types are. Its [parameters] has one key for each
    location that occurs among the parameters of the path and of the
    operation, and under every key the same three names, [type],
    [required] and [properties]: not the names of the parameters. *)
Theorem X11_endpoint_descriptor (camelCase : string → string) (hooks : Hooks)
    (path : string) (shared : list ParameterObject) (method : string)
    (operation : Operation) (st : State) (out : list string) (st' : State) :
  createOperation camelCase hooks path shared method operation st = (inr out, st') →
  ∃ info endpoint,
    createEndpoint hooks info = inr endpoint
    ∧ last out = Some endpoint
    ∧ e_operationName info = camelCase (opNameOf path method operation)
    ∧ e_typeName info = createTypeIdentifier camelCase (opNameOf path method operation) ""
    ∧ e_method info = method
    ∧ e_pathTemplate info = path
    ∧ e_returnType info = "json"
    ∧ e_hasRequestBody info = bool_decide (is_Some (requestBody operation))
    ∧ e_headers info
      = (if e_hasRequestBody info then [("Content-Type", "application/json")] else [])
    ∧ ∀ location,
        jsGet location (e_parameters info)
        = if bool_decide
               (location ∈ map p_in (shared ++ default [] (parameters operation)))
          then Some ["type"; "required"; "properties"]
          else None.
Proof.
  intros (st1 & groups & parameterTypes & stp & responseTypes & str & requestBodyTypes
          & endpoint & before & _ & Hgroups & _ & _ & _ & _ & _ & Hendpoint & ->)
         %createOperation_inr.
  eexists _, endpoint. split; [exact Hendpoint|].
  split_and!; try reflexivity.
  - rewrite last_app. reflexivity.
  - cbn [e_hasRequestBody e_headers]. by destruct (requestBody operation).
  - intros location. cbn [e_parameters]. rewrite parameterNames_lookup.
    destruct (groupParameters_locations [] (shared ++ default [] (parameters operation)))
      as [[_ Hrun]|(_ & groups' & Hrun & Hkeys)]; rewrite Hrun in Hgroups; [done|].
    injection Hgroups as ->.
    rewrite (bool_decide_ext _ (location ∈ map p_in
                                  (shared ++ default [] (parameters operation)))); [done|].
    rewrite Hkeys. cbn. rewrite elem_of_nil. tauto.
Qed.

Lemma X11_endpoint_descriptor_witness :
  ∃ info endpoint,
    createEndpoint plainHooks info = inr endpoint
    ∧ last updatePetStatements = Some endpoint
    ∧ e_operationName info = lowerFirst (opNameOf "/pets/{id}" "put" updatePet)
    ∧ e_typeName info
      = createTypeIdentifier lowerFirst (opNameOf "/pets/{id}" "put" updatePet) ""
    ∧ e_method info = "put"
    ∧ e_pathTemplate info = "/pets/{id}"
    ∧ e_returnType info = "json"
    ∧ e_hasRequestBody info = bool_decide (is_Some (requestBody updatePet))
    ∧ e_headers info
      = (if e_hasRequestBody info then [("Content-Type", "application/json")] else [])
    ∧ ∀ location,
        jsGet location (e_parameters info)
        = if bool_decide (location ∈ map p_in ([] ++ default [] (parameters updatePet)))
          then Some ["type"; "required"; "properties"]
          else None.
Proof.
  apply (X11_endpoint_descriptor lowerFirst plainHooks "/pets/{id}" [] "put" updatePet
           freshState updatePetStatements
           (createOperation lowerFirst plainHooks "/pets/{id}" [] "put" updatePet
              freshState).2).
  reflexivity.
Defined.

(** X12: the request body of an operation, unlike a component request
    body, is compiled from all its media types: the last type of the
    namespace of an operation with a request body is the alias
    [RequestBody] of the union, in the order of the document, of the
    types the schemas of the media types compile to (of the one type the
    request body itself compiles to when it has no [content]). *)
Theorem X12_operation_request_body (camelCase : string → string) (hooks : Hooks)
    (path : string) (shared : list ParameterObject) (method : string)
    (operation : Operation) (body : RequestBody)
    (st : State) (out : list string) (st' : State) :
  requestBody operation = Some body →
  createOperation camelCase hooks path shared method operation st = (inr out, st') →
  ∃ types before children endpoint,
    Forall2 (λ schema t, ∃ s, schema = Some s ∧ (createType s st).1 = inr t)
            (getRequestBodySchemas body) types
    ∧ out = before
              ++ [createNamespace
                    (createTypeIdentifier camelCase (opNameOf path method operation) "")
                    (children
                       ++ ["export type " +:+ createTypeIdentifier camelCase "RequestBody" ""
                             +:+ " = " +:+ join " | " types]);
                  endpoint].
Proof.
  intros Hbody
    (st1 & groups & parameterTypes & stp & responseTypes & str & requestBodyTypes
     & endpoint & before & Hrefs & _ & _ & [_ Hsame1] & _ & [_ Hsame2] & Htypes & _ & ->)
    %createOperation_inr.
  assert (refMap st1 = refMap str) as Hsame by congruence.
  rewrite Hbody in Htypes. destruct Htypes as (types & Htypes & ->).
  exists types, before, (parameterTypes ++ responseTypes), endpoint.
  split; [|by rewrite <- app_assoc].
  apply mapM_oblivious_inr in Htypes as [Htypes _];
    [|apply createTypeOf_oblivious|apply createTypeOf_sameTables].
  eapply Forall2_impl; [exact Htypes|]. cbn. intros [s|] t Ht; [|done].
  exists s. split; [done|]. cbn [createTypeOf] in Ht.
  destruct (createType_readsReferences s st str) as [-> _]; [congruence|done].
Qed.

Lemma X12_operation_request_body_witness :
  ∃ types before children endpoint,
    Forall2 (λ schema t, ∃ s, schema = Some s ∧ (createType s freshState).1 = inr t)
            [Some (scalar "string"); Some (scalar "integer")] types
    ∧ updatePetStatements
      = before
          ++ [createNamespace
                (createTypeIdentifier lowerFirst (opNameOf "/pets/{id}" "put" updatePet) "")
                (children
                   ++ ["export type " +:+ createTypeIdentifier lowerFirst "RequestBody" ""
                         +:+ " = " +:+ join " | " types]);
              endpoint].
Proof.
  apply (X12_operation_request_body lowerFirst plainHooks "/pets/{id}" [] "put" updatePet
           (WithContent [("application/json", Some (scalar "string"));
                         ("text/plain", Some (scalar "integer"))])
           freshState updatePetStatements
           (createOperation lowerFirst plainHooks "/pets/{id}" [] "put" updatePet
              freshState).2);
    reflexivity.
Defined.

(** ** The statements of a run *)

(** X13: what the text of a run is made of. When a run returns, the
    document was preprocessed and the result validated; the text is what
    the formatter returns on the statements joined by blank lines: the
    header and the imports of the preprocessed document, one alias for
    each of its component schemas, one alias for each of its component
    request bodies, the request function, and what the paths push. The
    components of the other kinds contribute no statement. *)
Theorem X13_statements (camelCase : string → string) (hooks : Hooks)
    (doc : Document) (baseUrl : option string) (st : State) (text : string)
    (st' : State) :
  generate camelCase hooks doc baseUrl st = (inr text, st') →
  ∃ doc' imports schemaAliases requestBodyAliases requestFunction endpoints,
    preProcess hooks doc = inr doc'
    ∧ validate hooks doc' = inr tt
    ∧ createImports hooks doc' = inr imports
    ∧ createRequestFunction hooks doc' baseUrl = inr requestFunction
    ∧ Forall2 (λ entry alias,
                 ∃ t, alias = "export type "
                                +:+ createTypeIdentifier camelCase entry.1 ""
                                +:+ " = " +:+ t)
              (schemaEntries doc') schemaAliases
    ∧ Forall2 (λ entry alias,
                 ∃ t, alias = "export type "
                                +:+ createTypeIdentifier camelCase entry.1 "RequestBody"
                                +:+ " = " +:+ t)
              (requestBodyEntries doc') requestBodyAliases
    ∧ (∃ st1, refMap st1 = refMap (buildRefMap camelCase doc' st).2
              ∧ createEndpoints camelCase hooks doc' st1 = (inr endpoints, st'))
    ∧ prettierFormat hooks
        (join (newline +:+ newline)
           ([createInfoHeader doc'; imports] ++ schemaAliases ++ requestBodyAliases
              ++ [requestFunction] ++ endpoints))
      = inr text.
Proof.
  unfold generate.
  intros (doc' & st1 & Hpre & Hrun)%bind_inr.
  apply bind_inr in Hrun as ([] & st2 & Hvalidate & Hrun).
  apply bind_inr in Hrun as (imports & st3 & Himports & Hrun).
  apply bind_inr in Hrun as ([] & st4 & Htable & Hrun).
  apply bind_inr in Hrun as (fromSchemas & st5 & Hschemas & Hrun).
  apply bind_inr in Hrun as (fromParameters & st6 & Hparameters & Hrun).
  apply bind_inr in Hrun as (fromRequestBodies & st7 & Hbodies & Hrun).
  apply bind_inr in Hrun as (fromResponses & st8 & Hresponses & Hrun).
  apply bind_inr in Hrun as (requestFunction & st9 & Hrequest & Hrun).
  apply bind_inr in Hrun as (endpoints & st10 & Hendpoints & Hrun).
  unfold lift in Hpre, Hvalidate, Himports, Hrequest, Hrun.
  injection Hpre as Hpre <-. injection Hvalidate as Hvalidate <-.
  injection Himports as Himports <-. injection Hrequest as Hrequest <-.
  injection Hrun as Hrun <-.
  exists doc', imports, fromSchemas, fromRequestBodies, requestFunction, endpoints.
  assert (fromParameters = [] ∧ st6 = st5) as [-> ->].
  { unfold createTypesFromParameters in Hparameters.
    destruct (components doc' ≫= componentParameters); [done|].
    unfold ret in Hparameters. by simplify_eq. }
  assert (fromResponses = [] ∧ st8 = st7) as [-> ->].
  { unfold createTypesFromResponses in Hresponses.
    destruct (components doc' ≫= componentResponses); [done|].
    unfold ret in Hresponses. by simplify_eq. }
  assert (st4 = (buildRefMap camelCase doc' st).2) as Hst4 by (by rewrite Htable).
  assert (refMap st5 = refMap (buildRefMap camelCase doc' st).2
          ∧ Forall2 (λ entry alias,
                       ∃ t, alias = createTypeAlias
                                      (createTypeIdentifier camelCase entry.1 "") t)
                    (schemaEntries doc') fromSchemas) as [Hrefs5 Haliases5].
  { unfold createTypesFromSchemas, schemaEntries in *.
    destruct (components doc' ≫= schemas) as [l|]; cbn [default].
    - apply (component_aliases camelCase "" Some) in Hschemas as [Hrefs Haliases].
      split; [congruence|].
      eapply Forall2_impl; [exact Haliases|]. cbn. intros entry alias (t & _ & ->).
      by exists t.
    - unfold ret in Hschemas. injection Hschemas as <- <-.
      split; [congruence|constructor]. }
  assert (refMap st7 = refMap st5
          ∧ Forall2 (λ entry alias,
                       ∃ t, alias = createTypeAlias
                                      (createTypeIdentifier camelCase entry.1 "RequestBody") t)
                    (requestBodyEntries doc') fromRequestBodies) as [Hrefs7 Haliases7].
  { unfold createTypesFromRequestBodies, requestBodyEntries in *.
    destruct (components doc' ≫= requestBodies) as [l|]; cbn [default].
    - apply (component_aliases camelCase "RequestBody"
               (λ body, mjoin (head (getRequestBodySchemas body)))) in Hbodies
        as [Hrefs Haliases].
      split; [done|].
      eapply Forall2_impl; [exact Haliases|]. cbn. intros entry alias (t & _ & ->).
      by exists t.
    - unfold ret in Hbodies. injection Hbodies as <- <-. split; [done|constructor]. }
  split_and!; try done.
  exists st7. split; [congruence|done].
Qed.

Lemma X13_statements_witness :
  ∃ doc' imports schemaAliases requestBodyAliases requestFunction endpoints,
    preProcess plainHooks addPetDocument = inr doc'
    ∧ validate plainHooks doc' = inr tt
    ∧ createImports plainHooks doc' = inr imports
    ∧ createRequestFunction plainHooks doc' None = inr requestFunction
    ∧ Forall2 (λ entry alias,
                 ∃ t, alias = "export type "
                                +:+ createTypeIdentifier lowerFirst entry.1 ""
                                +:+ " = " +:+ t)
              (schemaEntries doc') schemaAliases
    ∧ Forall2 (λ entry alias,
                 ∃ t, alias = "export type "
                                +:+ createTypeIdentifier lowerFirst entry.1 "RequestBody"
                                +:+ " = " +:+ t)
              (requestBodyEntries doc') requestBodyAliases
    ∧ (∃ st1, refMap st1 = refMap (buildRefMap lowerFirst doc' freshState).2
              ∧ createEndpoints lowerFirst plainHooks doc' st1
                = (inr endpoints,
                   (generate lowerFirst plainHooks addPetDocument None freshState).2))
    ∧ prettierFormat plainHooks
        (join (newline +:+ newline)
           ([createInfoHeader doc'; imports] ++ schemaAliases ++ requestBodyAliases
              ++ [requestFunction] ++ endpoints))
      = inr (join (newline +:+ newline)
               [ createInfoHeader addPetDocument;
                 "/* imports */";
                 createTypeAlias "PetRequestBody" "string";
                 "/* request */";
                 createNamespace "AddPet" [createTypeAlias "RequestBody" "Pet"];
                 "/* addPet */" ]).
Proof.
  apply (X13_statements lowerFirst plainHooks addPetDocument None freshState).
  reflexivity.
Defined.

(** ** Identifiers *)

Lemma toUpperCase_isLowerCase c : isLowerCase (toUpperCase c) = false.
Proof. by destruct c as [[] [] [] [] [] [] [] []]. Qed.

Lemma toUpperCase_idempotent c : toUpperCase (toUpperCase c) = toUpperCase c.
Proof. by destruct c as [[] [] [] [] [] [] [] []]. Qed.

Lemma toUpperCase_other c : isLowerCase c = false → toUpperCase c = c.
Proof. by destruct c as [[] [] [] [] [] [] [] []]. Qed.

Lemma toUpperCase_letter c :
  isLowerCase c = true → nat_of_ascii (toUpperCase c) = (nat_of_ascii c - 32)%nat.
Proof. by destruct c as [[] [] [] [] [] [] [] []]. Qed.

(** X14: for a name whose camel-cased form starts with an ASCII
    character, the identifier of the type is the camel-cased form with its
    first character replaced: a letter from [a] to [z] by its capital
    (32 below it), any other character by itself. So the identifier does
    not start with a letter from [a] to [z], and capitalizing it again
    changes nothing. *)
Theorem X14_identifiers (camelCase : string → string) (str suffix : string)
    (c0 : ascii) (rest : string) :
  str +:+ suffix ≠ "" →
  camelCase (str +:+ suffix) = String c0 rest →
  isAsciiChar c0 = true →
  ∃ c, createTypeIdentifier camelCase str suffix = String c rest
       ∧ isLowerCase c = false
       ∧ (isLowerCase c0 = true → nat_of_ascii c = (nat_of_ascii c0 - 32)%nat)
       ∧ (isLowerCase c0 = false → c = c0)
       ∧ capitalize (String c rest) = String c rest.
Proof.
  intros Hne Hcamel _. exists (toUpperCase c0).
  unfold createTypeIdentifier, toPascalCase.
  destruct (String.eqb_spec (str +:+ suffix) "") as [|_]; [done|].
  rewrite Hcamel. cbn [capitalize]. split_and!.
  - done.
  - apply toUpperCase_isLowerCase.
  - apply toUpperCase_letter.
  - apply toUpperCase_other.
  - by rewrite toUpperCase_idempotent.
Qed.

Lemma X14_identifiers_witness :
  ∃ c, createTypeIdentifier lowerFirst "pet" "RequestBody" = String c "etRequestBody"
       ∧ isLowerCase c = false
       ∧ (isLowerCase "p" = true → nat_of_ascii c = (nat_of_ascii "p" - 32)%nat)
       ∧ (isLowerCase "p" = false → c = "p"%char)
       ∧ capitalize (String c "etRequestBody") = String c "etRequestBody".
Proof.
  apply (X14_identifiers lowerFirst "pet" "RequestBody" "p" "etRequestBody");
    [discriminate|reflexivity|reflexivity].
Defined.

(** ** Rejected documents *)

Lemma defaultValidate_inr doc : defaultValidate doc = inr tt ↔ isVersion3 doc.
Proof.
  unfold defaultValidate, isVersion3. destruct (openapi doc) as [v|].
  - destruct (startsWith v "3") eqn:Hv; split; try done.
    + intros _. by exists v.
    + intros (v' & [= <-] & Hv'). congruence.
  - split; [done|]. by intros (v & ? & _).
Qed.

Lemma defaultValidate_inl doc :
  ¬ isVersion3 doc → defaultValidate doc = inl UnsupportedDocument.
Proof.
  intros Hdoc. unfold defaultValidate, isVersion3 in *. destruct (openapi doc) as [v|]; [|done].
  destruct (startsWith v "3") eqn:Hv; [|done]. destruct Hdoc. by exists v.
Qed.

(** X15: with the default preprocessing and validation, the converter is
    called exactly on the documents whose [swagger] is the string [2.0],
    and it is the document it returns that is validated and compiled. A
    document (converted or not) whose [openapi] is missing, or does not
    start with [3], is rejected; so is one the converter fails on, with
    the converter's error. A rejected document leaves no trace: nothing is
    reserved, recorded or printed. A run that returns was given a
    document of version 3, or one converted to it. *)
Theorem X15_default_hooks (convertObj : Document → Error + Document)
    (camelCase : string → string) (hooks : Hooks) (doc : Document)
    (baseUrl : option string) (st : State) :
  preProcess hooks = defaultPreProcess convertObj →
  validate hooks = defaultValidate →
  (swagger doc ≠ Some "2.0" → ¬ isVersion3 doc →
   generate camelCase hooks doc baseUrl st = (inl UnsupportedDocument, st))
  ∧ (swagger doc = Some "2.0" →
     match convertObj doc with
     | inl e => generate camelCase hooks doc baseUrl st = (inl e, st)
     | inr doc' =>
         ¬ isVersion3 doc' →
         generate camelCase hooks doc baseUrl st = (inl UnsupportedDocument, st)
     end)
  ∧ (∀ text st',
       generate camelCase hooks doc baseUrl st = (inr text, st') →
       if bool_decide (swagger doc = Some "2.0")
       then ∃ doc', convertObj doc = inr doc' ∧ isVersion3 doc'
       else isVersion3 doc).
Proof.
  intros Hpre Hvalidate. unfold generate. rewrite Hpre, Hvalidate.
  unfold defaultPreProcess. split_and!.
  - intros Hswagger Hdoc. rewrite bool_decide_eq_false_2 by done.
    unfold bind at 1. unfold lift at 1. unfold bind at 1. unfold lift at 1.
    by rewrite defaultValidate_inl.
  - intros Hswagger. rewrite bool_decide_eq_true_2 by done.
    destruct (convertObj doc) as [e|doc']; [done|].
    intros Hdoc. unfold bind at 1. unfold lift at 1. unfold bind at 1. unfold lift at 1.
    by rewrite defaultValidate_inl.
  - intros text st' (doc' & st1 & Hdoc' & Hrun)%bind_inr.
    apply bind_inr in Hrun as ([] & st2 & Hvalid & _).
    unfold lift in Hdoc', Hvalid. injection Hdoc' as Hdoc' <-.
    injection Hvalid as Hvalid%defaultValidate_inr _.
    case_bool_decide; [by exists doc'|]. by simplify_eq.
Qed.

Lemma X15_default_hooks_witness :
  generate lowerFirst plainHooks unversioned None freshState
  = (inl UnsupportedDocument, freshState).
Proof.
  apply (proj1 (X15_default_hooks inr lowerFirst plainHooks unversioned None freshState
                  eq_refl eq_refl)); [done|].
  by intros (v & ? & _).
Defined.
